(** * pdfchat: the in-process RAG pipeline and the session lifecycle

A shallow embedding of the route handlers of the repository
(process-document, chat, cleanup and the two upload routes), followed by
the properties established about them.

Conventions of the embedding.
- A JavaScript string is the list of its code units; the development
  works with 8-bit code units ([ascii]), so [String.prototype.trim]
  strips TAB, LF, VT, FF, CR, SP and NBSP.
- A JavaScript number that holds a measurement (a similarity, a vector
  component) is a binary64 float ([PrimFloat.float]); array indices,
  lengths and millisecond time stamps are integers ([Z], [nat]).
- A JavaScript [Map] is an association list in insertion order with
  unique keys.
- Effects (the process-wide stores, the uploads directory, [Math.random],
  outgoing HTTP calls, thrown exceptions) are threaded through a small
  state-and-exception monad. *)

From Stdlib Require Import Ascii String.
From Stdlib Require Import DecimalString.
From Stdlib Require Import List ZArith Lia Bool Floats.
From Stdlib Require Import Permutation Sorted.
Import ListNotations.

(* ===================================================================== *)
(** * Part I: the embedding *)
(* ===================================================================== *)

(** ** JavaScript strings and arrays *)

Module Js.

Definition jsstring := list ascii.

(** A string literal of the source. *)
Definition lit (s : string) : jsstring := list_ascii_of_string s.

(** The code units [String.prototype.trim] removes. *)
Definition isWhiteSpace (c : ascii) : bool :=
  Ascii.eqb c "009" || Ascii.eqb c "010" || Ascii.eqb c "011" ||
  Ascii.eqb c "012" || Ascii.eqb c "013" || Ascii.eqb c " " ||
  Ascii.eqb c "160".

Fixpoint trimStart (s : jsstring) : jsstring :=
  match s with
  | [] => []
  | c :: s' => if isWhiteSpace c then trimStart s' else s
  end.

Definition trimEnd (s : jsstring) : jsstring := rev' (trimStart (rev' s)).

Definition trim (s : jsstring) : jsstring := trimEnd (trimStart s).

(** [len s] is [s.length]. *)
Definition len (s : jsstring) : Z := Z.of_nat (length s).

(** A relative index of [slice]: negative counts from the end. *)
Definition clampIndex (n : Z) (i : Z) : Z :=
  if (i <? 0)%Z then Z.max (n + i) 0 else Z.min i n.

(** [s.slice(start, stop)], for strings and arrays alike. *)
Definition slice {A : Type} (s : list A) (start stop : Z) : list A :=
  let n := Z.of_nat (length s) in
  let from := clampIndex n start in
  let to := clampIndex n stop in
  firstn (Z.to_nat (to - from)) (skipn (Z.to_nat from) s).

Fixpoint str_eqb (a b : jsstring) : bool :=
  match a, b with
  | [], [] => true
  | x :: a', y :: b' => Ascii.eqb x y && str_eqb a' b'
  | _, _ => false
  end.

(** [s.startsWith(p)]. *)
Fixpoint startsWith (s p : jsstring) : bool :=
  match p, s with
  | [], _ => true
  | y :: p', x :: s' => Ascii.eqb x y && startsWith s' p'
  | _ :: _, [] => false
  end.

(** [s.endsWith(t)]. *)
Definition endsWith (s t : jsstring) : bool := startsWith (rev' s) (rev' t).

(** [arr.indexOf(x)] on an array of strings: the first index holding a
    string equal to [x], or -1. *)
Fixpoint indexOfFrom (x : jsstring) (arr : list jsstring) (i : Z) : Z :=
  match arr with
  | [] => (-1)%Z
  | y :: arr' => if str_eqb y x then i else indexOfFrom x arr' (i + 1)%Z
  end.

Definition indexOf (arr : list jsstring) (x : jsstring) : Z :=
  indexOfFrom x arr 0%Z.

(** [arr.filter((x, index, array) => f x index array)]. *)
Fixpoint filterFrom {A : Type} (f : A -> Z -> bool) (l : list A) (i : Z)
  : list A :=
  match l with
  | [] => []
  | x :: l' =>
      if f x i then x :: filterFrom f l' (i + 1)%Z
      else filterFrom f l' (i + 1)%Z
  end.

Definition filterIndexed {A : Type} (f : A -> Z -> list A -> bool)
  (l : list A) : list A :=
  filterFrom (fun x i => f x i l) l 0%Z.

(** [arr.join(sep)]. *)
Fixpoint join (sep : jsstring) (arr : list jsstring) : jsstring :=
  match arr with
  | [] => []
  | [x] => x
  | x :: arr' => x ++ sep ++ join sep arr'
  end.

(** [s.lastIndexOf(c)] for a single code unit. *)
Fixpoint lastIndexOfFrom (c : ascii) (s : jsstring) (i : nat)
  (found : option nat) : option nat :=
  match s with
  | [] => found
  | x :: s' =>
      lastIndexOfFrom c s' (S i) (if Ascii.eqb x c then Some i else found)
  end.

Definition lastIndexOf (s : jsstring) (c : ascii) : option nat :=
  lastIndexOfFrom c s 0 None.

(** A string is truthy when it is not empty; [undefined] is falsy. *)
Definition truthy (s : jsstring) : bool :=
  match s with [] => false | _ :: _ => true end.

Definition truthyOpt (s : option jsstring) : bool :=
  match s with Some s' => truthy s' | None => false end.

(** The decimal rendering of an integer inside a template literal. *)
Definition showZ (z : Z) : jsstring :=
  lit (NilZero.string_of_int (Z.to_int z)).

(** *** Numbers *)

Definition number := float.

(** [x || 0] on a number: 0, -0 and NaN are falsy. *)
Definition orZero (x : number) : number :=
  if PrimFloat.eqb x 0 || PrimFloat.is_nan x then 0%float else x.

(** [arr[i]] inside an arithmetic expression: a missing element is
    [undefined], which arithmetic turns into NaN. *)
Definition numberAt (arr : list number) (i : nat) : number :=
  match nth_error arr i with
  | Some x => x
  | None => PrimFloat.nan
  end.

(** [arr.reduce((acc, val, i) => f acc val i, init)]. *)
Fixpoint reduceFrom {A B : Type} (f : B -> A -> nat -> B) (arr : list A)
  (i : nat) (acc : B) : B :=
  match arr with
  | [] => acc
  | x :: arr' => reduceFrom f arr' (S i) (f acc x i)
  end.

Definition reduce {A B : Type} (f : B -> A -> nat -> B) (arr : list A)
  (init : B) : B :=
  reduceFrom f arr 0 init.

(** [arr.sort(cmp)]: a stable sort; an element goes behind a neighbour
    exactly when the comparator returns a positive number for the pair
    (a NaN result counts as 0). *)
Fixpoint sortInsert {A : Type} (cmp : A -> A -> number) (x : A)
  (sorted : list A) : list A :=
  match sorted with
  | [] => [x]
  | y :: sorted' =>
      if PrimFloat.ltb 0 (cmp x y) then y :: sortInsert cmp x sorted'
      else x :: sorted
  end.

Fixpoint sort {A : Type} (cmp : A -> A -> number) (arr : list A) : list A :=
  match arr with
  | [] => []
  | x :: arr' => sortInsert cmp x (sort cmp arr')
  end.

(** *** JSON values of the response bodies *)

#[local] Set Warnings "-register-all".
Inductive Json : Type :=
| JUndefined
| JBool (b : bool)
| JInt (z : Z)
| JStr (s : jsstring)
| JObj (fields : list (string * Json)).

Record Response : Type := mkResponse { status : Z; body : Json }.

(** [NextResponse.json(body)] and [NextResponse.json(body, {status})]. *)
Definition json (b : Json) : Response := mkResponse 200 b.
Definition jsonStatus (st : Z) (b : Json) : Response := mkResponse st b.

End Js.

(** ** JavaScript [Map]: insertion-ordered, keyed by strings *)

Module JsMap.

Import Js.

Definition t (V : Type) : Type := list (jsstring * V).

Definition empty {V : Type} : t V := [].

Fixpoint get {V : Type} (m : t V) (k : jsstring) : option V :=
  match m with
  | [] => None
  | (k', v) :: m' => if str_eqb k' k then Some v else get m' k
  end.

Definition has {V : Type} (m : t V) (k : jsstring) : bool :=
  match get m k with Some _ => true | None => false end.

(** [m.set(k, v)]: an existing key keeps its place. *)
Fixpoint set {V : Type} (m : t V) (k : jsstring) (v : V) : t V :=
  match m with
  | [] => [(k, v)]
  | (k', v') :: m' =>
      if str_eqb k' k then (k', v) :: m' else (k', v') :: set m' k v
  end.

Fixpoint delete {V : Type} (m : t V) (k : jsstring) : t V :=
  match m with
  | [] => []
  | (k', v') :: m' =>
      if str_eqb k' k then delete m' k else (k', v') :: delete m' k
  end.

Definition size {V : Type} (m : t V) : nat := length m.
Definition keys {V : Type} (m : t V) : list jsstring := map fst m.
Definition values {V : Type} (m : t V) : list V := map snd m.
Definition entries {V : Type} (m : t V) : list (jsstring * V) := m.

End JsMap.

Import Js.

(** ** The process-wide state and the environment of a request *)

Module Runtime.

Definition vector := list number.

(** [interface DocumentData]; [createdAt] is kept as the clock value whose
    ISO rendering the source stores. *)
Record DocumentData : Type := mkDocumentData {
  fileId : jsstring;
  filename : jsstring;
  chunks : list jsstring;
  embeddings : list vector;
  createdAt : Z
}.

(** What [globalThis.documentStore] holds under a key.  The processing
    route declares the store as [Map<string, DocumentData>] and puts a
    document under its file id; the chat and cleanup routes read it as
    [Map<string, Map<string, any>>], a map of documents under a session
    id.  Both shapes live in the same global. *)
Inductive StoreValue : Type :=
| DocumentEntry (doc : DocumentData)
| SessionEntry (docs : JsMap.t DocumentData).

Record SessionMeta : Type := mkSessionMeta { lastActivity : Z }.

(** The mutable state shared by the route handlers. *)
Record World : Type := mkWorld {
  documentStore : option (JsMap.t StoreValue);
  sessionMetaStore : option (JsMap.t SessionMeta);
  (** names in the uploads directory; [None] when it does not exist *)
  uploads : option (list jsstring);
  (** calls of [Math.random] so far *)
  randomCalls : nat;
  (** identifiers drawn so far ([uuidv4], [crypto.randomUUID]) *)
  uuidCalls : nat;
  (** inputs of the embedding requests sent so far *)
  embeddingRequests : list jsstring
}.

(** The answer of the remote embedding endpoint to one request. *)
Inductive EmbeddingReply : Type :=
| NetworkError
| HttpError (code : Z)
| MalformedBody
| NoEmbedding
| Embedding (v : vector).

(** What a request finds around it and cannot change. *)
Record Env : Type := mkEnv {
  (** [process.env.GRAVIXLAYER_API_KEY] *)
  apiKey : option jsstring;
  (** the n-th result of [Math.random] *)
  random : nat -> number;
  (** the n-th identifier drawn *)
  uuid : nat -> jsstring;
  embeddingService : jsstring -> EmbeddingReply;
  (** [readFile] followed by [pdfToText]; [None] when either throws *)
  pdfText : jsstring -> option jsstring;
  (** [Date.now()] *)
  now : Z;
  (** whether a server-to-server request reaches the processing route *)
  internalServiceUp : bool
}.

(** A computation either returns or throws; the state it leaves behind is
    kept in both cases. *)
Inductive Outcome (A : Type) : Type :=
| Returned (a : A)
| Thrown (message : jsstring).
Arguments Returned {A} a.
Arguments Thrown {A} message.

Definition M (A : Type) : Type := World -> Outcome A * World.

Definition ret {A : Type} (a : A) : M A := fun w => (Returned a, w).

Definition throw {A : Type} (message : jsstring) : M A :=
  fun w => (Thrown message, w).

Definition bind {A B : Type} (m : M A) (k : A -> M B) : M B :=
  fun w =>
    match m w with
    | (Returned a, w') => k a w'
    | (Thrown e, w') => (Thrown e, w')
    end.

(** [try { m } catch (err) { handler err.message }]. *)
Definition tryCatch {A : Type} (m : M A) (handler : jsstring -> M A) : M A :=
  fun w =>
    match m w with
    | (Returned a, w') => (Returned a, w')
    | (Thrown e, w') => handler e w'
    end.

Definition getWorld : M World := fun w => (Returned w, w).
Definition putWorld (w' : World) : M unit := fun _ => (Returned tt, w').

Declare Scope js_scope.
Delimit Scope js_scope with js.
Notation "x <- m ;; k" := (bind m (fun x => k))
  (at level 61, m at next level, right associativity) : js_scope.
Notation "m ;;; k" := (bind m (fun _ => k))
  (at level 61, right associativity) : js_scope.

Definition setDocumentStore (w : World) (s : option (JsMap.t StoreValue))
  : World :=
  mkWorld s (sessionMetaStore w) (uploads w) (randomCalls w) (uuidCalls w)
    (embeddingRequests w).

Definition setSessionMetaStore (w : World)
  (s : option (JsMap.t SessionMeta)) : World :=
  mkWorld (documentStore w) s (uploads w) (randomCalls w) (uuidCalls w)
    (embeddingRequests w).

Definition setUploads (w : World) (u : option (list jsstring)) : World :=
  mkWorld (documentStore w) (sessionMetaStore w) u (randomCalls w)
    (uuidCalls w) (embeddingRequests w).

Section WithEnv.

Variable E : Env.

(** [Math.random()]. *)
Definition mathRandom : M number :=
  fun w =>
    (Returned (random E (randomCalls w)),
     mkWorld (documentStore w) (sessionMetaStore w) (uploads w)
       (S (randomCalls w)) (uuidCalls w) (embeddingRequests w)).

(** [uuidv4()] and [crypto.randomUUID()]. *)
Definition freshUuid : M jsstring :=
  fun w =>
    (Returned (uuid E (uuidCalls w)),
     mkWorld (documentStore w) (sessionMetaStore w) (uploads w)
       (randomCalls w) (S (uuidCalls w)) (embeddingRequests w)).

(** [fetch] of the embedding endpoint for one input: the request is
    sent, and the promise rejects on a network error. *)
Definition fetchEmbedding (input : jsstring) : M EmbeddingReply :=
  fun w =>
    let w' :=
      mkWorld (documentStore w) (sessionMetaStore w) (uploads w)
        (randomCalls w) (uuidCalls w) (embeddingRequests w ++ [input]) in
    match embeddingService E input with
    | NetworkError => (Thrown (lit "fetch failed"), w')
    | reply => (Returned reply, w')
    end.

Definition hasApiKey : bool := truthyOpt (apiKey E).

(** [getDocumentStore()]: the global is created on first use. *)
Definition getDocumentStore : M (JsMap.t StoreValue) :=
  fun w =>
    match documentStore w with
    | Some store => (Returned store, w)
    | None => (Returned JsMap.empty, setDocumentStore w (Some JsMap.empty))
    end.

End WithEnv.

End Runtime.

Import Runtime.
Local Open Scope js_scope.

(** ** The processing route ([process-document/route.ts]) *)

Module ProcessDocument.

(** *** [chunkText] *)

(** One turn of the [while] loop of [chunkText]: the window
    [start, min(start + chunkSize, length)) is sliced, trimmed and pushed
    when it is not empty; the next window starts [overlap] before the end
    of this one. *)
Definition chunkStep (cleanText : jsstring) (chunkSize overlap : Z)
  (start : Z) (chunks : list jsstring) : Z * list jsstring :=
  let stop := Z.min (start + chunkSize) (len cleanText) in
  let chunk := slice cleanText start stop in
  let trimmedChunk := trim chunk in
  let chunks' :=
    if (0 <? len trimmedChunk)%Z then chunks ++ [trimmedChunk] else chunks in
  (stop - overlap, chunks')%Z.

(** The loop itself, with a bound on the number of turns: [None] when the
    bound is exhausted before the loop condition fails. *)
Fixpoint chunkLoop (fuel : nat) (cleanText : jsstring)
  (chunkSize overlap : Z) (maxChunks : nat)
  (start : Z) (chunks : list jsstring) : option (list jsstring) :=
  if (start <? len cleanText)%Z && (length chunks <? maxChunks)%nat then
    match fuel with
    | O => None
    | S fuel' =>
        let '(start', chunks') :=
          chunkStep cleanText chunkSize overlap start chunks in
        chunkLoop fuel' cleanText chunkSize overlap maxChunks start' chunks'
    end
  else Some chunks.

(** [chunkText(text, chunkSize, overlap, maxChunks)], run for at most
    [fuel] turns of its loop. *)
Definition chunkTextWithin (fuel : nat) (text : jsstring)
  (chunkSize overlap : Z) (maxChunks : nat) : option (list jsstring) :=
  if (len (trim text) =? 0)%Z then Some []
  else chunkLoop fuel (trim text) chunkSize overlap maxChunks 0%Z [].

Definition defaultChunkSize : Z := 1000.
Definition defaultOverlap : Z := 200.
Definition defaultMaxChunks : nat := 50.

(** A number of turns that always suffices with the default parameters
    (see [chunkLoop_default_terminates]). *)
Definition defaultTurns (text : jsstring) : nat :=
  length (trim text) + defaultMaxChunks.

(** [chunkText(text)] as the processing route calls it. *)
Definition chunkText (text : jsstring) : list jsstring :=
  match chunkTextWithin (defaultTurns text) text
          defaultChunkSize defaultOverlap defaultMaxChunks with
  | Some chunks => chunks
  | None => []
  end.

(** *** [validateAndCleanChunks] *)

Definition validateAndCleanChunks (chunks : list jsstring)
  : list jsstring :=
  filterIndexed
    (fun chunk index array => (indexOf array chunk =? index)%Z)
    (map (fun chunk => trim chunk)
       (filter (fun chunk => (3 <=? len (trim chunk))%Z) chunks)).

Section WithEnv.

Variable E : Env.

(** *** Local stand-in vectors *)

(** The [for] loop pushing [n] results of [Math.random]. *)
Fixpoint randomVector (n : nat) : M vector :=
  match n with
  | O => ret []
  | S n' =>
      x <- mathRandom E ;;
      rest <- randomVector n' ;;
      ret (x :: rest)
  end.

Definition generateSingleDummyEmbedding : M vector := randomVector 1536.

Fixpoint dummyEmbeddingsLoop (n : nat) : M (list vector) :=
  match n with
  | O => ret []
  | S n' =>
      v <- generateSingleDummyEmbedding ;;
      rest <- dummyEmbeddingsLoop n' ;;
      ret (v :: rest)
  end.

Definition generateDummyEmbeddings (count : Z) : M (list vector) :=
  let validCount := Z.max 1 (Z.min count 100) in
  dummyEmbeddingsLoop (Z.to_nat validCount).

(** *** [generateEmbeddings] *)

(** The body of [for (const text of batch)]: one request per text; a
    refused request, an unreadable body, a body without a vector and a
    network error each leave one stand-in vector instead. *)
Definition embedText (allEmbeddings : list vector) (text : jsstring)
  : M (list vector) :=
  tryCatch
    (reply <- fetchEmbedding E text ;;
     match reply with
     | NetworkError => throw (lit "fetch failed")
     | HttpError _ =>
         v <- generateSingleDummyEmbedding ;;
         ret (allEmbeddings ++ [v])
     | MalformedBody => throw (lit "Unexpected token in JSON")
     | NoEmbedding =>
         v <- generateSingleDummyEmbedding ;;
         ret (allEmbeddings ++ [v])
     | Embedding e => ret (allEmbeddings ++ [e])
     end)
    (fun _ =>
       v <- generateSingleDummyEmbedding ;;
       ret (allEmbeddings ++ [v])).

Fixpoint embedBatch (batch : list jsstring) (allEmbeddings : list vector)
  : M (list vector) :=
  match batch with
  | [] => ret allEmbeddings
  | text :: batch' =>
      allEmbeddings' <- embedText allEmbeddings text ;;
      embedBatch batch' allEmbeddings'
  end.

Definition batchSize : nat := 3.

(** The values [i] takes in
    [for (let i = 0; i < n; i += batchSize)]. *)
Definition batchStarts (n : nat) : list nat :=
  map (fun k => k * batchSize) (seq 0 ((n + batchSize - 1) / batchSize)).

Fixpoint embedBatches (starts : list nat) (limitedTexts : list jsstring)
  (allEmbeddings : list vector) : M (list vector) :=
  match starts with
  | [] => ret allEmbeddings
  | i :: starts' =>
      let batch :=
        slice limitedTexts (Z.of_nat i) (Z.of_nat (i + batchSize)) in
      allEmbeddings' <- embedBatch batch allEmbeddings ;;
      embedBatches starts' limitedTexts allEmbeddings'
  end.

Definition generateEmbeddings (texts : list jsstring) : M (list vector) :=
  tryCatch
    (let validTexts := validateAndCleanChunks texts in
     if (length validTexts =? 0)%nat then generateDummyEmbeddings 1
     else
       let limitedTexts := slice validTexts 0 50 in
       if negb (hasApiKey E) then
         generateDummyEmbeddings (Z.of_nat (length limitedTexts))
       else
         embedBatches (batchStarts (length limitedTexts)) limitedTexts [])
    (fun _ =>
       generateDummyEmbeddings
         (if (length texts =? 0)%nat then 1 else Z.of_nat (length texts))).

(** *** [extractTextFromPDF] *)

Definition extractionFailed : jsstring :=
  lit "Failed to extract text from PDF using pdf-ts".

Definition extractTextFromPDF (filepath : jsstring) : M jsstring :=
  tryCatch
    (match pdfText E filepath with
     | None => throw (lit "ENOENT: no such file or directory")
     | Some extractedText =>
         if (len (trim extractedText) <? 10)%Z then
           throw (lit "No text content found in PDF or extracted text is too short to be meaningful")
         else ret (trim extractedText)
     end)
    (fun _ => throw extractionFailed).

(** *** The handler *)

(** The JSON body of a request; a missing field reads as the empty
    string.  The upload route also sends [sessionId]; the handler does
    not read it. *)
Record Body : Type := mkBody {
  body_sessionId : jsstring;
  body_fileId : jsstring;
  body_filename : jsstring;
  body_filepath : jsstring;
  body_fileType : jsstring
}.

Definition errorBody (message : jsstring) : Json :=
  JObj [("error"%string, JStr message)].

Definition errorDetails (message details : jsstring) : Json :=
  JObj [("error"%string, JStr message); ("details"%string, JStr details)].

Definition storeDocument (key : jsstring) (documentData : DocumentData)
  : M unit :=
  store <- getDocumentStore ;;
  w <- getWorld ;;
  putWorld
    (setDocumentStore w
       (Some (JsMap.set store key (DocumentEntry documentData)))).

Definition POST (request : option Body) : M Response :=
  tryCatch
    (match request with
     | None => throw (lit "Unexpected end of JSON input")
     | Some b =>
         let fileId := body_fileId b in
         let filename := body_filename b in
         let filepath := body_filepath b in
         let fileType := body_fileType b in
         if negb (truthy fileId) || negb (truthy filename) ||
            negb (truthy filepath) || negb (truthy fileType) then
           ret (jsonStatus 400 (errorBody (lit "Missing file metadata")))
         else if negb (str_eqb fileType (lit "application/pdf")) then
           ret (jsonStatus 400
                  (errorBody (lit "Only PDF files are supported for now.")))
         else
           extracted <-
             tryCatch
               (text <- extractTextFromPDF filepath ;; ret (text, None))
               (fun message =>
                  ret ([],
                       Some (if truthy message then message
                             else lit "PDF extraction failed"))) ;;
           let '(text, warning) := extracted in
           if negb (truthy text) || (len (trim text) <? 10)%Z then
             ret (jsonStatus 400
                    (errorBody
                       (match warning with
                        | Some message => message
                        | None => lit "No text extracted from document."
                        end)))
           else
             let chunks := chunkText text in
             if (length chunks =? 0)%nat then
               ret (jsonStatus 400
                      (errorBody
                         (lit "No valid text chunks found in document.")))
             else
               generated <-
                 tryCatch
                   (embeddings <- generateEmbeddings chunks ;;
                    ret (inr embeddings))
                   (fun message =>
                      ret (inl
                             (jsonStatus 500
                                (errorDetails
                                   (lit "Failed to generate embeddings")
                                   message)))) ;;
               match generated with
               | inl failure => ret failure
               | inr embeddings =>
                   let documentData :=
                     mkDocumentData fileId filename chunks embeddings
                       (now E) in
                   stored <-
                     tryCatch
                       (storeDocument fileId documentData ;;; ret None)
                       (fun message =>
                          ret (Some
                                 (jsonStatus 500
                                    (errorDetails
                                       (lit "Failed to store document")
                                       message)))) ;;
                   match stored with
                   | Some failure => ret failure
                   | None =>
                       ret (json
                              (JObj
                                 [("fileId"%string, JStr fileId);
                                  ("filename"%string, JStr filename);
                                  ("size"%string, JUndefined);
                                  ("type"%string, JStr fileType);
                                  ("chunks"%string,
                                    JInt (Z.of_nat (length chunks)));
                                  ("warning"%string,
                                    match warning with
                                    | Some message => JStr message
                                    | None => JUndefined
                                    end);
                                  ("processingTime"%string,
                                    JInt (now E - now E));
                                  ("message"%string,
                                    JStr (lit "Document processed successfully"))]))
                   end
               end
     end)
    (fun message =>
       ret (jsonStatus 500
              (errorDetails (lit "Failed to process document") message))).

End WithEnv.

End ProcessDocument.

(** ** The chat route *)

Module Chat.

(** *** [cosineSimilarity] *)

Definition cosineSimilarity (a b : vector) : number :=
  if negb (length a =? length b)%nat || (length a =? 0)%nat then 0%float
  else
    let dotProduct :=
      reduce (fun sum val i => (sum + orZero (val * numberAt b i))%float)
        a 0%float in
    let magnitudeA :=
      PrimFloat.sqrt
        (reduce (fun sum val _ => (sum + orZero (val * val))%float)
           a 0%float) in
    let magnitudeB :=
      PrimFloat.sqrt
        (reduce (fun sum val _ => (sum + orZero (val * val))%float)
           b 0%float) in
    if PrimFloat.eqb magnitudeA 0 || PrimFloat.eqb magnitudeB 0 then 0%float
    else (dotProduct / (magnitudeA * magnitudeB))%float.

(** *** [retrieveRelevantChunks] *)

Record Scored : Type := mkScored { chunk : jsstring; similarity : number }.

(** The body of [for (let i = 0; i < minLength; i++)]. *)
Definition scoreChunk (queryEmbedding : vector) (doc : DocumentData)
  (allChunks : list Scored) (i : nat) : list Scored :=
  match nth_error (chunks doc) i, nth_error (embeddings doc) i with
  | Some chunk, Some chunkEmbedding =>
      if (0 <? len (trim chunk))%Z then
        let similarity := cosineSimilarity queryEmbedding chunkEmbedding in
        if PrimFloat.ltb 0 similarity then
          allChunks ++ [mkScored (trim chunk) similarity]
        else allChunks
      else allChunks
  | _, _ => allChunks
  end.

(** The body of [for (const doc of documents.values())]. *)
Definition scoreDocument (queryEmbedding : vector)
  (allChunks : list Scored) (doc : DocumentData) : list Scored :=
  let minLength := Nat.min (length (chunks doc)) (length (embeddings doc)) in
  fold_left (scoreChunk queryEmbedding doc) (seq 0 minLength) allChunks.

Definition scoreDocuments (queryEmbedding : vector)
  (documents : JsMap.t DocumentData) : list Scored :=
  fold_left (scoreDocument queryEmbedding) (JsMap.values documents) [].

(** The comparator handed to [sort]. *)
Definition bySimilarity (a b : Scored) : number :=
  (similarity b - similarity a)%float.

(** [Math.max(1, Math.min(topK, 10))]. *)
Definition clampTopK (topK : Z) : Z := Z.max 1 (Z.min topK 10).

Definition rank (allChunks : list Scored) (topK : Z) : list jsstring :=
  map chunk (slice (sort bySimilarity allChunks) 0 (clampTopK topK)).

Definition retrieveRelevantChunks (queryEmbedding : vector)
  (documents : JsMap.t DocumentData) (topK : Z) : list jsstring :=
  if (JsMap.size documents =? 0)%nat then []
  else if (length queryEmbedding =? 0)%nat then []
  else
    let allChunks := scoreDocuments queryEmbedding documents in
    if (length allChunks =? 0)%nat then []
    else rank allChunks topK.

Definition defaultTopK : Z := 3.

Section WithEnv.

Variable E : Env.

(** *** Stand-in query vector *)

Fixpoint randomVector (n : nat) : M vector :=
  match n with
  | O => ret []
  | S n' =>
      x <- mathRandom E ;;
      rest <- randomVector n' ;;
      ret (x :: rest)
  end.

Definition generateSingleDummyEmbedding : M vector :=
  tryCatch (randomVector 1536)
    (fun _ => ret (repeat 0x1.999999999999ap-4%float 384)).

(** *** [generateQueryEmbedding] *)

Definition generateQueryEmbedding (query : jsstring) : M vector :=
  tryCatch
    (if negb (truthy query) || (len (trim query) =? 0)%Z then
       throw (lit "Invalid query for embedding generation")
     else if negb (hasApiKey E) then generateSingleDummyEmbedding
     else
       tryCatch
         (reply <- fetchEmbedding E (trim query) ;;
          match reply with
          | NetworkError => throw (lit "fetch failed")
          | HttpError code => throw (lit "API error: " ++ showZ code)
          | MalformedBody => throw (lit "Unexpected token in JSON")
          | NoEmbedding => generateSingleDummyEmbedding
          | Embedding e => ret e
          end)
         (fun _ => generateSingleDummyEmbedding))
    (fun _ => generateSingleDummyEmbedding).

(** *** The handler *)

Record Message : Type := mkMessage { role : jsstring; content : jsstring }.

Record Request : Type := mkRequest {
  messages : option (list Message);
  useRAG : bool;
  (** the [sessionId] cookie *)
  sessionId : option jsstring
}.

Definition contextPrefix : jsstring :=
  lit "Use the following context from uploaded documents to answer questions. If the answer is not in the context, say so clearly."
  ++ ["010"%char; "010"%char] ++ lit "Context:" ++ ["010"%char].

Definition chunkSeparator : jsstring :=
  ["010"%char; "010"%char] ++ lit "---" ++ ["010"%char; "010"%char].

Definition contextMessage (relevantChunks : list jsstring) : Message :=
  mkMessage (lit "system")
    (contextPrefix ++ join chunkSeparator relevantChunks).

(** [messages.filter((m) => m.role === "user").pop()]. *)
Definition lastUserMessage (msgs : list Message) : option Message :=
  last (map Some (filter (fun m => str_eqb (role m) (lit "user")) msgs))
    None.

(** The documents of the session, when the store has a [Map] under the
    session id. *)
Definition sessionDocuments (store : JsMap.t StoreValue)
  (session : option jsstring) : option (JsMap.t DocumentData) :=
  match session with
  | Some id =>
      if truthy id && JsMap.has store id then
        match JsMap.get store id with
        | Some (SessionEntry docs) => Some docs
        | _ => None
        end
      else None
  | None => None
  end.

(** The [if (useRAG)] block: the messages that go to the completion
    endpoint. *)
Definition processMessages (msgs : list Message) (rag : bool)
  (session : option jsstring) : M (list Message) :=
  if rag then
    tryCatch
      (store <- getDocumentStore ;;
       match sessionDocuments store session with
       | Some sessionDocs =>
           if (0 <? JsMap.size sessionDocs)%nat then
             match lastUserMessage msgs with
             | Some lastUser =>
                 if truthy (content lastUser) then
                   tryCatch
                     (queryEmbedding <-
                        generateQueryEmbedding (content lastUser) ;;
                      let relevantChunks :=
                        retrieveRelevantChunks queryEmbedding sessionDocs
                          defaultTopK in
                      if (0 <? length relevantChunks)%nat then
                        ret (slice msgs 0 (-1)
                             ++ [contextMessage relevantChunks; lastUser])
                      else ret msgs)
                     (fun _ => ret msgs)
                 else ret msgs
             | None => ret msgs
             end
           else ret msgs
       | None => ret msgs
       end)
      (fun _ => ret msgs)
  else ret msgs.

(** What the handler does with a request: it answers with an error of its
    own, or it forwards a message list to the completion endpoint, whose
    response it relays. *)
Inductive Result : Type :=
| Rejected (response : Response)
| Forwarded (processedMessages : list Message).

Definition POST (request : Request) : M Result :=
  if negb (hasApiKey E) then
    ret (Rejected
           (jsonStatus 500
              (JObj [("error"%string, JStr (lit "API key not configured"))])))
  else
    match messages request with
    | None =>
        ret (Rejected
               (jsonStatus 400
                  (JObj [("error"%string,
                           JStr (lit "Messages array is required"))])))
    | Some msgs =>
        processedMessages <-
          processMessages msgs (useRAG request) (sessionId request) ;;
        ret (Forwarded processedMessages)
    end.

End WithEnv.

End Chat.

(** ** The uploads directory *)

Module Fs.

(** [fs.readdir(uploadsDir)]: throws when the directory is missing. *)
Definition readdir : M (list jsstring) :=
  fun w =>
    match uploads w with
    | Some files => (Returned files, w)
    | None => (Thrown (lit "ENOENT: no such file or directory, scandir"), w)
    end.

(** [fs.unlink(path.join(uploadsDir, file))] for a name the directory
    listing returned: the name is gone afterwards. *)
Definition unlink (file : jsstring) : M unit :=
  fun w =>
    match uploads w with
    | Some files =>
        (Returned tt,
         setUploads w
           (Some (filter (fun f => negb (str_eqb f file)) files)))
    | None => (Thrown (lit "ENOENT: no such file or directory, unlink"), w)
    end.

(** [fs.mkdir(uploadsDir, { recursive: true })]. *)
Definition mkdir : M unit :=
  fun w =>
    match uploads w with
    | Some _ => (Returned tt, w)
    | None => (Returned tt, setUploads w (Some []))
    end.

(** [writeFile(path.join(uploadsDir, filename), buffer)]. *)
Definition writeFile (filename : jsstring) : M unit :=
  fun w =>
    match uploads w with
    | Some files =>
        (Returned tt,
         setUploads w
           (Some (if existsb (str_eqb filename) files then files
                  else files ++ [filename])))
    | None => (Thrown (lit "ENOENT: no such file or directory, open"), w)
    end.

(** [path.extname(name)]: from the last dot of the last path segment,
    empty when that segment has no dot, starts with its only dot, or is
    [".."]. *)
Definition basename (name : jsstring) : jsstring :=
  match lastIndexOf name "/" with
  | Some i => skipn (S i) name
  | None => name
  end.

Definition extname (name : jsstring) : jsstring :=
  let base := basename name in
  match lastIndexOf base "." with
  | None => []
  | Some O => []
  | Some i => if str_eqb base (lit "..") then [] else skipn i base
  end.

End Fs.

(** ** The cleanup route *)

Module Cleanup.

Section WithEnv.

Variable E : Env.

(** The two copies of the route differ in one step: the copy that reads
    [UPLOADS_DIR] creates the directory before listing it. *)
Variable ensureDirectory : bool.

(** The body of [for (const file of files)]. *)
Fixpoint unlinkOwned (sessionId : jsstring) (files : list jsstring)
  (deleted : nat) : M nat :=
  match files with
  | [] => ret deleted
  | file :: files' =>
      if startsWith file (sessionId ++ lit "__") then
        Fs.unlink file ;;; unlinkOwned sessionId files' (S deleted)
      else unlinkOwned sessionId files' deleted
  end.

(** [clearUploadsDirForSession]: the count, and the message of the
    error that stopped it, if any.  Only listing the directory can fail
    here, and it does so before anything is counted. *)
Definition clearUploadsDirForSession (sessionId : jsstring)
  : M (nat * option jsstring) :=
  tryCatch
    ((if ensureDirectory then Fs.mkdir else ret tt) ;;;
     files <- Fs.readdir ;;
     deleted <- unlinkOwned sessionId files 0 ;;
     ret (deleted, None))
    (fun message => ret (0, Some message)).

(** [clearDocumentStoreForSession]. *)
Definition clearDocumentStoreForSession (sessionId : jsstring) : M nat :=
  w <- getWorld ;;
  let clearedCount :=
    match documentStore w with
    | Some ds => if JsMap.has ds sessionId then 1 else 0
    | None => 0
    end in
  let w1 :=
    setDocumentStore w
      (option_map (fun ds => JsMap.delete ds sessionId) (documentStore w)) in
  let w2 :=
    setSessionMetaStore w1
      (option_map (fun sm => JsMap.delete sm sessionId)
         (sessionMetaStore w1)) in
  putWorld w2 ;;; ret clearedCount.

Definition defaultIdleMs : Z := 60 * 60 * 1000.

(** The body of [for (const [sessionId, meta] of entries)].  Deleting
    the entry being visited leaves the other entries of the map in
    place, so the loop visits the entries the map had on entry. *)
Definition sweepSession (idleMs : Z) (cleaned : nat)
  (entry : jsstring * SessionMeta) : M nat :=
  let '(sessionId, meta) := entry in
  if (idleMs <? now E - lastActivity meta)%Z then
    tryCatch
      (files <- Fs.readdir ;;
       unlinkOwned sessionId files 0 ;;; ret tt)
      (fun _ => ret tt) ;;;
    w <- getWorld ;;
    putWorld
      (setSessionMetaStore
         (setDocumentStore w
            (option_map (fun ds => JsMap.delete ds sessionId)
               (documentStore w)))
         (option_map (fun sm => JsMap.delete sm sessionId)
            (sessionMetaStore w))) ;;;
    ret (S cleaned)
  else ret cleaned.

Fixpoint sweepSessions (idleMs : Z) (entries : list (jsstring * SessionMeta))
  (cleaned : nat) : M nat :=
  match entries with
  | [] => ret cleaned
  | entry :: entries' =>
      cleaned' <- sweepSession idleMs cleaned entry ;;
      sweepSessions idleMs entries' cleaned'
  end.

Definition cleanupIdleSessions (idleMs : Z) : M nat :=
  w <- getWorld ;;
  let sessionMetaStore :=
    match sessionMetaStore w with
    | Some sm => sm
    | None => JsMap.empty
    end in
  sweepSessions idleMs (JsMap.entries sessionMetaStore) 0.

(** The handler; its argument is the [sessionId] cookie. *)
Definition POST (cookie : option jsstring) : M Response :=
  idleCleaned <- cleanupIdleSessions defaultIdleMs ;;
  match cookie with
  | Some sessionId =>
      if truthy sessionId then
        uploadsResult <- clearUploadsDirForSession sessionId ;;
        cleared <- clearDocumentStoreForSession sessionId ;;
        let '(deleted, failure) := uploadsResult in
        ret (json
               (JObj
                  [("success"%string, JBool true);
                   ("uploads"%string,
                     JObj (("deleted"%string, JInt (Z.of_nat deleted))
                           :: match failure with
                              | Some message =>
                                  [("error"%string, JStr message)]
                              | None => []
                              end));
                   ("documentStore"%string,
                     JObj [("cleared"%string, JInt (Z.of_nat cleared))]);
                   ("idleCleaned"%string, JInt (Z.of_nat idleCleaned));
                   ("message"%string,
                     JStr (lit "Uploads and document store cleared for session "
                           ++ sessionId
                           ++ lit ". Idle sessions cleaned: "
                           ++ showZ (Z.of_nat idleCleaned)))]))
      else
        ret (jsonStatus 400
               (JObj
                  [("success"%string, JBool false);
                   ("error"%string,
                     JStr (lit "No sessionId found in cookies."));
                   ("idleCleaned"%string, JInt (Z.of_nat idleCleaned))]))
  | None =>
      ret (jsonStatus 400
             (JObj
                [("success"%string, JBool false);
                 ("error"%string,
                   JStr (lit "No sessionId found in cookies."));
                 ("idleCleaned"%string, JInt (Z.of_nat idleCleaned))]))
  end.

End WithEnv.

End Cleanup.

(** ** The upload routes *)

(** What the two upload routes share. *)
Module UploadCommon.

Record File : Type := mkFile {
  name : jsstring;
  size : Z;
  type : jsstring
}.

Definition MAX_FILE_SIZE : Z := 10 * 1024 * 1024.

Definition ALLOWED_TYPES : list jsstring :=
  [lit "application/pdf";
   lit "application/msword";
   lit "application/vnd.openxmlformats-officedocument.wordprocessingml.document"].

(** [obj.field] on a JSON object. *)
Fixpoint field (fields : list (string * Json)) (key : string) : Json :=
  match fields with
  | [] => JUndefined
  | (k, v) :: fields' => if String.eqb k key then v else field fields' key
  end.

Definition property (j : Json) (key : string) : Json :=
  match j with
  | JObj fields => field fields key
  | _ => JUndefined
  end.

Section WithEnv.

Variable E : Env.

(** The server-to-server request to the processing route and the
    reading of its answer: the chunk count of a successful answer; any
    failure is thrown. *)
Definition processDocument (b : ProcessDocument.Body) : M Z :=
  if internalServiceUp E then
    response <- ProcessDocument.POST E (Some b) ;;
    if (200 <=? status response)%Z && (status response <? 300)%Z then
      ret (match property (body response) "chunks" with
           | JInt n => n
           | _ => 0%Z
           end)
    else
      throw (match property (body response) "error" with
             | JStr message =>
                 if truthy message then message
                 else lit "Processing failed with status "
                      ++ showZ (status response)
             | _ => lit "Processing failed with status "
                    ++ showZ (status response)
             end)
  else throw (lit "fetch failed").

(** The tail of both handlers once the file is on disk. *)
Definition respond (fileId : jsstring) (file : File)
  (b : ProcessDocument.Body) : M Response :=
  tryCatch
    (chunks <- processDocument b ;;
     ret (json
            (JObj
               [("success"%string, JBool true);
                ("fileId"%string, JStr fileId);
                ("filename"%string, JStr (name file));
                ("size"%string, JInt (size file));
                ("type"%string, JStr (type file));
                ("chunks"%string, JInt chunks)])))
    (fun message =>
       ret (json
              (JObj
                 [("success"%string, JBool true);
                  ("fileId"%string, JStr fileId);
                  ("filename"%string, JStr (name file));
                  ("size"%string, JInt (size file));
                  ("type"%string, JStr (type file));
                  ("chunks"%string, JInt 0);
                  ("warning"%string,
                    JStr (lit "File uploaded but processing failed. RAG functionality may not work for this file."));
                  ("processingError"%string, JStr message)]))).

(** The checks both handlers make before they touch the disk. *)
Definition validate (file : option File) : option Response :=
  match file with
  | None =>
      Some (jsonStatus 400
              (JObj [("error"%string, JStr (lit "No file uploaded"))]))
  | Some f =>
      if (MAX_FILE_SIZE <? size f)%Z then
        Some (jsonStatus 400
                (JObj [("error"%string,
                         JStr (lit "File size exceeds 10MB limit"))]))
      else if negb (existsb (str_eqb (type f)) ALLOWED_TYPES) then
        Some (jsonStatus 400
                (JObj [("error"%string,
                         JStr (lit "Only PDF and DOC files are allowed"));
                       ("receivedType"%string, JStr (type f))]))
      else None
  end.

Definition saveFailed (message : jsstring) : Response :=
  jsonStatus 500
    (JObj [("error"%string, JStr (lit "Failed to save file"));
           ("details"%string, JStr message)]).

End WithEnv.

End UploadCommon.

(** The upload route that tracks sessions: the file name carries the
    session id. *)
Module Upload.

Import UploadCommon.

(** The template literal that names the stored file. *)
Definition storedName (sessionId fileId extension : jsstring) : jsstring :=
  sessionId ++ lit "__" ++ fileId ++ extension.

Section WithEnv.

Variable E : Env.

Record Request : Type := mkRequest {
  cookie : option jsstring;
  file : option File
}.

(** The session id in use and, when it was just issued, the cookie the
    handler sets. *)
Definition session (cookie : option jsstring)
  : M (jsstring * option jsstring) :=
  if truthyOpt cookie then
    ret (match cookie with Some id => id | None => [] end, None)
  else
    id <- freshUuid E ;;
    ret (id, Some id).

Definition POST (request : Request) : M (Response * option jsstring) :=
  ids <- session (cookie request) ;;
  let '(sessionId, issued) := ids in
  match validate (file request) with
  | Some refusal => ret (refusal, issued)
  | None =>
      match file request with
      | None => ret (jsonStatus 400 JUndefined, issued)
      | Some f =>
          Fs.mkdir ;;;
          fileId <- freshUuid E ;;
          let extension := Fs.extname (name f) in
          let filename := storedName sessionId fileId extension in
          let filepath := lit "uploads/" ++ filename in
          saved <-
            tryCatch (Fs.writeFile filename ;;; ret None)
              (fun message => ret (Some (saveFailed message))) ;;
          match saved with
          | Some failure => ret (failure, issued)
          | None =>
              response <-
                respond E fileId f
                  (ProcessDocument.mkBody sessionId fileId (name f)
                     filepath (type f)) ;;
              ret (response, issued)
          end
      end
  end.

End WithEnv.

End Upload.

(** The upload route without sessions: the file name is the file id and
    the extension. *)
Module UploadPlain.

Import UploadCommon.

Definition storedName (fileId extension : jsstring) : jsstring :=
  fileId ++ extension.

Section WithEnv.

Variable E : Env.

Definition POST (file : option File) : M Response :=
  match validate file with
  | Some refusal => ret refusal
  | None =>
      match file with
      | None => ret (jsonStatus 400 JUndefined)
      | Some f =>
          Fs.mkdir ;;;
          fileId <- freshUuid E ;;
          let extension := Fs.extname (name f) in
          let filename := storedName fileId extension in
          let filepath := lit "uploads/" ++ filename in
          saved <-
            tryCatch (Fs.writeFile filename ;;; ret None)
              (fun message => ret (Some (saveFailed message))) ;;
          match saved with
          | Some failure => ret failure
          | None =>
              respond E fileId f
                (ProcessDocument.mkBody [] fileId (name f) filepath
                   (type f))
          end
      end
  end.

End WithEnv.

End UploadPlain.

(* ===================================================================== *)
(** * Part II: the vocabulary of the statements *)
(* ===================================================================== *)

(** ** Strings *)

(** A string that ends with a code unit [trim] keeps. *)
Definition endsSolid (s : jsstring) : Prop :=
  exists s' c, s = s' ++ [c] /\ isWhiteSpace c = false.

(** A string that starts with a code unit [trim] keeps. *)
Definition startsSolid (s : jsstring) : Prop :=
  exists c s', s = c :: s' /\ isWhiteSpace c = false.

(** [t] ends where [s] ends. *)
Definition isSuffixOf (t s : jsstring) : Prop := exists p, s = p ++ t.

(** [t] starts where [s] starts. *)
Definition isPrefixOf (t s : jsstring) : Prop := exists q, s = t ++ q.

(** ** Chunks *)

(** What every chunk handed out satisfies: it is not empty and [trim]
    leaves it alone. *)
Definition solidChunk (c : jsstring) : Prop := c <> [] /\ trim c = c.

(** The last chunk of the result ends where the text ends. *)
Definition lastAligned (clean : jsstring) (chunks : list jsstring) : Prop :=
  exists front c, chunks = front ++ [c] /\ endsWith clean c = true.

(** The spec's words for the last filter of [validateAndCleanChunks]: a
    text is kept when no earlier text equals it. *)
Fixpoint keepNew (seen rest : list jsstring) : list jsstring :=
  match rest with
  | [] => []
  | x :: rest' =>
      if existsb (str_eqb x) seen then keepNew (seen ++ [x]) rest'
      else x :: keepNew (seen ++ [x]) rest'
  end.

(** ** Vectors and scores *)

Section ScoreVocabulary.

Import Chat.

(** The sum of products the first [reduce] computes, over paired
    components. *)
Definition dotPaired (acc : number) (ab : list (number * number)) : number :=
  fold_left (fun sum p => (sum + orZero (fst p * snd p))%float) ab acc.

(** The sum of squares under both square roots. *)
Definition sumSquares (v : vector) : number :=
  reduce (fun sum val _ => (sum + orZero (val * val))%float) v 0%float.

Definition magnitude (v : vector) : number := PrimFloat.sqrt (sumSquares v).

(** Positive binary64 values: the finite positive ones and +infinity. *)
Definition positiveSF (x : spec_float) : Prop :=
  match x with
  | S754_infinity false => True
  | S754_finite false _ _ => True
  | _ => False
  end.

(** [x] is put behind [y]. *)
Definition goesBehind (A : Type) (cmp : A -> A -> number) (x y : A) : bool :=
  PrimFloat.ltb 0 (cmp x y).

(** [x] may stand before [y]. *)
Definition inOrder (A : Type) (cmp : A -> A -> number) (x y : A) : Prop :=
  goesBehind A cmp x y = false.

(** The spec's words for the scoring pass: each chunk is paired with its
    embedding up to the common prefix of the two arrays, and a pair is kept
    when its similarity to the query is positive (and its text is not
    blank). *)
Definition pairedScore (queryEmbedding : vector) (pair : jsstring * vector)
  : list Scored :=
  if (0 <? len (trim (fst pair)))%Z
     && PrimFloat.ltb 0 (cosineSimilarity queryEmbedding (snd pair))
  then [mkScored (trim (fst pair)) (cosineSimilarity queryEmbedding (snd pair))]
  else [].

Definition pairedScores (queryEmbedding : vector) (doc : DocumentData)
  : list Scored :=
  flat_map (pairedScore queryEmbedding) (combine (chunks doc) (embeddings doc)).

Definition positiveScore (a : Scored) : Prop :=
  PrimFloat.ltb 0 (similarity a) = true.

(** No element of the sorted scores is followed by one of greater
    similarity. *)
Definition descending (l : list Scored) : Prop :=
  StronglySorted
    (fun a b => PrimFloat.ltb (similarity a) (similarity b) = false) l.

End ScoreVocabulary.

(** ** Computations and the states they leave *)

(** [m], started in [w], returns a value and a state that satisfy [Q]. *)
Definition returns {A : Type} (m : M A) (w : World)
  (Q : A -> World -> Prop) : Prop :=
  exists a w', m w = (Returned a, w') /\ Q a w'.

(** The stores and the uploads directory are the same in both states. *)
Definition sameStores (w w' : World) : Prop :=
  documentStore w' = documentStore w
  /\ sessionMetaStore w' = sessionMetaStore w
  /\ uploads w' = uploads w.

(** Nothing was sent to the embedding endpoint between the two states. *)
Definition nothingSent (w w' : World) : Prop :=
  embeddingRequests w' = embeddingRequests w.

Definition dummyVector (v : vector) : Prop := length v = 1536%nat.

(** The store a request finds, which [getDocumentStore] creates empty when
    the global is not set. *)
Definition storeOf (w : World) : JsMap.t StoreValue :=
  match documentStore w with
  | Some store => store
  | None => JsMap.empty
  end.

(** The activity map a sweep iterates over. *)
Definition activityOf (w : World) : JsMap.t SessionMeta :=
  match sessionMetaStore w with
  | Some sm => sm
  | None => JsMap.empty
  end.

Definition filesOf (w : World) : list jsstring :=
  match uploads w with
  | Some files => files
  | None => []
  end.

(** The lengths of the two arrays of the document stored under [key]. *)
Definition storedLengths (w : World) (key : jsstring) : option (nat * nat) :=
  match JsMap.get (storeOf w) key with
  | Some (DocumentEntry doc) =>
      Some (length (chunks doc), length (embeddings doc))
  | _ => None
  end.

(** Every entry of the document store is a document under some key; no
    entry is a map of documents. *)
Definition onlyDocuments (w : World) : Prop :=
  forall key v,
    JsMap.get (storeOf w) key = Some v -> exists doc, v = DocumentEntry doc.

Section ProcessingVocabulary.

Import ProcessDocument.

(** What one request to the processing route leaves behind. *)
Definition stored (E : Env) (request : option Body) (w : World)
  (response : Response)
  (w' : World) : Prop :=
  exists b t embeddings,
    request = Some b
    /\ pdfText E (body_filepath b) = Some t
    /\ status response = 200%Z
    /\ documentStore w'
       = Some (JsMap.set (storeOf w) (body_fileId b)
                 (DocumentEntry
                    (mkDocumentData (body_fileId b) (body_filename b)
                       (chunkText (trim t)) embeddings (now E))))
    /\ length embeddings
       = Nat.max 1
           (Nat.min 50 (length (validateAndCleanChunks (chunkText (trim t)))))
    /\ trim t <> [].

Definition refused (w : World) (response : Response) (w' : World) : Prop :=
  status response <> 200%Z /\ documentStore w' = documentStore w.

End ProcessingVocabulary.

(** The state after a sequence of requests to the processing route. *)
Fixpoint processAll (E : Env) (requests : list (option ProcessDocument.Body))
  (w : World) : World :=
  match requests with
  | [] => w
  | request :: requests' =>
      processAll E requests' (snd (ProcessDocument.POST E request w))
  end.

(** ** Files and sessions *)

(** The file name carries the ownership mark of [sessionId]. *)
Definition ownedBy (sessionId file : jsstring) : bool :=
  startsWith file (sessionId ++ lit "__").

(** The directory after the files of [sessionId] are unlinked. *)
Definition withoutOwned (sessionId : jsstring) (files : list jsstring)
  : list jsstring :=
  filter (fun f => negb (ownedBy sessionId f)) files.


(** The directory after a file named [stored] is written. *)
Definition written (stored : jsstring) (files : list jsstring)
  : list jsstring :=
  if existsb (str_eqb stored) files then files else files ++ [stored].

(** What the sweep does to the state for one idle session. *)
Definition reclaim (sessionId : jsstring) (w : World) : World :=
  mkWorld
    (option_map (fun ds => JsMap.delete ds sessionId) (documentStore w))
    (option_map (fun sm => JsMap.delete sm sessionId) (sessionMetaStore w))
    (option_map (withoutOwned sessionId) (uploads w))
    (randomCalls w) (uuidCalls w) (embeddingRequests w).

Definition idle (E : Env) (idleMs : Z) (meta : SessionMeta) : bool :=
  (idleMs <? now E - lastActivity meta)%Z.

(** The ids of the sessions the sweep reclaims, in the order of the map. *)
Definition idleSessions (E : Env) (idleMs : Z)
  (entries : list (jsstring * SessionMeta))
  : list jsstring :=
  map fst (filter (fun entry => idle E idleMs (snd entry)) entries).

(** The state after the sweep. *)
Definition swept (E : Env) (idleMs : Z) (w : World) : World :=
  fold_left (fun w' id => reclaim id w')
    (idleSessions E idleMs (JsMap.entries (activityOf w))) w.

(** The session id an upload works under: the cookie when there is one
    with a value, a fresh identifier otherwise. *)
Definition sessionOf (E : Env) (cookie : option jsstring) (w : World) : jsstring :=
  match cookie with
  | Some (c :: id) => c :: id
  | _ => uuid E (uuidCalls w)
  end.

(** The identifier the stored file gets: the next one drawn after the
    session id. *)
Definition fileIdOf (E : Env) (cookie : option jsstring) (w : World) : jsstring :=
  match cookie with
  | Some (_ :: _) => uuid E (uuidCalls w)
  | _ => uuid E (S (uuidCalls w))
  end.

(** ** Windows of the chunker *)

(** The [k]-th window of [chunkText] with its default parameters: the 1000
    code units from offset [800 * k], trimmed. *)
Definition window (clean : jsstring) (k : nat) : jsstring :=
  trim (slice clean (800 * Z.of_nat k) (800 * Z.of_nat k + 1000)).

(** The number of windows that stop short of the end of a text of [n] code
    units: the [k] with [800 * k + 1000 < n]. *)
Definition innerWindows (n : nat) : nat :=
  if (n <=? 1000)%nat then 0%nat else S ((n - 1001) / 800).

(** The chunk pushed on every turn once a window has reached the end of the
    text. *)
Definition tailChunk (clean : jsstring) : jsstring :=
  trim (slice clean (len clean - 200) (len clean)).

Definition nonBlank (c : jsstring) : bool := (0 <? len c)%Z.

(** The chunks of a trimmed text in closed form: the windows up to the
    first one that reaches the end of the text, without the blank ones, then
    copies of the tail chunk, 50 chunks in all. *)
Definition windowChunks (clean : jsstring) : list jsstring :=
  firstn 50
    (filter nonBlank
       (map (window clean) (seq 0 (S (innerWindows (length clean)))))
     ++ repeat (tailChunk clean) 50).

(** [c] is a run of consecutive code units of [s]. *)
Definition isSubstringOf (c s : jsstring) : Prop :=
  exists p q, s = p ++ c ++ q.

(** ** Random numbers and requests *)

(** The state after [n] more calls of [Math.random]. *)
Definition afterRandom (n : nat) (w : World) : World :=
  mkWorld (documentStore w) (sessionMetaStore w) (uploads w)
    (randomCalls w + n) (uuidCalls w) (embeddingRequests w).

(** The vector made of the [n] results of [Math.random] from call [from]
    on. *)
Definition randomRun (E : Env) (from n : nat) : vector :=
  map (random E) (seq from n).

(** The state after one more request to the embedding endpoint. *)
Definition afterRequest (input : jsstring) (w : World) : World :=
  mkWorld (documentStore w) (sessionMetaStore w) (uploads w)
    (randomCalls w) (uuidCalls w) (embeddingRequests w ++ [input]).

(** The vector [generateEmbeddings] keeps for one text it sends: the one
    the endpoint returns, or a stand-in of 1536 numbers when the endpoint
    is out of reach, refuses, or answers without a vector. *)
Definition answersFor (E : Env) (text : jsstring) (v : vector) : Prop :=
  match embeddingService E text with
  | Embedding e => v = e
  | _ => length v = 1536%nat
  end.

(** ** Requests to the processing route *)

(** The four fields the processing route asks for are all there. *)
Definition metadataComplete (b : ProcessDocument.Body) : bool :=
  truthy (ProcessDocument.body_fileId b)
  && truthy (ProcessDocument.body_filename b)
  && truthy (ProcessDocument.body_filepath b)
  && truthy (ProcessDocument.body_fileType b).

Definition isPdf (b : ProcessDocument.Body) : bool :=
  str_eqb (ProcessDocument.body_fileType b) (lit "application/pdf").

(** The text of a PDF that can be read and holds at least ten code units
    after trimming. *)
Definition extractedText (E : Env) (filepath : jsstring) : option jsstring :=
  match pdfText E filepath with
  | Some t => if (len (trim t) <? 10)%Z then None else Some (trim t)
  | None => None
  end.

(** ** Uploads *)

(** The state after [n] more identifiers were drawn. *)
Definition afterUuid (n : nat) (w : World) : World :=
  mkWorld (documentStore w) (sessionMetaStore w) (uploads w)
    (randomCalls w) (uuidCalls w + n) (embeddingRequests w).

(** The state after a file named [stored] was written into the uploads
    directory, which is created when it is missing. *)
Definition afterWrite (stored : jsstring) (w : World) : World :=
  setUploads w (Some (written stored (filesOf w))).

(** The cookie the session-tracking upload route sets: none when the
    request came with one. *)
Definition issuedCookie (E : Env) (cookie : option jsstring) (w : World)
  : option jsstring :=
  if truthyOpt cookie then None else Some (sessionOf E cookie w).

(** The identifiers one request to the session-tracking upload route draws
    before it writes: the file id, and the session id when the request has
    no cookie. *)
Definition idsDrawn (cookie : option jsstring) : nat :=
  if truthyOpt cookie then 1%nat else 2%nat.

(** What the session-tracking upload route sends to the processing route. *)
Definition processingBody (E : Env) (request : Upload.Request)
  (f : UploadCommon.File) (w : World) : ProcessDocument.Body :=
  ProcessDocument.mkBody
    (sessionOf E (Upload.cookie request) w)
    (fileIdOf E (Upload.cookie request) w)
    (UploadCommon.name f)
    (lit "uploads/"
     ++ Upload.storedName (sessionOf E (Upload.cookie request) w)
          (fileIdOf E (Upload.cookie request) w)
          (Fs.extname (UploadCommon.name f)))
    (UploadCommon.type f).



(** ** Sequences of requests *)

(** A request to one of the five routes. *)
Inductive Call : Type :=
| ProcessCall (request : option ProcessDocument.Body)
| ChatCall (request : Chat.Request)
| CleanupCall (ensureDirectory : bool) (cookie : option jsstring)
| UploadCall (request : Upload.Request)
| UploadPlainCall (file : option UploadCommon.File).

(** The state a request leaves behind. *)
Definition serve (E : Env) (call : Call) (w : World) : World :=
  match call with
  | ProcessCall request => snd (ProcessDocument.POST E request w)
  | ChatCall request => snd (Chat.POST E request w)
  | CleanupCall ensureDirectory cookie =>
      snd (Cleanup.POST E ensureDirectory cookie w)
  | UploadCall request => snd (Upload.POST E request w)
  | UploadPlainCall file => snd (UploadPlain.POST E file w)
  end.

(** The state after a sequence of requests, each in the environment it
    finds. *)
Fixpoint serveAll (calls : list (Env * Call)) (w : World) : World :=
  match calls with
  | [] => w
  | (E, call) :: calls' => serveAll calls' (serve E call w)
  end.

(** No activity is recorded, and the document store holds documents
    only. *)
Definition untracked (w : World) : Prop :=
  sessionMetaStore w = None /\ onlyDocuments w.

(** A vector with its NaN components replaced by 0. *)
Definition withoutNaN (v : vector) : vector :=
  map (fun x => if PrimFloat.is_nan x then 0%float else x) v.


(** ** Worked requests *)

(** A process that has just started: no global is set and the uploads
    directory does not exist. *)
Definition freshWorld : World := mkWorld None None None 0 0 [].

(** An environment for worked requests: the credential [key], a PDF reader
    that finds [text] in every file, an embedding endpoint out of reach. *)
Definition demoEnv (key : option jsstring) (text : jsstring) : Env :=
  mkEnv key (fun _ => 0x1p-1%float)
    (fun n => lit "id-" ++ showZ (Z.of_nat n))
    (fun _ => NetworkError) (fun _ => Some text) 0 true.

Definition demoText : jsstring :=
  lit "Hello world, this is a test document with enough content.".

Definition demoBody : ProcessDocument.Body :=
  ProcessDocument.mkBody (lit "s1") (lit "f1") (lit "a.pdf")
    (lit "uploads/s1__f1.pdf") (lit "application/pdf").

Definition demoFile : UploadCommon.File :=
  UploadCommon.mkFile (lit "a.pdf") 1024 (lit "application/pdf").

(** Two sessions at the time 10 000 000: [old] was last active two hours
    before, [new] thirty minutes before. *)
Definition sweepEnv : Env :=
  mkEnv None (fun _ => 0%float) (fun _ => lit "id") (fun _ => NetworkError)
    (fun _ => None) 10000000 true.

Definition sweepWorld : World :=
  mkWorld
    (Some [(lit "old", SessionEntry []); (lit "new", SessionEntry [])])
    (Some [(lit "old", mkSessionMeta 2800000);
           (lit "new", mkSessionMeta 8200000)])
    (Some [lit "old__f1.pdf"; lit "new__f2.pdf"; lit "old__f3.pdf"])
    0 0 [].

(* ===================================================================== *)
(** * Part III: properties *)
(* ===================================================================== *)

Set Implicit Arguments.

(** ** Strings *)

Section StringFacts.

Lemma trimStart_suffix (s : jsstring) : isSuffixOf (trimStart s) s.
Proof.
  induction s as [|c s IH]; simpl.
  - exists []. reflexivity.
  - destruct (isWhiteSpace c).
    + destruct IH as [p Hp]. exists (c :: p). simpl. now rewrite <- Hp.
    + exists []. reflexivity.
Qed.

Lemma trimStart_solid (s : jsstring) :
  trimStart s <> [] -> startsSolid (trimStart s).
Proof.
  induction s as [|c s IH]; simpl; intro H.
  - congruence.
  - destruct (isWhiteSpace c) eqn:Hc.
    + auto.
    + exists c, s. auto.
Qed.

Lemma trimStart_fixed (s : jsstring) : startsSolid s -> trimStart s = s.
Proof.
  intros (c & s' & -> & Hc). simpl. now rewrite Hc.
Qed.

Lemma trimStart_keeps_end (s : jsstring) :
  endsSolid s -> endsSolid (trimStart s).
Proof.
  intros (s' & c & -> & Hc).
  induction s' as [|x s' IH]; simpl.
  - rewrite Hc. exists [], c. auto.
  - destruct (isWhiteSpace x).
    + exact IH.
    + exists (x :: s'), c. auto.
Qed.

Lemma endsSolid_nonempty (s : jsstring) : endsSolid s -> s <> [].
Proof.
  intros (s' & c & -> & _). destruct s'; discriminate.
Qed.

Lemma startsSolid_rev (s : jsstring) : startsSolid s -> endsSolid (rev s).
Proof.
  intros (c & s' & -> & Hc). simpl. exists (rev s'), c. auto.
Qed.

Lemma endsSolid_rev (s : jsstring) : endsSolid s -> startsSolid (rev s).
Proof.
  intros (s' & c & -> & Hc). rewrite rev_app_distr. simpl.
  exists c, (rev s'). auto.
Qed.

Lemma trimEnd_rev (s : jsstring) : trimEnd s = rev (trimStart (rev s)).
Proof. unfold trimEnd, rev'. now rewrite <- !rev_alt. Qed.

Lemma trimEnd_fixed (s : jsstring) : endsSolid s -> trimEnd s = s.
Proof.
  intro H. rewrite trimEnd_rev.
  rewrite (trimStart_fixed (endsSolid_rev H)). apply rev_involutive.
Qed.

Lemma trimEnd_prefix (s : jsstring) : isPrefixOf (trimEnd s) s.
Proof.
  rewrite trimEnd_rev. destruct (trimStart_suffix (rev s)) as [p Hp].
  exists (rev p).
  rewrite <- rev_app_distr, <- Hp. symmetry. apply rev_involutive.
Qed.

Lemma trimEnd_solid (s : jsstring) : trimEnd s <> [] -> endsSolid (trimEnd s).
Proof.
  rewrite trimEnd_rev. intro H. apply startsSolid_rev, trimStart_solid.
  intro E. apply H. now rewrite E.
Qed.

Lemma prefix_keeps_start (t s : jsstring) :
  isPrefixOf t s -> t <> [] -> startsSolid s -> startsSolid t.
Proof.
  intros [q ->] Ht (c & s' & Hs & Hc).
  destruct t as [|x t]; [congruence|].
  simpl in Hs. injection Hs as -> _. exists c, t. auto.
Qed.

(** A non-empty result of [trim] starts and ends with a code unit that
    [trim] keeps. *)
Lemma trim_solid (s : jsstring) :
  trim s <> [] -> startsSolid (trim s) /\ endsSolid (trim s).
Proof.
  unfold trim. intro H. split.
  - apply (prefix_keeps_start (trimEnd_prefix (trimStart s)) H).
    apply trimStart_solid. intro E. apply H. now rewrite E.
  - now apply trimEnd_solid.
Qed.

Lemma trim_fixed (s : jsstring) : startsSolid s -> endsSolid s -> trim s = s.
Proof.
  intros Hs He. unfold trim. rewrite (trimStart_fixed Hs).
  now apply trimEnd_fixed.
Qed.

Lemma trim_idempotent (s : jsstring) : trim (trim s) = trim s.
Proof.
  destruct (trim s) as [|c t] eqn:E.
  - reflexivity.
  - rewrite <- E. assert (H : trim s <> []) by (rewrite E; discriminate).
    destruct (@trim_solid s H). now apply trim_fixed.
Qed.

(** Trimming a string that already ends solidly only removes from its
    front. *)
Lemma trim_of_endsSolid (s : jsstring) :
  endsSolid s -> trim s = trimStart s /\ endsSolid (trim s) /\ isSuffixOf (trim s) s.
Proof.
  intro H. unfold trim.
  rewrite (trimEnd_fixed (trimStart_keeps_end H)).
  split; [reflexivity|]. split.
  - now apply trimStart_keeps_end.
  - apply trimStart_suffix.
Qed.

Lemma len_pos_iff (s : jsstring) : (0 <? len s)%Z = true <-> s <> [].
Proof.
  unfold len. destruct s as [|c s]; simpl; split; intro H.
  - discriminate.
  - congruence.
  - discriminate.
  - reflexivity.
Qed.

Lemma len_zero_iff (s : jsstring) : (len s =? 0)%Z = true <-> s = [].
Proof.
  unfold len. destruct s as [|c s]; simpl; split; intro H.
  - reflexivity.
  - reflexivity.
  - discriminate.
  - discriminate.
Qed.

Lemma startsWith_iff (s p : jsstring) :
  startsWith s p = true <-> isPrefixOf p s.
Proof.
  revert s. induction p as [|y p IH]; intros [|x s]; simpl.
  - split; [intros _; now exists [] | reflexivity].
  - split; [intros _; now exists (x :: s) | reflexivity].
  - split; [discriminate | intros [q Hq]; discriminate].
  - rewrite andb_true_iff, IH. split.
    + intros [Hxy [q ->]]. apply Ascii.eqb_eq in Hxy as ->. now exists q.
    + intros [q Hq]. simpl in Hq. injection Hq as -> ->.
      split; [apply Ascii.eqb_refl | now exists q].
Qed.

Lemma endsWith_iff (s t : jsstring) :
  endsWith s t = true <-> isSuffixOf t s.
Proof.
  unfold endsWith, rev'. rewrite <- !rev_alt, startsWith_iff. split.
  - intros [q Hq]. exists (rev q).
    rewrite <- (rev_involutive s), Hq, rev_app_distr.
    now rewrite rev_involutive.
  - intros [p ->]. exists (rev p). apply rev_app_distr.
Qed.

Lemma str_eqb_eq (a b : jsstring) : str_eqb a b = true <-> a = b.
Proof.
  revert b. induction a as [|x a IH]; intros [|y b]; simpl;
    try (split; [reflexivity || discriminate | reflexivity || discriminate]).
  rewrite andb_true_iff, IH, Ascii.eqb_eq. split.
  - intros [-> ->]. reflexivity.
  - intro H. injection H as -> ->. auto.
Qed.

Lemma str_eqb_refl (a : jsstring) : str_eqb a a = true.
Proof. now apply str_eqb_eq. Qed.

Lemma str_eqb_neq (a b : jsstring) : str_eqb a b = false <-> a <> b.
Proof.
  rewrite <- str_eqb_eq. destruct (str_eqb a b); split; congruence.
Qed.

End StringFacts.

(** ** The chunker *)

Section ChunkerFacts.

Import ProcessDocument.

Lemma trimmed_chunk_solid (x : jsstring) :
  (0 <? len (trim x))%Z = true -> solidChunk (trim x).
Proof.
  intro H. split.
  - now apply len_pos_iff.
  - apply trim_idempotent.
Qed.

Lemma chunkLoop_unfold (fuel : nat) (cleanText : jsstring)
  (chunkSize overlap : Z) (maxChunks : nat) (start : Z)
  (chunks : list jsstring) :
  chunkLoop fuel cleanText chunkSize overlap maxChunks start chunks =
  if (start <? len cleanText)%Z && (length chunks <? maxChunks)%nat then
    match fuel with
    | O => None
    | S fuel' =>
        chunkLoop fuel' cleanText chunkSize overlap maxChunks
          (fst (chunkStep cleanText chunkSize overlap start chunks))
          (snd (chunkStep cleanText chunkSize overlap start chunks))
    end
  else Some chunks.
Proof. destruct fuel; reflexivity. Qed.

(** More turns than needed change nothing. *)
Lemma chunkLoop_more_fuel (cleanText : jsstring) (chunkSize overlap : Z)
  (maxChunks : nat) (fuel : nat) :
  forall start chunks cs extra,
    chunkLoop fuel cleanText chunkSize overlap maxChunks start chunks = Some cs ->
    chunkLoop (fuel + extra) cleanText chunkSize overlap maxChunks start chunks
    = Some cs.
Proof.
  induction fuel as [|fuel IH]; intros start chunks cs extra H;
    rewrite chunkLoop_unfold in H; rewrite chunkLoop_unfold;
    destruct ((start <? len cleanText)%Z && (length chunks <? maxChunks)%nat);
    try discriminate; try assumption.
  simpl. now apply IH.
Qed.

Variable clean : jsstring.
Hypothesis clean_solid : endsSolid clean.

Lemma slice_to_end (start : Z) :
  (start < len clean)%Z ->
  exists k, (k < length clean)%nat /\ slice clean start (len clean) = skipn k clean.
Proof.
  intro Hs. unfold slice, clampIndex, len in *.
  set (n := Z.of_nat (length clean)) in *.
  assert (Hn : (0 < n)%Z).
  { pose proof (endsSolid_nonempty clean_solid) as Hne.
    destruct clean; [congruence|]. unfold n. simpl. lia. }
  replace (n <? 0)%Z with false by (symmetry; apply Z.ltb_ge; lia).
  rewrite Z.min_id.
  set (from := if (start <? 0)%Z then Z.max (n + start) 0 else Z.min start n).
  assert (Hf : (0 <= from < n)%Z).
  { unfold from. destruct (start <? 0)%Z eqn:E.
    - apply Z.ltb_lt in E. lia.
    - apply Z.ltb_ge in E. lia. }
  exists (Z.to_nat from). split; [unfold n in *; lia|].
  apply firstn_all2. rewrite length_skipn. unfold n in *. lia.
Qed.

Lemma tail_solid (k : nat) :
  (k < length clean)%nat ->
  endsSolid (skipn k clean) /\ isSuffixOf (skipn k clean) clean.
Proof.
  intro Hk. split.
  - destruct clean_solid as (s' & c & E & Hc). rewrite E in *.
    rewrite length_app in Hk. simpl in Hk.
    rewrite skipn_app. replace (k - length s')%nat with 0%nat by lia.
    simpl. exists (skipn k s'), c. auto.
  - exists (firstn k clean). symmetry. apply firstn_skipn.
Qed.

(** A window that reaches the end of the text: a chunk is pushed, it ends
    where the text ends, and the next window starts [overlap] before the
    end. *)
Lemma chunkStep_at_end (start : Z) (chunks : list jsstring) :
  (start < len clean)%Z -> (len clean <= start + 1000)%Z ->
  exists c,
    chunkStep clean 1000 200 start chunks = ((len clean - 200)%Z, chunks ++ [c])
    /\ c = trim (slice clean start (len clean))
    /\ solidChunk c /\ isSuffixOf c clean.
Proof.
  intros Hs He. unfold chunkStep.
  replace (Z.min (start + 1000) (len clean)) with (len clean) by lia.
  destruct (slice_to_end Hs) as (k & Hk & ->).
  destruct (tail_solid Hk) as [Hsolid [p Hp]].
  destruct (trim_of_endsSolid Hsolid) as (_ & Hend & [q Hq]).
  assert (Hne : trim (skipn k clean) <> []) by now apply endsSolid_nonempty.
  apply len_pos_iff in Hne as Hpos. rewrite Hpos.
  eexists. split; [reflexivity|]. split; [reflexivity|]. split.
  - now apply trimmed_chunk_solid.
  - exists (p ++ q). rewrite <- app_assoc, <- Hq. exact Hp.
Qed.

(** A window that stops short of the end: the next window starts
    [chunkSize - overlap] further, and at most one solid chunk is pushed. *)
Lemma chunkStep_inner (start : Z) (chunks : list jsstring) :
  (start + 1000 < len clean)%Z ->
  exists chunks',
    chunkStep clean 1000 200 start chunks = ((start + 800)%Z, chunks')
    /\ (chunks' = chunks \/ exists c, chunks' = chunks ++ [c] /\ solidChunk c).
Proof.
  intro Hs. unfold chunkStep.
  replace (Z.min (start + 1000) (len clean)) with (start + 1000)%Z by lia.
  replace (start + 1000 - 200)%Z with (start + 800)%Z by lia.
  destruct (0 <? len (trim (slice clean start (start + 1000))))%Z eqn:E.
  - eexists. split; [reflexivity|]. right. eexists. split; [reflexivity|].
    now apply trimmed_chunk_solid.
  - eexists. split; [reflexivity|]. now left.
Qed.

(** The loop with the default parameters ends, and it ends with
    [maxChunks] chunks: the window start never reaches the length of the
    text, so only the count stops it. *)
Lemma chunkLoop_default_terminates (fuel : nat) :
  forall start chunks,
    (start < len clean)%Z -> (length chunks <= 50)%nat ->
    ((50 - length chunks) + Z.to_nat (len clean - 1000 - start) <= fuel)%nat ->
    exists added,
      chunkLoop fuel clean 1000 200 50 start chunks = Some (chunks ++ added)
      /\ length (chunks ++ added) = 50%nat
      /\ Forall solidChunk added.
Proof.
  induction fuel as [|fuel IH]; intros start chunks Hs Hc Hf;
    rewrite chunkLoop_unfold;
    apply Z.ltb_lt in Hs as Hs'; rewrite Hs'; simpl andb;
    destruct (length chunks <? 50)%nat eqn:Hlt.
  - apply Nat.ltb_lt in Hlt. lia.
  - apply Nat.ltb_ge in Hlt. exists []. rewrite app_nil_r.
    repeat split; [lia | constructor].
  - apply Nat.ltb_lt in Hlt.
    destruct (Z_lt_le_dec (start + 1000) (len clean)) as [Hin | Hend].
    + destruct (chunkStep_inner start chunks Hin) as (chunks' & -> & Hch).
      simpl fst; simpl snd.
      assert (Hlen : (length chunks <= length chunks' <= 50)%nat).
      { destruct Hch as [-> | (c & -> & _)]; [lia|].
        rewrite length_app; simpl; lia. }
      destruct (IH (start + 800)%Z chunks') as (added & Hrun & Hn & Hall);
        try lia.
      destruct Hch as [-> | (c & -> & Hsolid)].
      * exists added. auto.
      * exists (c :: added). rewrite <- app_assoc in Hrun, Hn. simpl in *.
        repeat split; auto.
    + destruct (chunkStep_at_end chunks Hs Hend) as (c & -> & _ & Hsolid & _).
      simpl fst; simpl snd.
      assert (Hl : length (chunks ++ [c]) = S (length chunks))
        by (rewrite length_app; simpl; lia).
      destruct (IH (len clean - 200)%Z (chunks ++ [c]))
        as (added & Hrun & Hn & Hall); try (rewrite Hl); try lia.
      exists (c :: added). rewrite <- app_assoc in Hrun, Hn. simpl in *.
        repeat split; auto.
  - apply Nat.ltb_ge in Hlt. exists []. rewrite app_nil_r.
    repeat split; [lia | constructor].
Qed.

(** Up to 40200 code units the window reaches the end of the text before
    the count is exhausted, and from then on every chunk pushed is aligned
    with the end. *)
Lemma chunkLoop_default_last (fuel : nat) :
  forall start chunks cs,
    (len clean <= 40200)%Z ->
    ((0 <= start)%Z /\ (800 * Z.of_nat (length chunks) <= start)%Z
       /\ (start = 0%Z \/ (start + 200 < len clean)%Z)
     \/ start = (len clean - 200)%Z /\ lastAligned clean chunks) ->
    chunkLoop fuel clean 1000 200 50 start chunks = Some cs ->
    lastAligned clean cs.
Proof.
  assert (Hpos : (0 < len clean)%Z).
  { pose proof (endsSolid_nonempty clean_solid) as Hne.
    unfold len. destruct clean; [congruence | simpl; lia]. }
  induction fuel as [|fuel IH]; intros start chunks cs HL Hinv Hrun;
    rewrite chunkLoop_unfold in Hrun.
  - destruct Hinv as [(H0 & Hc & Hs) | (-> & Hal)].
    + replace (start <? len clean)%Z with true in Hrun
        by (symmetry; apply Z.ltb_lt; lia).
      replace (length chunks <? 50)%nat with true in Hrun
        by (symmetry; apply Nat.ltb_lt; lia).
      discriminate.
    + replace (len clean - 200 <? len clean)%Z with true in Hrun
        by (symmetry; apply Z.ltb_lt; lia).
      destruct (length chunks <? 50)%nat; simpl in Hrun; [discriminate|].
      now injection Hrun as <-.
  - destruct Hinv as [(H0 & Hc & Hs) | (-> & Hal)].
    + assert (Hlt : (start < len clean)%Z) by lia.
      replace (start <? len clean)%Z with true in Hrun
        by (symmetry; apply Z.ltb_lt; lia).
      replace (length chunks <? 50)%nat with true in Hrun
        by (symmetry; apply Nat.ltb_lt; lia).
      simpl andb in Hrun. cbv iota in Hrun.
      destruct (Z_lt_le_dec (start + 1000) (len clean)) as [Hin | Hend].
      * destruct (chunkStep_inner start chunks Hin) as (chunks' & E & Hch).
        rewrite E in Hrun. simpl fst in Hrun; simpl snd in Hrun.
        apply (IH _ _ _ HL) in Hrun; [exact Hrun|]. left.
        assert (Hlen : (length chunks' <= S (length chunks))%nat).
        { destruct Hch as [-> | (c & -> & _)]; [lia|].
          rewrite length_app; simpl; lia. }
        lia.
      * destruct (chunkStep_at_end chunks Hlt Hend) as (c & E & _ & _ & Hsuf).
        rewrite E in Hrun. simpl fst in Hrun; simpl snd in Hrun.
        apply (IH _ _ _ HL) in Hrun; [exact Hrun|]. right. split; [reflexivity|].
        exists chunks, c. split; [reflexivity | now apply endsWith_iff].
    + assert (Hlt : (len clean - 200 < len clean)%Z) by lia.
      replace (len clean - 200 <? len clean)%Z with true in Hrun
        by (symmetry; apply Z.ltb_lt; lia).
      destruct (length chunks <? 50)%nat; simpl andb in Hrun; cbv iota in Hrun.
      * destruct (@chunkStep_at_end (len clean - 200)%Z chunks Hlt)
          as (c & E & _ & _ & Hsuf); [lia|].
        rewrite E in Hrun. simpl fst in Hrun; simpl snd in Hrun.
        apply (IH _ _ _ HL) in Hrun; [exact Hrun|]. right. split; [reflexivity|].
        exists chunks, c. split; [reflexivity | now apply endsWith_iff].
      * now injection Hrun as <-.
Qed.

End ChunkerFacts.

Section ChunkTextFacts.

Import ProcessDocument.

Lemma trim_nonempty_solid (text : jsstring) :
  trim text <> [] -> endsSolid (trim text).
Proof. intro H. now destruct (@trim_solid text H). Qed.

Lemma chunkText_run (text : jsstring) :
  trim text <> [] ->
  exists cs,
    (forall fuel, (defaultTurns text <= fuel)%nat ->
       chunkTextWithin fuel text defaultChunkSize defaultOverlap
         defaultMaxChunks = Some cs)
    /\ chunkText text = cs
    /\ length cs = 50%nat
    /\ Forall solidChunk cs.
Proof.
  intro Hne. pose proof (@trim_nonempty_solid text Hne) as Hsolid.
  assert (Hlen : (0 < len (trim text))%Z).
  { unfold len. destruct (trim text); [congruence | simpl; lia]. }
  destruct (@chunkLoop_default_terminates (trim text) Hsolid
              (defaultTurns text) 0%Z [])
    as (cs & Hrun & Hn & Hall).
  - lia.
  - simpl; lia.
  - unfold defaultTurns, defaultMaxChunks, len in *. simpl length. lia.
  - simpl in Hrun, Hn. exists cs.
    assert (Hz : (len (trim text) =? 0)%Z = false) by (apply Z.eqb_neq; lia).
    repeat split; auto.
    + intros fuel Hf. unfold chunkTextWithin. rewrite Hz.
      replace fuel with (defaultTurns text + (fuel - defaultTurns text))%nat
        by lia.
      now apply chunkLoop_more_fuel.
    + unfold chunkText, chunkTextWithin. rewrite Hz.
      unfold defaultChunkSize, defaultOverlap, defaultMaxChunks in *.
      now rewrite Hrun.
Qed.

Lemma chunkText_blank (text : jsstring) :
  trim text = [] ->
  chunkText text = []
  /\ forall fuel,
       chunkTextWithin fuel text defaultChunkSize defaultOverlap
         defaultMaxChunks = Some [].
Proof.
  intro H. unfold chunkText, chunkTextWithin. rewrite H. simpl. auto.
Qed.

End ChunkTextFacts.



(** C4, as the code has it.  Every chunk [chunkText] returns is non-empty
    and trimmed; when the trimmed text has at most 40200 code units the last
    chunk ends where the trimmed text ends; and when the trimmed text is
    non-empty and shorter than 1000 code units the first chunk is the
    trimmed text. *)
Theorem chunkText_chunks_trimmed_and_aligned (text : jsstring) :
  Forall (fun c => c <> [] /\ trim c = c) (ProcessDocument.chunkText text)
  /\ (trim text <> [] -> (len (trim text) <= 40200)%Z ->
      exists front c,
        ProcessDocument.chunkText text = front ++ [c]
        /\ endsWith (trim text) c = true)
  /\ (trim text <> [] -> (len (trim text) < 1000)%Z ->
      exists rest, ProcessDocument.chunkText text = trim text :: rest).
Proof.
  destruct (trim text) as [|c0 t0] eqn:E.
  - destruct (@chunkText_blank text E) as [-> _].
    split; [constructor|]. split; intro H; congruence.
  - rewrite <- E.
    assert (Hne : trim text <> []) by (rewrite E; discriminate).
    pose proof (@trim_nonempty_solid text Hne) as Hsolid.
    destruct (@chunkText_run text Hne) as (cs & Hrun & Hcs & Hn & Hall).
    rewrite Hcs.
    assert (Hz : (len (trim text) =? 0)%Z = false).
    { apply Z.eqb_neq. unfold len. rewrite E. simpl. lia. }
    specialize (Hrun (ProcessDocument.defaultTurns text) (Nat.le_refl _)).
    unfold ProcessDocument.chunkTextWithin in Hrun. rewrite Hz in Hrun.
    split; [exact Hall|]. split.
    + intros _ HL.
      apply (@chunkLoop_default_last (trim text) Hsolid
               (ProcessDocument.defaultTurns text) 0%Z [] cs HL);
        [|exact Hrun].
      left. simpl. lia.
    + intros _ HL.
      unfold ProcessDocument.defaultTurns, ProcessDocument.defaultMaxChunks in Hrun.
      replace (length (trim text) + 50)%nat
        with (S (49 + length (trim text))) in Hrun by lia.
      rewrite chunkLoop_unfold in Hrun.
      assert (Hlen : (0 < len (trim text))%Z).
      { unfold len. rewrite E. simpl. lia. }
      replace (0 <? len (trim text))%Z with true in Hrun
        by (symmetry; apply Z.ltb_lt; lia).
      simpl andb in Hrun. cbv iota in Hrun.
      destruct (@chunkStep_at_end (trim text) Hsolid 0%Z [])
        as (c & Estep & Ec & _); [lia | unfold ProcessDocument.defaultChunkSize; lia |].
      unfold ProcessDocument.defaultChunkSize, ProcessDocument.defaultOverlap in Hrun.
      rewrite Estep in Hrun. simpl fst in Hrun; simpl snd in Hrun.
      assert (Hc : c = trim text).
      { rewrite Ec. unfold slice, clampIndex, len.
        replace (0 <? 0)%Z with false by reflexivity.
        replace (Z.of_nat (length (trim text)) <? 0)%Z with false
          by (symmetry; apply Z.ltb_ge; lia).
        rewrite Z.min_id, Z.min_l by lia.
        rewrite Z.sub_0_r, Nat2Z.id. simpl skipn. rewrite firstn_all.
        apply trim_idempotent. }
      subst c.
      destruct (@chunkLoop_default_terminates (trim text) Hsolid
                  (49 + length (trim text)) (len (trim text) - 200)%Z
                  [trim text])
        as (added & Hrun' & _); [lia | simpl; lia | simpl length; unfold len; lia |].
      rewrite Hc in Hrun. change (0 <? 50)%nat with true in Hrun.
      cbv iota in Hrun. rewrite Hrun' in Hrun. injection Hrun as <-. now exists added.
Qed.

Lemma chunkText_chunks_trimmed_and_aligned_witness :
  trim (lit "  hello world  ") <> []
  /\ (len (trim (lit "  hello world  ")) < 1000)%Z
  /\ exists rest,
       ProcessDocument.chunkText (lit "  hello world  ")
       = trim (lit "  hello world  ") :: rest.
Proof.
  assert (H : trim (lit "  hello world  ") <> []) by (vm_compute; discriminate).
  assert (HL : (len (trim (lit "  hello world  ")) < 1000)%Z)
    by (vm_compute; reflexivity).
  split; [exact H|]. split; [exact HL|].
  exact (proj2 (proj2 (chunkText_chunks_trimmed_and_aligned
                         (lit "  hello world  "))) H HL).
Defined.

(** C4 as stated fails on the code.  The five code units of [hello] come
    back as 50 chunks, not one; and on a text of 41000 solid code units the
    50th chunk stops at offset 40200, short of the end of the text. *)
Lemma chunkText_single_aligned_chunk_fails :
  (let text := lit "hello" in
   (0 < len (trim text) < 1000)%Z
   /\ length (ProcessDocument.chunkText text) = 50%nat
   /\ ProcessDocument.chunkText text <> [trim text])
  /\ (let text := repeat "a"%char (201 * 200) ++ repeat "b"%char (4 * 200) in
      exists front c,
        ProcessDocument.chunkText text = front ++ [c]
        /\ endsWith (trim text) c = false).
Proof.
  split.
  - vm_compute. repeat split; try reflexivity. discriminate.
  - cbv zeta.
    exists (removelast
              (ProcessDocument.chunkText
                 (repeat "a"%char (201 * 200) ++ repeat "b"%char (4 * 200)))),
           (last
              (ProcessDocument.chunkText
                 (repeat "a"%char (201 * 200) ++ repeat "b"%char (4 * 200)))
              []).
    split; vm_compute; reflexivity.
Qed.

Unset Implicit Arguments.

(** ** Cosine similarity *)

Section CosineFacts.

Import Chat.

Lemma SF64mul_comm (x y : spec_float) : SF64mul x y = SF64mul y x.
Proof.
  unfold SF64mul, SFmul.
  destruct x as [sx|sx| |sx mx ex], y as [sy|sy| |sy my ey]; try reflexivity;
    rewrite (xorb_comm sx sy); try reflexivity.
  now rewrite (Pos.mul_comm mx my), (Z.add_comm ex ey).
Qed.

(** Multiplication of binary64 numbers commutes. *)
Lemma number_mul_comm (x y : number) : (x * y)%float = (y * x)%float.
Proof. apply Prim2SF_inj. rewrite !mul_spec. apply SF64mul_comm. Qed.

Lemma numberAt_skip (pre b : vector) (j : nat) :
  numberAt (pre ++ b) (length pre + j) = numberAt b j.
Proof.
  unfold numberAt. rewrite nth_error_app2 by lia.
  now replace (length pre + j - length pre)%nat with j by lia.
Qed.

(** Reading [b[i]] by index along [a] pairs the components position by
    position. *)
Lemma reduce_indexed_paired (a : vector) :
  forall (pre b : vector) (acc : number),
    length a = length b ->
    reduceFrom (fun sum val i => (sum + orZero (val * numberAt (pre ++ b) i))%float)
      a (length pre) acc
    = dotPaired acc (combine a b).
Proof.
  induction a as [|x a IH]; intros pre [|y b] acc Hlen; simpl in *;
    try reflexivity; try discriminate.
  injection Hlen as Hlen.
  replace (numberAt (pre ++ y :: b) (length pre)) with y.
  - replace (pre ++ y :: b) with ((pre ++ [y]) ++ b)
      by (rewrite <- app_assoc; reflexivity).
    replace (S (length pre)) with (length (pre ++ [y]))
      by (rewrite length_app; simpl; lia).
    now apply IH.
  - pose proof (numberAt_skip pre (y :: b) 0) as H.
    rewrite Nat.add_0_r in H. now rewrite H.
Qed.

Lemma dotProduct_paired (a b : vector) :
  length a = length b ->
  reduce (fun sum val i => (sum + orZero (val * numberAt b i))%float) a 0%float
  = dotPaired 0%float (combine a b).
Proof.
  intro H. exact (reduce_indexed_paired a [] b 0%float H).
Qed.

Lemma dotPaired_comm (a : vector) :
  forall (b : vector) (acc : number),
    dotPaired acc (combine a b) = dotPaired acc (combine b a).
Proof.
  induction a as [|x a IH]; intros [|y b] acc; simpl; try reflexivity.
  unfold dotPaired in *. simpl. rewrite (number_mul_comm x y). apply IH.
Qed.

Lemma sumSquares_paired (v : vector) :
  sumSquares v = dotPaired 0%float (combine v v).
Proof.
  unfold sumSquares, reduce, dotPaired.
  generalize 0%nat, 0%float.
  induction v as [|x v IH]; intros n acc; simpl; [reflexivity | apply IH].
Qed.

(** [cosineSimilarity] on vectors of one positive length. *)
Lemma cosineSimilarity_unfold (a b : vector) :
  length a = length b -> a <> [] ->
  cosineSimilarity a b =
  if PrimFloat.eqb (magnitude a) 0 || PrimFloat.eqb (magnitude b) 0
  then 0%float
  else (dotPaired 0%float (combine a b) / (magnitude a * magnitude b))%float.
Proof.
  intros Hlen Hne. unfold cosineSimilarity.
  rewrite Hlen, Nat.eqb_refl. simpl negb. simpl orb.
  replace (length b =? 0)%nat with false.
  - rewrite (dotProduct_paired a b Hlen). reflexivity.
  - symmetry. apply Nat.eqb_neq. rewrite <- Hlen.
    destruct a; [congruence | simpl; lia].
Qed.

Lemma cosineSimilarity_mismatch (a b : vector) :
  length a <> length b -> cosineSimilarity a b = 0%float.
Proof.
  intro H. unfold cosineSimilarity.
  apply Nat.eqb_neq in H. now rewrite H.
Qed.

Lemma cosineSimilarity_empty (b : vector) : cosineSimilarity [] b = 0%float.
Proof.
  unfold cosineSimilarity. destruct b; reflexivity.
Qed.

Lemma cosineSimilarity_sym (a b : vector) :
  cosineSimilarity a b = cosineSimilarity b a.
Proof.
  destruct (Nat.eq_dec (length a) (length b)) as [Hlen | Hlen].
  - destruct a as [|x a].
    + destruct b; [reflexivity | discriminate].
    + assert (Hb : b <> []) by (destruct b; [discriminate | discriminate]).
      rewrite (cosineSimilarity_unfold (x :: a) b Hlen) by discriminate.
      rewrite (cosineSimilarity_unfold b (x :: a) (eq_sym Hlen) Hb).
      rewrite (orb_comm (PrimFloat.eqb (magnitude (x :: a)) 0)).
      rewrite (number_mul_comm (magnitude (x :: a)) (magnitude b)).
      now rewrite dotPaired_comm.
  - rewrite (cosineSimilarity_mismatch a b Hlen).
    symmetry. apply cosineSimilarity_mismatch. congruence.
Qed.

(** A vector whose magnitude the code finds to be 0 is at similarity 0 from
    everything. *)
Lemma cosineSimilarity_zero_magnitude (a b : vector) :
  PrimFloat.eqb (magnitude b) 0 = true -> cosineSimilarity a b = 0%float.
Proof.
  intro Hz.
  destruct (Nat.eq_dec (length a) (length b)) as [Hlen | Hlen].
  - destruct a as [|x a]; [apply cosineSimilarity_empty|].
    rewrite (cosineSimilarity_unfold (x :: a) b Hlen) by discriminate.
    now rewrite Hz, orb_true_r.
  - now apply cosineSimilarity_mismatch.
Qed.


End CosineFacts.




(** ** The order of binary64 numbers *)

Section FloatOrder.

Local Open Scope Z_scope.

Lemma digits2_pos_bounds (m : positive) :
  2 ^ (Zpos (digits2_pos m) - 1) <= Zpos m < 2 ^ Zpos (digits2_pos m).
Proof.
  induction m as [m IH | m IH |]; simpl digits2_pos.
  - rewrite Pos2Z.inj_succ.
    replace (Z.succ (Zpos (digits2_pos m)) - 1) with (Z.succ (Zpos (digits2_pos m) - 1)) by lia.
    rewrite !Z.pow_succ_r by lia. lia.
  - rewrite Pos2Z.inj_succ.
    replace (Z.succ (Zpos (digits2_pos m)) - 1) with (Z.succ (Zpos (digits2_pos m) - 1)) by lia.
    rewrite !Z.pow_succ_r by lia. lia.
  - simpl. lia.
Qed.

Lemma bounded_canonical (m : positive) (e : Z) :
  bounded prec emax m e = true ->
  SpecFloat.emin prec emax <= e
  /\ Zpos (digits2_pos m) <= prec
  /\ (SpecFloat.emin prec emax < e -> Zpos (digits2_pos m) = prec).
Proof.
  unfold bounded, canonical_mantissa, fexp, SpecFloat.emin, prec, emax.
  intro H. apply andb_true_iff in H as [H _]. apply Z.eqb_eq in H. lia.
Qed.

Lemma iter_xO (d m : positive) : Zpos (Pos.iter xO m d) = Zpos m * 2 ^ Zpos d.
Proof.
  induction d as [|d IH] using Pos.peano_ind.
  - simpl. lia.
  - rewrite Pos.iter_succ, Pos2Z.inj_succ, Z.pow_succ_r by lia.
    rewrite Pos2Z.inj_xO, IH. lia.
Qed.

Lemma shl_align_value (m : positive) (e e' : Z) :
  e' <= e ->
  Zpos (fst (shl_align m e e')) = Zpos m * 2 ^ (e - e').
Proof.
  intro H. unfold shl_align.
  destruct (e' - e) as [|p|p] eqn:E; simpl fst.
  - replace (e - e') with 0 by lia. lia.
  - lia.
  - rewrite iter_xO. replace (e - e') with (Zpos p) by lia. reflexivity.
Qed.

(** On valid positive finite numbers the comparison of the specification
    is the comparison of the mantissas brought to the smaller exponent. *)
Lemma SFcompare_aligned (mx my : positive) (ex ey : Z) :
  bounded prec emax mx ex = true -> bounded prec emax my ey = true ->
  SFcompare (S754_finite false mx ex) (S754_finite false my ey)
  = Some (Z.compare (Zpos (fst (shl_align mx ex (Z.min ex ey))))
                    (Zpos (fst (shl_align my ey (Z.min ex ey))))).
Proof.
  intros Hx Hy.
  destruct (bounded_canonical mx ex Hx) as (Hex & Hdx & Hnx).
  destruct (bounded_canonical my ey Hy) as (Hey & Hdy & Hny).
  pose proof (digits2_pos_bounds mx) as Bx.
  pose proof (digits2_pos_bounds my) as By.
  rewrite !shl_align_value by lia.
  simpl SFcompare. f_equal.
  destruct (Z.compare_spec ex ey) as [E | E | E].
  - subst ey. rewrite Z.min_id, Z.sub_diag. simpl Z.pow. rewrite !Z.mul_1_r.
    reflexivity.
  - rewrite Z.min_l by lia. rewrite Z.sub_diag. simpl (2 ^ 0). rewrite Z.mul_1_r.
    symmetry. apply Z.compare_lt_iff.
    rewrite Hny in By by lia.
    assert (2 ^ 1 <= 2 ^ (ey - ex)) by (apply Z.pow_le_mono_r; lia).
    assert (Zpos mx < 2 ^ prec).
    { eapply Z.lt_le_trans; [apply Bx|]. apply Z.pow_le_mono_r; lia. }
    assert (2 ^ prec = 2 ^ (prec - 1) * 2 ^ 1) by reflexivity.
    nia.
  - rewrite Z.min_r by lia. rewrite Z.sub_diag. simpl (2 ^ 0). rewrite Z.mul_1_r.
    symmetry. apply Z.compare_gt_iff.
    rewrite Hnx in Bx by lia.
    assert (2 ^ 1 <= 2 ^ (ex - ey)) by (apply Z.pow_le_mono_r; lia).
    assert (Zpos my < 2 ^ prec).
    { eapply Z.lt_le_trans; [apply By|]. apply Z.pow_le_mono_r; lia. }
    assert (2 ^ prec = 2 ^ (prec - 1) * 2 ^ 1) by reflexivity.
    nia.
Qed.

(** *** Rounding keeps a positive mantissa positive *)

Lemma iter_pos_nat {A : Type} (f : A -> A) (p : positive) (x : A) :
  iter_pos f p x = Nat.iter (Pos.to_nat p) f x.
Proof.
  revert x. induction p as [p IH | p IH |]; intro x; simpl iter_pos.
  - rewrite !IH, Pos2Nat.inj_xI.
    replace (S (2 * Pos.to_nat p))%nat with (Pos.to_nat p + (Pos.to_nat p + 1))%nat by lia.
    rewrite !Nat.iter_add. reflexivity.
  - rewrite !IH, Pos2Nat.inj_xO.
    replace (2 * Pos.to_nat p)%nat with (Pos.to_nat p + Pos.to_nat p)%nat by lia.
    rewrite Nat.iter_add. reflexivity.
  - reflexivity.
Qed.

Lemma shr_1_positive (mrs : shr_record) (m : positive) :
  shr_m mrs = Zpos m -> 2 <= Zpos (digits2_pos m) ->
  exists m', shr_m (shr_1 mrs) = Zpos m'
             /\ Zpos (digits2_pos m') = Zpos (digits2_pos m) - 1.
Proof.
  destruct mrs as [m0 r s]. cbn [shr_m]. intros -> Hd.
  destruct m as [p | p |]; cbn [shr_1 shr_m digits2_pos] in *.
  - exists p. split; [reflexivity | rewrite Pos2Z.inj_succ; lia].
  - exists p. split; [reflexivity | rewrite Pos2Z.inj_succ; lia].
  - lia.
Qed.

Lemma shr_iter_positive (k : nat) :
  forall (mrs : shr_record) (m : positive),
    shr_m mrs = Zpos m -> Z.of_nat k < Zpos (digits2_pos m) ->
    exists m', shr_m (Nat.iter k shr_1 mrs) = Zpos m'
               /\ Zpos (digits2_pos m') = Zpos (digits2_pos m) - Z.of_nat k.
Proof.
  induction k as [|k IH]; intros mrs m Hm Hk.
  - exists m. simpl. split; [exact Hm | lia].
  - destruct (IH mrs m Hm) as (m1 & H1 & D1); [lia|].
    simpl Nat.iter.
    destruct (shr_1_positive _ m1 H1) as (m2 & H2 & D2); [lia|].
    exists m2. split; [exact H2 | lia].
Qed.

Lemma shr_fexp_positive (m : positive) (e : Z) (l : location) :
  SpecFloat.emin prec emax <= e ->
  exists m', shr_m (fst (shr_fexp prec emax (Zpos m) e l)) = Zpos m'
             /\ SpecFloat.emin prec emax <= snd (shr_fexp prec emax (Zpos m) e l).
Proof.
  intro He. unfold shr_fexp, shr.
  assert (Hrec : shr_m (shr_record_of_loc (Zpos m) l) = Zpos m)
    by (destruct l as [|[| |]]; reflexivity).
  simpl Zdigits2.
  destruct (fexp prec emax (Zpos (digits2_pos m) + e) - e) as [|p|p] eqn:E;
    simpl fst; simpl snd.
  - exists m. auto.
  - rewrite iter_pos_nat.
    destruct (shr_iter_positive (Pos.to_nat p) _ m Hrec) as (m' & H' & _).
    + rewrite positive_nat_Z.
      unfold fexp, SpecFloat.emin, prec, emax in *. lia.
    + exists m'. split; [exact H' | lia].
  - exists m. auto.
Qed.

Lemma round_nearest_even_positive (m : positive) (l : location) :
  exists m', round_nearest_even (Zpos m) l = Zpos m'.
Proof.
  destruct l as [|[| |]]; unfold round_nearest_even.
  - now exists m.
  - destruct (Z.even (Zpos m)); [now exists m | now exists (m + 1)%positive].
  - now exists m.
  - now exists (m + 1)%positive.
Qed.

Lemma binary_round_aux_positive (m : positive) (e : Z) (l : location) :
  SpecFloat.emin prec emax <= e ->
  positiveSF (binary_round_aux prec emax false (Zpos m) e l).
Proof.
  intro He. unfold binary_round_aux.
  destruct (shr_fexp_positive m e l He) as (m1 & H1 & E1).
  destruct (shr_fexp prec emax (Zpos m) e l) as [mrs' e'].
  simpl fst in H1; simpl snd in E1. rewrite H1.
  destruct (round_nearest_even_positive m1 (loc_of_shr_record mrs')) as [m2 ->].
  destruct (shr_fexp_positive m2 e' loc_Exact E1) as (m3 & H3 & _).
  destruct (shr_fexp prec emax (Zpos m2) e' loc_Exact) as [mrs'' e''].
  simpl fst in H3. rewrite H3.
  destruct (e'' <=? emax - prec); exact I.
Qed.

Lemma binary_round_positive (m : positive) (e : Z) :
  SpecFloat.emin prec emax <= e ->
  positiveSF (binary_round prec emax false m e).
Proof.
  intro He. unfold binary_round.
  destruct (shl_align m e (fexp prec emax (Zpos (digits2_pos m) + e)))
    as [mz ez] eqn:E.
  apply binary_round_aux_positive.
  unfold shl_align in E.
  destruct (fexp prec emax (Zpos (digits2_pos m) + e) - e) eqn:D;
    injection E as _ <-; try exact He.
  unfold fexp. lia.
Qed.

Lemma binary_round_aux_negative (m e : Z) (l : location) :
  SFltb (S754_zero false) (binary_round_aux prec emax true m e l) = false.
Proof.
  unfold binary_round_aux.
  destruct (shr_fexp prec emax m e l) as [mrs' e'].
  destruct (shr_fexp prec emax _ e' loc_Exact) as [mrs'' e''].
  destruct (shr_m mrs''); try reflexivity.
  destruct (e'' <=? emax - prec); reflexivity.
Qed.

(** The sign of a normalized integer survives rounding. *)
Lemma binary_normalize_sign (d e : Z) :
  SpecFloat.emin prec emax <= e ->
  SFltb (S754_zero false) (binary_normalize prec emax d e false) = (0 <? d).
Proof.
  intro He. destruct d as [|p|p]; simpl binary_normalize.
  - reflexivity.
  - pose proof (binary_round_positive p e He) as H.
    destruct (binary_round prec emax false p e) as [[|]|[|]| |[|] m' e']; 
      simpl in H; try contradiction; reflexivity.
  - unfold binary_round.
    destruct (shl_align p e _) as [mz ez]. apply binary_round_aux_negative.
Qed.

(** *** The order of positive numbers *)

Lemma Prim2SF_zero : Prim2SF 0%float = S754_zero false.
Proof. reflexivity. Qed.

Lemma positive_number (x : number) :
  PrimFloat.ltb 0 x = true -> positiveSF (Prim2SF x).
Proof.
  rewrite ltb_spec, Prim2SF_zero.
  destruct (Prim2SF x) as [[|]|[|]| |[|] m e]; simpl; try discriminate; auto.
Qed.

Ltac order_cases :=
  repeat match goal with
    | |- context [Z.compare ?a ?b] => destruct (Z.compare_spec a b)
    | H : context [Z.compare ?a ?b] |- _ => destruct (Z.compare_spec a b)
    | |- context [Pos.compare ?a ?b] => destruct (Pos.compare_spec a b)
    | H : context [Pos.compare ?a ?b] |- _ => destruct (Pos.compare_spec a b)
    end;
  subst; try reflexivity; try discriminate; try lia.

Lemma SFltb_asym (x y : spec_float) :
  positiveSF x -> positiveSF y -> SFltb x y = true -> SFltb y x = false.
Proof.
  destruct x as [[|]|[|]| |[|] mx ex], y as [[|]|[|]| |[|] my ey];
    simpl; try contradiction; intros _ _; try discriminate; try reflexivity.
  unfold SFltb, SFcompare.
  change (PosDef.Pos.compare_cont Eq mx my) with (Pos.compare mx my).
  change (PosDef.Pos.compare_cont Eq my mx) with (Pos.compare my mx).
  order_cases.
Qed.

Lemma SFltb_negative_transitive (x y z : spec_float) :
  positiveSF x -> positiveSF y -> positiveSF z ->
  SFltb x y = false -> SFltb y z = false -> SFltb x z = false.
Proof.
  destruct x as [[|]|[|]| |[|] mx ex], y as [[|]|[|]| |[|] my ey],
           z as [[|]|[|]| |[|] mz ez];
    simpl; try contradiction; intros _ _ _; try discriminate; try reflexivity.
  unfold SFltb, SFcompare.
  change (PosDef.Pos.compare_cont Eq mx my) with (Pos.compare mx my).
  change (PosDef.Pos.compare_cont Eq my mz) with (Pos.compare my mz).
  change (PosDef.Pos.compare_cont Eq mx mz) with (Pos.compare mx mz).
  order_cases.
Qed.

Lemma SFeqb_not_ltb (x y s : spec_float) :
  positiveSF x -> positiveSF y ->
  SFeqb x s = true -> SFeqb y s = true -> SFltb x y = false.
Proof.
  destruct x as [[|]|[|]| |[|] mx ex], y as [[|]|[|]| |[|] my ey],
           s as [[|]|[|]| |[|] ms es];
    simpl; try contradiction; intros _ _; try discriminate; try reflexivity.
  unfold SFeqb, SFltb, SFcompare.
  change (PosDef.Pos.compare_cont Eq mx ms) with (Pos.compare mx ms).
  change (PosDef.Pos.compare_cont Eq my ms) with (Pos.compare my ms).
  change (PosDef.Pos.compare_cont Eq mx my) with (Pos.compare mx my).
  order_cases.
Qed.

(** For positive numbers, [y - x] is positive exactly when [x < y]. *)
Lemma SFsub_sign (x y : spec_float) :
  SpecFloat.valid_binary prec emax x = true ->
  SpecFloat.valid_binary prec emax y = true ->
  positiveSF x -> positiveSF y ->
  SFltb (S754_zero false) (SF64sub y x) = SFltb x y.
Proof.
  destruct x as [[|]|[|]| |[|] mx ex], y as [[|]|[|]| |[|] my ey];
    simpl positiveSF; try contradiction; intros Vx Vy _ _; try reflexivity.
  simpl SpecFloat.valid_binary in Vx, Vy.
  destruct (bounded_canonical mx ex Vx) as (Hex & _).
  destruct (bounded_canonical my ey Vy) as (Hey & _).
  unfold SF64sub, SFsub. cbv zeta. unfold cond_Zopp.
  rewrite binary_normalize_sign by lia.
  unfold SFltb. rewrite (SFcompare_aligned mx my ex ey Vx Vy).
  rewrite (Z.min_comm ey ex).
  destruct (Z.compare_spec (Zpos (fst (shl_align mx ex (Z.min ex ey))))
              (Zpos (fst (shl_align my ey (Z.min ex ey))))) as [E | E | E].
  - apply Z.ltb_ge. lia.
  - apply Z.ltb_lt. lia.
  - apply Z.ltb_ge. lia.
Qed.

Lemma number_sub_sign (x y : number) :
  PrimFloat.ltb 0 x = true -> PrimFloat.ltb 0 y = true ->
  PrimFloat.ltb 0 (y - x) = PrimFloat.ltb x y.
Proof.
  intros Hx Hy. rewrite !ltb_spec, sub_spec, Prim2SF_zero.
  apply SFsub_sign; auto using Prim2SF_valid, positive_number.
Qed.

Lemma number_ltb_asym (x y : number) :
  PrimFloat.ltb 0 x = true -> PrimFloat.ltb 0 y = true ->
  PrimFloat.ltb x y = true -> PrimFloat.ltb y x = false.
Proof.
  intros Hx Hy. rewrite !ltb_spec.
  apply SFltb_asym; auto using positive_number.
Qed.

Lemma number_ltb_negative_transitive (x y z : number) :
  PrimFloat.ltb 0 x = true -> PrimFloat.ltb 0 y = true ->
  PrimFloat.ltb 0 z = true ->
  PrimFloat.ltb x y = false -> PrimFloat.ltb y z = false ->
  PrimFloat.ltb x z = false.
Proof.
  intros Hx Hy Hz. rewrite !ltb_spec.
  apply SFltb_negative_transitive; auto using positive_number.
Qed.

Lemma number_tie_not_ltb (x y s : number) :
  PrimFloat.ltb 0 x = true -> PrimFloat.ltb 0 y = true ->
  PrimFloat.eqb x s = true -> PrimFloat.eqb y s = true ->
  PrimFloat.ltb x y = false.
Proof.
  intros Hx Hy. rewrite !eqb_spec, ltb_spec.
  apply SFeqb_not_ltb; auto using positive_number.
Qed.

End FloatOrder.

(** ** [Array.prototype.sort] *)

Section SortFacts.

Variable A : Type.
Variable cmp : A -> A -> number.

Lemma sortInsert_perm (x : A) (l : list A) :
  Permutation (sortInsert cmp x l) (x :: l).
Proof.
  induction l as [|y l IH]; simpl.
  - apply Permutation_refl.
  - destruct (PrimFloat.ltb 0 (cmp x y)).
    + apply perm_trans with (y :: x :: l).
      * now apply perm_skip.
      * apply perm_swap.
    + apply Permutation_refl.
Qed.

Lemma sort_perm (l : list A) : Permutation (sort cmp l) l.
Proof.
  induction l as [|x l IH]; simpl.
  - apply perm_nil.
  - apply perm_trans with (x :: sort cmp l).
    + apply sortInsert_perm.
    + now apply perm_skip.
Qed.

(** The elements sorted, and what the comparator is on them. *)
Variable P : A -> Prop.

Hypothesis cmp_asym :
  forall x y, P x -> P y -> goesBehind A cmp x y = true -> goesBehind A cmp y x = false.

Hypothesis cmp_negative_transitive :
  forall x y z, P x -> P y -> P z ->
    goesBehind A cmp x y = false -> goesBehind A cmp y z = false -> goesBehind A cmp x z = false.

Lemma sortInsert_sorted (x : A) (l : list A) :
  P x -> Forall P l -> StronglySorted (inOrder A cmp) l ->
  StronglySorted (inOrder A cmp) (sortInsert cmp x l).
Proof.
  intros Px Pl Hs. induction Hs as [|y l Hs IH Hy]; simpl.
  - repeat constructor.
  - inversion Pl as [|? ? Py Pl']; subst.
    fold (goesBehind A cmp x y). destruct (goesBehind A cmp x y) eqn:E.
    + constructor; [now apply IH|].
      apply (Permutation_Forall (Permutation_sym (sortInsert_perm x l))).
      constructor; [now apply cmp_asym | exact Hy].
    + constructor; [now constructor|].
      constructor; [exact E|].
      rewrite Forall_forall in *. intros z Hz.
      apply (cmp_negative_transitive x y z); auto.
      now apply Hy.
Qed.

Lemma sort_sorted (l : list A) :
  Forall P l -> StronglySorted (inOrder A cmp) (sort cmp l).
Proof.
  induction l as [|x l IH]; intro Pl; simpl.
  - constructor.
  - inversion Pl as [|? ? Px Pl']; subst.
    apply sortInsert_sorted; auto.
    apply (Permutation_Forall (Permutation_sym (sort_perm l))). exact Pl'.
Qed.

(** Elements of one class that the sort never reorders among themselves
    come out in the order they went in. *)
Variable class : A -> bool.

Hypothesis class_not_reordered :
  forall x y, P x -> P y -> class x = true -> class y = true ->
    goesBehind A cmp x y = false.

Lemma sortInsert_class (x : A) (l : list A) :
  P x -> Forall P l ->
  filter class (sortInsert cmp x l) = filter class (x :: l).
Proof.
  intros Px Pl. induction l as [|y l IH]; [reflexivity|].
  inversion Pl as [|? ? Py Pl']; subst.
  simpl sortInsert. fold (goesBehind A cmp x y).
  destruct (goesBehind A cmp x y) eqn:E; [|reflexivity].
  simpl filter in *. rewrite (IH Pl').
  destruct (class x) eqn:Cx, (class y) eqn:Cy; try reflexivity.
  rewrite (class_not_reordered x y Px Py Cx Cy) in E. discriminate.
Qed.

Lemma sort_class (l : list A) :
  Forall P l -> filter class (sort cmp l) = filter class l.
Proof.
  induction l as [|x l IH]; intro Pl; [reflexivity|].
  inversion Pl as [|? ? Px Pl']; subst.
  simpl sort. rewrite sortInsert_class; auto.
  - simpl. now rewrite IH.
  - apply (Permutation_Forall (Permutation_sym (sort_perm l))). exact Pl'.
Qed.

End SortFacts.

(** ** The retriever *)

Section RetrieverFacts.

Import Chat.

Lemma scoreChunk_at (q : vector) (doc : DocumentData) (acc : list Scored)
  (i : nat) (c : jsstring) (e : vector) :
  nth_error (chunks doc) i = Some c -> nth_error (embeddings doc) i = Some e ->
  scoreChunk q doc acc i = acc ++ pairedScore q (c, e).
Proof.
  intros Hc He. unfold scoreChunk, pairedScore. rewrite Hc, He. simpl fst; simpl snd.
  destruct (0 <? len (trim c))%Z; simpl andb.
  - destruct (PrimFloat.ltb 0 (cosineSimilarity q e)); [reflexivity|].
    now rewrite app_nil_r.
  - now rewrite app_nil_r.
Qed.

Lemma scoreChunks_paired (q : vector) (doc : DocumentData) (cs : list jsstring) :
  forall (es : list vector) (pc : list jsstring) (pe : list vector)
         (acc : list Scored),
    chunks doc = pc ++ cs -> embeddings doc = pe ++ es ->
    length pc = length pe ->
    fold_left (scoreChunk q doc)
      (seq (length pc) (Nat.min (length cs) (length es))) acc
    = acc ++ flat_map (pairedScore q) (combine cs es).
Proof.
  induction cs as [|c cs IH]; intros es pc pe acc Hc He Hl.
  - simpl. now rewrite app_nil_r.
  - destruct es as [|e es].
    + simpl. now rewrite app_nil_r.
    + simpl Nat.min. simpl seq. simpl fold_left.
      rewrite (scoreChunk_at q doc acc (length pc) c e).
      * replace (S (length pc)) with (length (pc ++ [c]))
          by (rewrite length_app; simpl; lia).
        rewrite (IH es (pc ++ [c]) (pe ++ [e])).
        -- simpl. now rewrite <- app_assoc.
        -- rewrite Hc, <- app_assoc. reflexivity.
        -- rewrite He, <- app_assoc. reflexivity.
        -- rewrite !length_app. simpl. lia.
      * rewrite Hc, nth_error_app2 by lia. now rewrite Nat.sub_diag.
      * rewrite He, Hl, nth_error_app2 by lia. now rewrite Nat.sub_diag.
Qed.

Lemma scoreDocument_paired (q : vector) (acc : list Scored)
  (doc : DocumentData) :
  scoreDocument q acc doc = acc ++ pairedScores q doc.
Proof.
  unfold scoreDocument, pairedScores.
  exact (scoreChunks_paired q doc (chunks doc) (embeddings doc) [] [] acc
           eq_refl eq_refl eq_refl).
Qed.

Lemma scoreDocuments_fold (q : vector) (docs : list DocumentData) :
  forall acc,
    fold_left (scoreDocument q) docs acc = acc ++ flat_map (pairedScores q) docs.
Proof.
  induction docs as [|doc docs IH]; intro acc; simpl.
  - now rewrite app_nil_r.
  - rewrite IH, scoreDocument_paired. now rewrite <- app_assoc.
Qed.

Lemma scoreDocuments_paired (q : vector) (docs : JsMap.t DocumentData) :
  scoreDocuments q docs = flat_map (pairedScores q) (JsMap.values docs).
Proof.
  unfold scoreDocuments. now rewrite scoreDocuments_fold.
Qed.

Lemma pairedScore_positive (q : vector) (pair : jsstring * vector) :
  Forall positiveScore (pairedScore q pair).
Proof.
  unfold pairedScore.
  destruct (0 <? len (trim (fst pair)))%Z; simpl andb; [|constructor].
  destruct (PrimFloat.ltb 0 (cosineSimilarity q (snd pair))) eqn:E;
    constructor; [exact E | constructor].
Qed.

Lemma scoreDocuments_positive (q : vector) (docs : JsMap.t DocumentData) :
  Forall positiveScore (scoreDocuments q docs).
Proof.
  rewrite scoreDocuments_paired.
  apply Forall_flat_map, Forall_forall. intros doc _.
  unfold pairedScores. apply Forall_flat_map, Forall_forall. intros pair _.
  apply pairedScore_positive.
Qed.

(** On positive scores the comparator puts [a] behind [b] exactly when the
    similarity of [a] is the smaller one. *)
Lemma bySimilarity_goesBehind (a b : Scored) :
  positiveScore a -> positiveScore b ->
  goesBehind Scored bySimilarity a b
  = PrimFloat.ltb (similarity a) (similarity b).
Proof.
  intros Ha Hb. unfold goesBehind, bySimilarity.
  now apply number_sub_sign.
Qed.

Lemma slice_from_zero {X : Type} (l : list X) (k : Z) :
  (0 <= k)%Z -> slice l 0 k = firstn (Z.to_nat k) l.
Proof.
  intro Hk. unfold slice, clampIndex.
  replace (0 <? 0)%Z with false by reflexivity.
  replace (k <? 0)%Z with false by (symmetry; apply Z.ltb_ge; lia).
  rewrite (Z.min_l 0) by lia. simpl skipn. rewrite Z.sub_0_r.
  destruct (Z_le_gt_dec k (Z.of_nat (length l))) as [H | H].
  - now rewrite (Z.min_l k) by lia.
  - rewrite (Z.min_r k) by lia. rewrite Nat2Z.id.
    rewrite firstn_all. symmetry. apply firstn_all2. lia.
Qed.

Lemma flat_map_all_nil {X Y : Type} (f : X -> list Y) (l : list X) :
  (forall x, f x = []) -> flat_map f l = [].
Proof.
  intro H. induction l as [|x l IH]; simpl; [reflexivity|].
  now rewrite H, IH.
Qed.

(** An empty query vector scores nothing. *)
Lemma scoreDocuments_empty_query (docs : JsMap.t DocumentData) :
  scoreDocuments [] docs = [].
Proof.
  rewrite scoreDocuments_paired. apply flat_map_all_nil. intro doc.
  unfold pairedScores. apply flat_map_all_nil. intro pair.
  unfold pairedScore. rewrite cosineSimilarity_empty.
  replace (PrimFloat.ltb 0 0) with false by reflexivity.
  now rewrite andb_false_r.
Qed.

Lemma retrieveRelevantChunks_rank (q : vector) (docs : JsMap.t DocumentData)
  (topK : Z) :
  retrieveRelevantChunks q docs topK
  = map chunk
      (firstn (Z.to_nat (clampTopK topK))
         (sort bySimilarity (scoreDocuments q docs))).
Proof.
  assert (Hk : (0 <= clampTopK topK)%Z) by (unfold clampTopK; lia).
  unfold retrieveRelevantChunks, rank.
  destruct (JsMap.size docs =? 0)%nat eqn:Hsize.
  - apply Nat.eqb_eq in Hsize. unfold JsMap.size in Hsize.
    destruct docs; [|discriminate]. simpl.
    now rewrite firstn_nil.
  - destruct (length q =? 0)%nat eqn:Hq.
    + apply Nat.eqb_eq in Hq. destruct q; [|discriminate].
      rewrite scoreDocuments_empty_query. simpl. now rewrite firstn_nil.
    + destruct (length (scoreDocuments q docs) =? 0)%nat eqn:Hs.
      * apply Nat.eqb_eq in Hs.
        destruct (scoreDocuments q docs); [|discriminate].
        simpl. now rewrite firstn_nil.
      * now rewrite slice_from_zero.
Qed.

End RetrieverFacts.

Section RankingFacts.

Import Chat.

Lemma bySimilarity_asym (x y : Scored) :
  positiveScore x -> positiveScore y ->
  goesBehind Scored bySimilarity x y = true ->
  goesBehind Scored bySimilarity y x = false.
Proof.
  intros Hx Hy. rewrite !bySimilarity_goesBehind by assumption.
  now apply number_ltb_asym.
Qed.

Lemma bySimilarity_negative_transitive (x y z : Scored) :
  positiveScore x -> positiveScore y -> positiveScore z ->
  goesBehind Scored bySimilarity x y = false ->
  goesBehind Scored bySimilarity y z = false ->
  goesBehind Scored bySimilarity x z = false.
Proof.
  intros Hx Hy Hz. rewrite !bySimilarity_goesBehind by assumption.
  now apply number_ltb_negative_transitive.
Qed.

Lemma bySimilarity_ties (s : number) (x y : Scored) :
  positiveScore x -> positiveScore y ->
  PrimFloat.eqb (similarity x) s = true ->
  PrimFloat.eqb (similarity y) s = true ->
  goesBehind Scored bySimilarity x y = false.
Proof.
  intros Hx Hy. rewrite bySimilarity_goesBehind by assumption.
  now apply number_tie_not_ltb.
Qed.

Lemma inOrder_descending (l : list Scored) :
  Forall positiveScore l ->
  StronglySorted (inOrder Scored bySimilarity) l -> descending l.
Proof.
  intros Hp Hs. induction Hs as [|x l Hs IH Hx].
  - constructor.
  - inversion Hp as [|? ? Px Pl]; subst.
    constructor; [now apply IH|].
    rewrite Forall_forall in *. intros y Hy.
    rewrite <- bySimilarity_goesBehind; auto.
    now apply Hx.
Qed.

Lemma sorted_scores_descending (l : list Scored) :
  Forall positiveScore l -> descending (sort bySimilarity l).
Proof.
  intro Hp. apply inOrder_descending.
  - apply (Permutation_Forall (Permutation_sym (sort_perm Scored bySimilarity l))).
    exact Hp.
  - apply (sort_sorted Scored bySimilarity positiveScore
             bySimilarity_asym bySimilarity_negative_transitive l Hp).
Qed.

Lemma sorted_scores_stable (l : list Scored) (s : number) :
  Forall positiveScore l ->
  filter (fun a => PrimFloat.eqb (similarity a) s) (sort bySimilarity l)
  = filter (fun a => PrimFloat.eqb (similarity a) s) l.
Proof.
  intro Hp.
  apply (sort_class Scored bySimilarity positiveScore
           (fun a => PrimFloat.eqb (similarity a) s)); [|exact Hp].
  intros x y Px Py Cx Cy. now apply (bySimilarity_ties s).
Qed.

End RankingFacts.

(** C6. The scores [retrieveRelevantChunks] ranks are those of the chunks
    paired with their embeddings up to the common prefix of the two arrays
    of each document, in insertion order, without the pairs of non-positive
    similarity.  The ranked list is a rearrangement of the scores in which
    no score is followed by a greater one and scores of equal similarity
    keep their insertion order; the result is the texts of its first
    [max(1, min(topK, 10))] elements, and it is empty when no pair scores.
    Scores 0.9, 0.1, 0.5 with [topK = 2] give the first text, then the
    third. *)
Theorem retrieveRelevantChunks_ranking (q : vector)
  (docs : JsMap.t DocumentData) (topK : Z) :
  Chat.scoreDocuments q docs = flat_map (pairedScores q) (JsMap.values docs)
  /\ Forall positiveScore (Chat.scoreDocuments q docs)
  /\ Permutation (sort Chat.bySimilarity (Chat.scoreDocuments q docs))
       (Chat.scoreDocuments q docs)
  /\ descending (sort Chat.bySimilarity (Chat.scoreDocuments q docs))
  /\ (forall s,
        filter (fun a => PrimFloat.eqb (Chat.similarity a) s)
          (sort Chat.bySimilarity (Chat.scoreDocuments q docs))
        = filter (fun a => PrimFloat.eqb (Chat.similarity a) s)
            (Chat.scoreDocuments q docs))
  /\ Chat.retrieveRelevantChunks q docs topK
     = map Chat.chunk
         (firstn (Z.to_nat (Chat.clampTopK topK))
            (sort Chat.bySimilarity (Chat.scoreDocuments q docs)))
  /\ (1 <= Chat.clampTopK topK <= 10)%Z
  /\ (Chat.scoreDocuments q docs = [] ->
      Chat.retrieveRelevantChunks q docs topK = [])
  /\ (forall a b c,
        Chat.rank
          [Chat.mkScored a 0x1.ccccccccccccdp-1%float;
           Chat.mkScored b 0x1.999999999999ap-4%float;
           Chat.mkScored c 0x1p-1%float] 2
        = [a; c]).
Proof.
  pose proof (scoreDocuments_positive q docs) as Hp.
  split; [apply scoreDocuments_paired|].
  split; [exact Hp|].
  split; [apply sort_perm|].
  split; [now apply sorted_scores_descending|].
  split; [intro s; now apply sorted_scores_stable|].
  split; [apply retrieveRelevantChunks_rank|].
  split; [unfold Chat.clampTopK; lia|].
  split.
  - intro Hnil. rewrite retrieveRelevantChunks_rank, Hnil. simpl.
    now rewrite firstn_nil.
  - intros a b c. reflexivity.
Qed.

Lemma retrieveRelevantChunks_ranking_witness :
  Chat.scoreDocuments [1%float; 0%float] JsMap.empty = []
  /\ Chat.retrieveRelevantChunks [1%float; 0%float] JsMap.empty 3 = [].
Proof.
  assert (H : Chat.scoreDocuments [1%float; 0%float] JsMap.empty = [])
    by reflexivity.
  split; [exact H|].
  exact (proj1 (proj2 (proj2 (proj2 (proj2 (proj2 (proj2 (proj2
           (retrieveRelevantChunks_ranking [1%float; 0%float] JsMap.empty 3))))))))
           H).
Defined.

(** The retriever on stored vectors: against the query [1, 0] the chunks
    score 0.6, 1, 0 and 0.8; the chunk at similarity 0 is dropped, the
    fourth embedded chunk has no text and the fifth text has no vector. *)
Example retrieveRelevantChunks_example :
  let doc :=
    mkDocumentData (lit "f1") (lit "a.pdf")
      [lit "alpha"; lit " beta "; lit "gamma"; lit "delta"; lit "epsilon"]
      [[3%float; 4%float]; [1%float; 0%float]; [0%float; 1%float];
       [4%float; 3%float]]
      0 in
  Chat.retrieveRelevantChunks [1%float; 0%float] [(lit "f1", doc)] 2
  = [lit "beta"; lit "delta"]
  /\ Chat.retrieveRelevantChunks [1%float; 0%float] [(lit "f1", doc)] 0
     = [lit "beta"]
  /\ Chat.retrieveRelevantChunks [1%float; 0%float] [(lit "f1", doc)] 50
     = [lit "beta"; lit "delta"; lit "alpha"].
Proof. vm_compute. repeat split; reflexivity. Qed.

(** ** Running computations *)

Section MonadFacts.

Lemma returns_ret {A : Type} (a : A) (w : World) (Q : A -> World -> Prop) :
  Q a w -> returns (ret a) w Q.
Proof. intro H. exists a, w. auto. Qed.

Lemma returns_bind {A B : Type} (m : M A) (k : A -> M B) (w : World)
  (Q : B -> World -> Prop) :
  returns m w (fun a w1 => returns (k a) w1 Q) -> returns (bind m k) w Q.
Proof.
  intros (a & w1 & Hm & b & w2 & Hk & HQ).
  exists b, w2. unfold bind. rewrite Hm. auto.
Qed.

Lemma returns_tryCatch {A : Type} (m : M A) (h : jsstring -> M A) (w : World)
  (Q : A -> World -> Prop) :
  returns m w Q -> returns (tryCatch m h) w Q.
Proof.
  intros (a & w1 & Hm & HQ). exists a, w1. unfold tryCatch. rewrite Hm. auto.
Qed.

Lemma bind_returned {A B : Type} (m : M A) (k : A -> M B) (w w1 : World)
  (a : A) (r : Outcome B * World) :
  m w = (Returned a, w1) -> k a w1 = r -> bind m k w = r.
Proof. intros Hm Hk. unfold bind. now rewrite Hm. Qed.

Lemma bind_thrown {A B : Type} (m : M A) (k : A -> M B) (w w1 : World)
  (e : jsstring) :
  m w = (Thrown e, w1) -> bind m k w = (Thrown e, w1).
Proof. intro Hm. unfold bind. now rewrite Hm. Qed.

Lemma tryCatch_returned {A : Type} (m : M A) (h : jsstring -> M A)
  (w w1 : World) (a : A) :
  m w = (Returned a, w1) -> tryCatch m h w = (Returned a, w1).
Proof. intro Hm. unfold tryCatch. now rewrite Hm. Qed.

Lemma tryCatch_thrown {A : Type} (m : M A) (h : jsstring -> M A)
  (w w1 : World) (e : jsstring) :
  m w = (Thrown e, w1) -> tryCatch m h w = h e w1.
Proof. intro Hm. unfold tryCatch. now rewrite Hm. Qed.

Lemma tryCatch_bind_returned {A B : Type} (m : M A) (k : A -> M B)
  (h : jsstring -> M B) (w w1 : World) (a : A) :
  m w = (Returned a, w1) ->
  tryCatch (bind m k) h w = tryCatch (k a) h w1.
Proof. intro Hm. unfold tryCatch, bind. now rewrite Hm. Qed.

Lemma returns_eq {A : Type} (m m' : M A) (w w1 : World)
  (Q : A -> World -> Prop) :
  m w = m' w1 -> returns m' w1 Q -> returns m w Q.
Proof.
  intros Heq (a & w2 & Hm & HQ). exists a, w2. rewrite Heq. auto.
Qed.

Lemma returns_weaken {A : Type} (m : M A) (w : World)
  (Q Q' : A -> World -> Prop) :
  (forall a w', Q a w' -> Q' a w') -> returns m w Q -> returns m w Q'.
Proof.
  intros H (a & w1 & Hm & HQ). exists a, w1. auto.
Qed.

Lemma sameStores_refl (w : World) : sameStores w w.
Proof. repeat split. Qed.

Lemma sameStores_trans (w1 w2 w3 : World) :
  sameStores w1 w2 -> sameStores w2 w3 -> sameStores w1 w3.
Proof.
  intros (A1 & B1 & C1) (A2 & B2 & C2). repeat split; congruence.
Qed.

End MonadFacts.

(** ** Embedding generation *)

Section EmbeddingFacts.

Import ProcessDocument.

Variable E : Env.

Lemma randomVector_spec (n : nat) :
  forall w,
    returns (randomVector E n) w
      (fun v w' => length v = n /\ sameStores w w' /\ nothingSent w w').
Proof.
  induction n as [|n IH]; intro w; cbn [randomVector].
  - apply returns_ret. repeat split.
  - apply returns_bind. eexists _, _. split; [reflexivity|].
    apply returns_bind.
    eapply returns_weaken; [|apply IH].
    intros v w' (Hl & Hs & Hn). apply returns_ret.
    cbn [length]. split; [now rewrite Hl|]. split.
    + destruct Hs as (A & B & C). repeat split; assumption.
    + exact Hn.
Qed.

Lemma generateSingleDummyEmbedding_spec (w : World) :
  returns (generateSingleDummyEmbedding E) w
    (fun v w' => dummyVector v /\ sameStores w w' /\ nothingSent w w').
Proof. exact (randomVector_spec 1536 w). Qed.

Opaque generateSingleDummyEmbedding.

Lemma dummyEmbeddingsLoop_spec (n : nat) :
  forall w,
    returns (dummyEmbeddingsLoop E n) w
      (fun vs w' =>
         length vs = n /\ Forall dummyVector vs
         /\ sameStores w w' /\ nothingSent w w').
Proof.
  induction n as [|n IH]; intro w; cbn [dummyEmbeddingsLoop].
  - apply returns_ret. repeat split. constructor.
  - apply returns_bind.
    eapply returns_weaken; [|apply generateSingleDummyEmbedding_spec].
    intros v w1 (Hv & Hs1 & Hn1). apply returns_bind.
    eapply returns_weaken; [|apply IH].
    intros vs w2 (Hl & Hall & Hs2 & Hn2). apply returns_ret.
    cbn [length]. split; [now rewrite Hl|]. split; [now constructor|]. split.
    + now apply (sameStores_trans w w1 w2).
    + unfold nothingSent in *. congruence.
Qed.

Lemma generateDummyEmbeddings_spec (count : Z) (w : World) :
  returns (generateDummyEmbeddings E count) w
    (fun vs w' =>
       length vs = Z.to_nat (Z.max 1 (Z.min count 100))
       /\ Forall dummyVector vs /\ sameStores w w' /\ nothingSent w w').
Proof.
  exact (dummyEmbeddingsLoop_spec (Z.to_nat (Z.max 1 (Z.min count 100))) w).
Qed.

(** One text, one more vector, whatever the endpoint answers. *)
Lemma embedText_spec (allEmbeddings : list vector) (text : jsstring)
  (w : World) :
  returns (embedText E allEmbeddings text) w
    (fun all' w' =>
       length all' = S (length allEmbeddings) /\ sameStores w w').
Proof.
  set (w1 := mkWorld (documentStore w) (sessionMetaStore w) (uploads w)
               (randomCalls w) (uuidCalls w) (embeddingRequests w ++ [text])).
  assert (Hs1 : sameStores w w1) by (repeat split).
  assert (Hdummy :
    returns (bind (generateSingleDummyEmbedding E)
               (fun v => ret (allEmbeddings ++ [v]))) w1
      (fun all' w' => length all' = S (length allEmbeddings) /\ sameStores w w')).
  { apply returns_bind.
    eapply returns_weaken; [|apply generateSingleDummyEmbedding_spec].
    intros v w2 (_ & Hs2 & _). apply returns_ret. split.
    - rewrite length_app. simpl. lia.
    - now apply (sameStores_trans w w1 w2). }
  unfold embedText.
  match goal with
  | |- returns (tryCatch (bind _ ?k) ?h) _ _ => set (K := k); set (H := h)
  end.
  destruct (embeddingService E text) as [| code | | | e] eqn:Hreply.
  - assert (Hf : fetchEmbedding E text w = (Thrown (lit "fetch failed"), w1))
      by (unfold fetchEmbedding; rewrite Hreply; reflexivity).
    eapply returns_eq; [|exact Hdummy].
    rewrite (tryCatch_thrown _ H w w1 _ (bind_thrown _ K w w1 _ Hf)).
    reflexivity.
  - assert (Hf : fetchEmbedding E text w = (Returned (HttpError code), w1))
      by (unfold fetchEmbedding; rewrite Hreply; reflexivity).
    eapply returns_eq; [|exact Hdummy].
    rewrite (tryCatch_bind_returned _ K H w w1 _ Hf).
    destruct Hdummy as (all' & w2 & Hrun & _).
    rewrite Hrun. exact (tryCatch_returned _ H w1 w2 all' Hrun).
  - assert (Hf : fetchEmbedding E text w = (Returned MalformedBody, w1))
      by (unfold fetchEmbedding; rewrite Hreply; reflexivity).
    eapply returns_eq; [|exact Hdummy].
    rewrite (tryCatch_bind_returned _ K H w w1 _ Hf).
    reflexivity.
  - assert (Hf : fetchEmbedding E text w = (Returned NoEmbedding, w1))
      by (unfold fetchEmbedding; rewrite Hreply; reflexivity).
    eapply returns_eq; [|exact Hdummy].
    rewrite (tryCatch_bind_returned _ K H w w1 _ Hf).
    destruct Hdummy as (all' & w2 & Hrun & _).
    rewrite Hrun. exact (tryCatch_returned _ H w1 w2 all' Hrun).
  - assert (Hf : fetchEmbedding E text w = (Returned (Embedding e), w1))
      by (unfold fetchEmbedding; rewrite Hreply; reflexivity).
    exists (allEmbeddings ++ [e]), w1. split.
    + rewrite (tryCatch_bind_returned _ K H w w1 _ Hf). reflexivity.
    + split; [rewrite length_app; simpl; lia | exact Hs1].
Qed.

Lemma embedBatch_spec (batch : list jsstring) :
  forall allEmbeddings w,
    returns (embedBatch E batch allEmbeddings) w
      (fun all' w' =>
         length all' = (length allEmbeddings + length batch)%nat
         /\ sameStores w w').
Proof.
  induction batch as [|text batch IH]; intros allEmbeddings w;
    cbn [embedBatch length].
  - apply returns_ret. split; [lia | apply sameStores_refl].
  - apply returns_bind.
    eapply returns_weaken; [|apply embedText_spec].
    intros all1 w1 (Hl1 & Hs1).
    eapply returns_weaken; [|apply IH].
    intros all2 w2 (Hl2 & Hs2). split; [lia|].
    now apply (sameStores_trans w w1 w2).
Qed.

Lemma slice_length {X : Type} (l : list X) (i j : nat) :
  (i <= j)%nat ->
  length (slice l (Z.of_nat i) (Z.of_nat j))
  = (Nat.min j (length l) - Nat.min i (length l))%nat.
Proof.
  intro H. unfold slice, clampIndex.
  replace (Z.of_nat i <? 0)%Z with false by (symmetry; apply Z.ltb_ge; lia).
  replace (Z.of_nat j <? 0)%Z with false by (symmetry; apply Z.ltb_ge; lia).
  rewrite length_firstn, length_skipn. lia.
Qed.

Lemma embedBatches_spec (limitedTexts : list jsstring) (m : nat) :
  forall a allEmbeddings w,
    returns
      (embedBatches E (map (fun k => k * batchSize)%nat (seq a m))
         limitedTexts allEmbeddings) w
      (fun all' w' =>
         length all'
         = (length allEmbeddings
            + (Nat.min ((a + m) * 3) (length limitedTexts)
               - Nat.min (a * 3) (length limitedTexts)))%nat
         /\ sameStores w w').
Proof.
  induction m as [|m IH]; intros a allEmbeddings w;
    cbn [seq map embedBatches].
  - apply returns_ret. split; [|apply sameStores_refl].
    rewrite Nat.add_0_r. lia.
  - apply returns_bind.
    eapply returns_weaken; [|apply embedBatch_spec].
    intros all1 w1 (Hl1 & Hs1).
    eapply returns_weaken; [|apply IH].
    intros all2 w2 (Hl2 & Hs2). split.
    + rewrite Hl2, Hl1. unfold batchSize.
      rewrite slice_length by lia. lia.
    + now apply (sameStores_trans w w1 w2).
Qed.

Lemma embedAll_spec (limitedTexts : list jsstring) (w : World) :
  returns
    (embedBatches E (batchStarts (length limitedTexts)) limitedTexts []) w
    (fun all' w' => length all' = length limitedTexts /\ sameStores w w').
Proof.
  unfold batchStarts.
  eapply returns_weaken; [|apply embedBatches_spec].
  intros all' w' (Hl & Hs). split; [|exact Hs].
  rewrite Hl. simpl length. unfold batchSize.
  pose proof (Nat.div_mod_eq (length limitedTexts + 3 - 1) 3) as Hd.
  pose proof (Nat.mod_upper_bound (length limitedTexts + 3 - 1) 3) as Hm.
  lia.
Qed.

(** [generateEmbeddings] returns, with one vector for each text that passes
    validation among the first 50, and with one vector when none passes.
    Without a credential nothing is sent and every vector is a stand-in. *)
Lemma generateEmbeddings_spec (texts : list jsstring) (w : World) :
  returns (generateEmbeddings E texts) w
    (fun vs w' =>
       length vs
       = Nat.max 1 (Nat.min 50 (length (validateAndCleanChunks texts)))
       /\ sameStores w w'
       /\ (hasApiKey E = false ->
           nothingSent w w' /\ Forall dummyVector vs)).
Proof.
  unfold generateEmbeddings. apply returns_tryCatch.
  destruct (length (validateAndCleanChunks texts) =? 0)%nat eqn:Hz.
  - apply Nat.eqb_eq in Hz. rewrite Hz.
    eapply returns_weaken; [|apply generateDummyEmbeddings_spec].
    intros vs w' (Hl & Hall & Hs & Hn). split; [rewrite Hl; reflexivity|].
    auto.
  - apply Nat.eqb_neq in Hz.
    assert (Hlim : length (slice (validateAndCleanChunks texts) 0 50)
                   = Nat.min 50 (length (validateAndCleanChunks texts))).
    { pose proof (slice_length (validateAndCleanChunks texts) 0 50) as H.
      change (Z.of_nat 0) with 0%Z in H. change (Z.of_nat 50) with 50%Z in H.
      rewrite H by lia. lia. }
    destruct (hasApiKey E) eqn:Hkey; simpl negb; cbv iota.
    + eapply returns_weaken; [|apply embedAll_spec].
      intros vs w' (Hl & Hs). split; [rewrite Hl, Hlim; lia|].
      split; [exact Hs | discriminate].
    + eapply returns_weaken; [|apply generateDummyEmbeddings_spec].
      intros vs w' (Hl & Hall & Hs & Hn). split; [rewrite Hl, Hlim; lia|].
      auto.
Qed.

End EmbeddingFacts.

(** ** Validation of the chunks *)

Section ValidationFacts.

Import ProcessDocument.

Lemma existsb_str_eqb (x : jsstring) (l : list jsstring) :
  existsb (str_eqb x) l = true <-> In x l.
Proof.
  rewrite existsb_exists. split.
  - intros (y & Hy & He). apply str_eqb_eq in He. now subst.
  - intro H. exists x. split; [exact H | apply str_eqb_refl].
Qed.

Lemma indexOfFrom_skip (x : jsstring) (pre : list jsstring) :
  forall l i, ~ In x pre ->
    indexOfFrom x (pre ++ l) i = indexOfFrom x l (i + Z.of_nat (length pre))%Z.
Proof.
  induction pre as [|y pre IH]; intros l i Hn; simpl.
  - f_equal. lia.
  - destruct (str_eqb y x) eqn:E.
    + apply str_eqb_eq in E. subst. exfalso. apply Hn. now left.
    + rewrite IH by (intro H; apply Hn; now right). f_equal. lia.
Qed.

Lemma indexOfFrom_found (x : jsstring) (pre : list jsstring) :
  forall l i, In x pre ->
    (i <= indexOfFrom x (pre ++ l) i < i + Z.of_nat (length pre))%Z.
Proof.
  induction pre as [|y pre IH]; intros l i Hin; simpl in *.
  - contradiction.
  - destruct (str_eqb y x) eqn:E; [lia|].
    destruct Hin as [-> | Hin]; [rewrite str_eqb_refl in E; discriminate|].
    specialize (IH l (i + 1)%Z Hin). lia.
Qed.

Lemma filterFrom_keepNew (rest : list jsstring) :
  forall seen,
    filterFrom (fun x i => (indexOf (seen ++ rest) x =? i)%Z) rest
      (Z.of_nat (length seen))
    = keepNew seen rest.
Proof.
  induction rest as [|x rest IH]; intro seen; [reflexivity|].
  cbn [filterFrom keepNew].
  replace (seen ++ x :: rest) with ((seen ++ [x]) ++ rest)
    by (rewrite <- app_assoc; reflexivity).
  replace (Z.of_nat (length seen) + 1)%Z with (Z.of_nat (length (seen ++ [x])))
    by (rewrite length_app; simpl; lia).
  rewrite IH.
  replace ((seen ++ [x]) ++ rest) with (seen ++ x :: rest)
    by (rewrite <- app_assoc; reflexivity).
  unfold indexOf.
  destruct (existsb (str_eqb x) seen) eqn:Ex.
  - apply existsb_str_eqb in Ex.
    pose proof (indexOfFrom_found x seen (x :: rest) 0 Ex) as Hi.
    replace (indexOfFrom x (seen ++ x :: rest) 0 =? Z.of_nat (length seen))%Z
      with false by (symmetry; apply Z.eqb_neq; lia).
    reflexivity.
  - assert (Hn : ~ In x seen).
    { intro H. apply existsb_str_eqb in H. congruence. }
    rewrite (indexOfFrom_skip x seen (x :: rest) 0 Hn). simpl indexOfFrom.
    rewrite str_eqb_refl. now rewrite Z.eqb_refl.
Qed.

Lemma keepNew_length (rest : list jsstring) :
  forall seen, (length (keepNew seen rest) <= length rest)%nat.
Proof.
  induction rest as [|x rest IH]; intro seen; simpl; [lia|].
  specialize (IH (seen ++ [x])).
  destruct (existsb (str_eqb x) seen); simpl; lia.
Qed.

Lemma keepNew_all (rest : list jsstring) :
  forall seen,
    length (keepNew seen rest) = length rest <->
    NoDup rest /\ (forall x, In x rest -> ~ In x seen).
Proof.
  induction rest as [|x rest IH]; intro seen; simpl.
  - split; [intros _; split; [constructor | intros x []] | reflexivity].
  - specialize (IH (seen ++ [x])).
    pose proof (keepNew_length rest (seen ++ [x])) as Hle.
    destruct (existsb (str_eqb x) seen) eqn:Ex.
    + split; [lia|]. intros (_ & Hout).
      apply existsb_str_eqb in Ex. exfalso. apply (Hout x); auto.
    + assert (Hn : ~ In x seen).
      { intro H. apply existsb_str_eqb in H. congruence. }
      simpl. split.
      * intro Hl. injection Hl as Hl. apply IH in Hl as (Hnd & Hout).
        split.
        -- constructor; [|exact Hnd].
           intro Hin. apply (Hout x Hin). apply in_or_app. right. now left.
        -- intros y [<- | Hy]; [exact Hn|].
           intro Hs. apply (Hout y Hy). apply in_or_app. now left.
      * intros (Hnd & Hout). f_equal. apply IH.
        inversion Hnd as [|? ? Hx Hnd']; subst. split; [exact Hnd'|].
        intros y Hy Hin. apply in_app_or in Hin as [Hs | [<- | []]].
        -- apply (Hout y); auto.
        -- contradiction.
Qed.

(** [validateAndCleanChunks] in the spec's words: the texts of at least
    three code units after trimming, trimmed, each kept at its first
    occurrence. *)
Lemma validateAndCleanChunks_keepNew (chunks : list jsstring) :
  validateAndCleanChunks chunks
  = keepNew []
      (map trim (filter (fun chunk => (3 <=? len (trim chunk))%Z) chunks)).
Proof.
  unfold validateAndCleanChunks, filterIndexed.
  exact (filterFrom_keepNew _ []).
Qed.

Lemma filter_length_all {X : Type} (f : X -> bool) (l : list X) :
  length (filter f l) = length l <-> Forall (fun x => f x = true) l.
Proof.
  induction l as [|x l IH]; simpl.
  - split; [constructor | reflexivity].
  - pose proof (filter_length_le f l) as Hle.
    destruct (f x) eqn:E; simpl.
    + split.
      * intro H. injection H as H. constructor; [exact E | now apply IH].
      * intro H. inversion H; subst. f_equal. now apply IH.
    + split; [lia|]. intro H. inversion H; subst. congruence.
Qed.

Lemma map_trim_solid (l : list jsstring) :
  Forall solidChunk l -> map trim l = l.
Proof.
  induction 1 as [|x l [_ Hx] _ IH]; simpl; [reflexivity|].
  now rewrite Hx, IH.
Qed.

Lemma validateAndCleanChunks_length (chunks : list jsstring) :
  (length (validateAndCleanChunks chunks) <= length chunks)%nat.
Proof.
  rewrite validateAndCleanChunks_keepNew.
  pose proof (keepNew_length
                (map trim (filter (fun c => (3 <=? len (trim c))%Z) chunks)) [])
    as H1.
  rewrite length_map in H1.
  pose proof (filter_length_le (fun c => (3 <=? len (trim c))%Z) chunks). lia.
Qed.

(** On trimmed chunks validation keeps every chunk exactly when the chunks
    are pairwise different and each has three code units or more. *)
Lemma validateAndCleanChunks_keeps_all (chunks : list jsstring) :
  Forall solidChunk chunks ->
  (length (validateAndCleanChunks chunks) = length chunks <->
   NoDup chunks /\ Forall (fun c => (3 <= len c)%Z) chunks).
Proof.
  intro Hsolid. rewrite validateAndCleanChunks_keepNew.
  set (f := fun c => (3 <=? len (trim c))%Z).
  pose proof (keepNew_length (map trim (filter f chunks)) []) as H1.
  rewrite length_map in H1.
  pose proof (filter_length_le f chunks) as H2.
  assert (Hf : Forall (fun c => f c = true) chunks
               <-> Forall (fun c => (3 <= len c)%Z) chunks).
  { rewrite !Forall_forall. split; intros H c Hc; specialize (H c Hc);
      pose proof (proj1 (Forall_forall _ _) Hsolid c Hc) as [_ Ht];
      unfold f in *; rewrite Ht in *; lia. }
  split.
  - intro Hl.
    assert (Hall : length (filter f chunks) = length chunks) by lia.
    apply filter_length_all in Hall as Hall'.
    assert (Hfc : filter f chunks = chunks).
    { apply forallb_filter_id. apply forallb_forall.
      now apply Forall_forall. }
    rewrite Hfc, (map_trim_solid chunks Hsolid) in Hl.
    apply keepNew_all in Hl as [Hnd _]. split; [exact Hnd | now apply Hf].
  - intros (Hnd & H3). apply Hf in H3.
    assert (Hfc : filter f chunks = chunks).
    { apply forallb_filter_id. apply forallb_forall.
      now apply Forall_forall. }
    rewrite Hfc, (map_trim_solid chunks Hsolid).
    apply keepNew_all. split; [exact Hnd | intros x _ []].
Qed.

End ValidationFacts.

(** ** The processing handler *)

Section ProcessingFacts.

Import ProcessDocument.

Variable E : Env.

Lemma extractTextFromPDF_spec (filepath : jsstring) (w : World) :
  (exists t,
      pdfText E filepath = Some t /\ (10 <= len (trim t))%Z
      /\ extractTextFromPDF E filepath w = (Returned (trim t), w))
  \/ extractTextFromPDF E filepath w = (Thrown extractionFailed, w).
Proof.
  unfold extractTextFromPDF, tryCatch.
  destruct (pdfText E filepath) as [t|]; [|right; reflexivity].
  destruct (len (trim t) <? 10)%Z eqn:Hl; [right; reflexivity|].
  left. exists t. apply Z.ltb_ge in Hl. auto.
Qed.

Lemma storeDocument_spec (key : jsstring) (doc : DocumentData) (w : World) :
  storeDocument key doc w
  = (Returned tt,
     setDocumentStore w (Some (JsMap.set (storeOf w) key (DocumentEntry doc)))).
Proof.
  unfold storeDocument, bind, getDocumentStore, getWorld, putWorld, storeOf.
  destruct (documentStore w); reflexivity.
Qed.

Lemma POST_outcome (request : option Body) (w : World) :
  returns (POST E request) w
    (fun response w' =>
       (refused w response w' \/ stored E request w response w')
       /\ sessionMetaStore w' = sessionMetaStore w
       /\ uploads w' = uploads w).
Proof.
  destruct request as [b|].
  2:{ exists (jsonStatus 500
                (errorDetails (lit "Failed to process document")
                   (lit "Unexpected end of JSON input"))), w.
      split; [reflexivity|]. split; [|auto].
      left. split; [discriminate | reflexivity]. }
  unfold POST. apply returns_tryCatch.
  destruct (negb (truthy (body_fileId b)) || negb (truthy (body_filename b))
            || negb (truthy (body_filepath b))
            || negb (truthy (body_fileType b))).
  { apply returns_ret. split; [|auto].
    left. split; [discriminate | reflexivity]. }
  destruct (negb (str_eqb (body_fileType b) (lit "application/pdf"))).
  { apply returns_ret. split; [|auto].
    left. split; [discriminate | reflexivity]. }
  apply returns_bind.
  destruct (extractTextFromPDF_spec (body_filepath b) w)
    as [(t & Ht & Hlen & Hrun) | Hrun].
  - exists (trim t, None), w. split.
    { apply tryCatch_returned.
      exact (bind_returned _ _ w w (trim t) _ Hrun eq_refl). }
    cbv beta iota.
    assert (Hne : trim t <> []).
    { intro H0. rewrite H0 in Hlen. unfold len in Hlen. simpl in Hlen. lia. }
    assert (Htruthy : truthy (trim t) = true)
      by (destruct (trim t); [congruence | reflexivity]).
    rewrite Htruthy, trim_idempotent.
    replace (len (trim t) <? 10)%Z with false
      by (symmetry; apply Z.ltb_ge; exact Hlen).
    cbn [negb orb]. cbv zeta.
    assert (Hne2 : trim (trim t) <> []) by (rewrite trim_idempotent; exact Hne).
    destruct (@chunkText_run (trim t) Hne2) as (cs & _ & Hcs & Hn & _).
    replace (length (chunkText (trim t)) =? 0)%nat with false
      by (symmetry; apply Nat.eqb_neq; rewrite Hcs, Hn; discriminate).
    apply returns_bind. apply returns_tryCatch. apply returns_bind.
    eapply returns_weaken; [|apply generateEmbeddings_spec].
    intros vs w1 (Hl & (Hd & Hm & Hu) & _). apply returns_ret.
    apply returns_bind. apply returns_tryCatch. apply returns_bind.
    eexists tt, _. split; [apply storeDocument_spec|].
    apply returns_ret. apply returns_ret.
    split; [|split; [exact Hm | exact Hu]].
    right. exists b, t, vs.
    split; [reflexivity|]. split; [exact Ht|]. split; [reflexivity|].
    split; [|split; [exact Hl | exact Hne]].
    unfold storeOf. simpl documentStore. now rewrite Hd.
  - exists ([], Some extractionFailed), w. split.
    { rewrite (tryCatch_thrown _ _ w w extractionFailed
                 (bind_thrown _ _ w w _ Hrun)).
      reflexivity. }
    cbv beta iota. cbn [truthy negb orb].
    apply returns_ret. split; [|auto].
    left. split; [discriminate | reflexivity].
Qed.

End ProcessingFacts.

(** C3, as the code has it.  [generateEmbeddings] returns on every input
    and in every state; it returns one vector for each text that passes
    validation among the first 50 such texts, and one vector when no text
    passes, so never more than [max(1, texts.length)]; without a credential
    it sends nothing to the embedding endpoint and every vector it returns
    has 1536 components. *)
Theorem generateEmbeddings_returns (E : Env) (texts : list jsstring)
  (w : World) :
  exists vs w',
    ProcessDocument.generateEmbeddings E texts w = (Returned vs, w')
    /\ length vs
       = Nat.max 1
           (Nat.min 50 (length (ProcessDocument.validateAndCleanChunks texts)))
    /\ (length vs <= Nat.max 1 (length texts))%nat
    /\ (hasApiKey E = false ->
        embeddingRequests w' = embeddingRequests w
        /\ Forall (fun v => length v = 1536%nat) vs).
Proof.
  destruct (generateEmbeddings_spec E texts w) as (vs & w' & Hrun & Hl & _ & Hk).
  exists vs, w'. split; [exact Hrun|]. split; [exact Hl|]. split.
  - pose proof (validateAndCleanChunks_length texts). lia.
  - exact Hk.
Qed.

Lemma generateEmbeddings_returns_witness :
  hasApiKey (demoEnv None demoText) = false
  /\ exists vs w',
       ProcessDocument.generateEmbeddings (demoEnv None demoText)
         [lit "alpha"; lit "beta"] freshWorld = (Returned vs, w')
       /\ embeddingRequests w' = []
       /\ Forall (fun v => length v = 1536%nat) vs.
Proof.
  assert (H : hasApiKey (demoEnv None demoText) = false) by reflexivity.
  split; [exact H|].
  destruct (generateEmbeddings_returns (demoEnv None demoText)
              [lit "alpha"; lit "beta"] freshWorld)
    as (vs & w' & Hrun & _ & _ & Hk).
  destruct (Hk H) as [Hsent Hall].
  exists vs, w'. auto.
Defined.

(** C3 as stated fails on the code: without a credential the two texts [a]
    and [b] are both dropped by validation, and one vector comes back for
    the two of them. *)
Lemma generateEmbeddings_two_short_texts :
  hasApiKey (demoEnv None demoText) = false
  /\ exists v w',
       ProcessDocument.generateEmbeddings (demoEnv None demoText)
         [lit "a"; lit "b"] freshWorld = (Returned [v], w')
       /\ length v = 1536%nat
       /\ embeddingRequests w' = [].
Proof.
  split; [reflexivity|].
  eexists _, _. split; [vm_compute; reflexivity|].
  split; vm_compute; reflexivity.
Qed.

(** C2, as the code has it.  A request to the processing route either
    leaves the document store as it found it or puts one document under the
    file id.  The document holds every chunk [chunkText] returned, at least
    one and at most 50, and one vector for each chunk that passes validation
    (one vector when none passes): never more vectors than chunks, and as
    many vectors as chunks exactly when the chunks are pairwise different
    and each has at least three code units. *)
Theorem processing_stores_all_chunks (E : Env)
  (request : option ProcessDocument.Body) (w : World) :
  exists response w',
    ProcessDocument.POST E request w = (Returned response, w')
    /\ (documentStore w' = documentStore w
        \/ exists key doc,
             documentStore w'
             = Some (JsMap.set (storeOf w) key (DocumentEntry doc))
             /\ chunks doc <> []
             /\ (length (chunks doc) <= 50)%nat
             /\ length (embeddings doc)
                = Nat.max 1
                    (length
                       (ProcessDocument.validateAndCleanChunks (chunks doc)))
             /\ (length (embeddings doc) <= length (chunks doc))%nat
             /\ (length (embeddings doc) = length (chunks doc) <->
                 NoDup (chunks doc)
                 /\ Forall (fun c => (3 <= len c)%Z) (chunks doc))).
Proof.
  destruct (POST_outcome E request w)
    as (response & w' & Hrun & [[_ Hsame] | Hstored] & _).
  - exists response, w'. split; [exact Hrun | now left].
  - destruct Hstored as (b & t & vs & _ & _ & _ & Hstore & Hl & Hne).
    exists response, w'. split; [exact Hrun|]. right.
    eexists _, _. split; [exact Hstore|]. cbn [chunks embeddings].
    assert (Hne2 : trim (trim t) <> []) by (rewrite trim_idempotent; exact Hne).
    destruct (@chunkText_run (trim t) Hne2) as (cs & _ & Hcs & Hn & Hsolid).
    rewrite Hcs in *.
    pose proof (validateAndCleanChunks_length cs) as Hv.
    pose proof (validateAndCleanChunks_keeps_all cs Hsolid) as Hall.
    split; [destruct cs; [discriminate | discriminate]|].
    split; [lia|]. split; [lia|]. split; [lia|].
    rewrite <- Hall. split; intro H; lia.
Qed.

(** C2 as stated fails on the code: for the PDF whose text is the spec's
    sample sentence the route stores 50 chunks beside a single vector. *)
Lemma processing_stores_chunks_without_vectors :
  exists response w',
    ProcessDocument.POST (demoEnv None demoText) (Some demoBody) freshWorld
    = (Returned response, w')
    /\ status response = 200%Z
    /\ storedLengths w' (lit "f1") = Some (50%nat, 1%nat).
Proof.
  eexists _, _. split; [vm_compute; reflexivity|].
  split; vm_compute; reflexivity.
Qed.

(** ** The chat handler after the processing handler *)

Section ChatFacts.

Variable E : Env.

Lemma get_set {V : Type} (m : JsMap.t V) (k key : jsstring) (v : V) :
  JsMap.get (JsMap.set m k v) key
  = if str_eqb k key then Some v else JsMap.get m key.
Proof.
  induction m as [|[k' v'] m IH]; simpl.
  - reflexivity.
  - destruct (str_eqb k' k) eqn:Ek; simpl.
    + apply str_eqb_eq in Ek. subst k'.
      destruct (str_eqb k key); reflexivity.
    + rewrite IH. destruct (str_eqb k' key) eqn:Ekey; [|reflexivity].
      apply str_eqb_eq in Ekey. subst k'. apply str_eqb_neq in Ek.
      replace (str_eqb k key) with false; [reflexivity|].
      symmetry. apply str_eqb_neq. congruence.
Qed.

Lemma onlyDocuments_fresh : onlyDocuments freshWorld.
Proof. intros key v H. discriminate. Qed.

(** The processing route keeps the store free of session maps. *)
Lemma POST_onlyDocuments (request : option ProcessDocument.Body) (w : World) :
  onlyDocuments w -> onlyDocuments (snd (ProcessDocument.POST E request w)).
Proof.
  intro Hw.
  destruct (POST_outcome E request w)
    as (response & w' & Hrun & [[_ Hsame] | Hstored] & _);
    rewrite Hrun; simpl snd.
  - unfold onlyDocuments, storeOf in *. now rewrite Hsame.
  - destruct Hstored as (b & t & vs & _ & _ & _ & Hstore & _).
    intros key v. unfold storeOf at 1. rewrite Hstore, get_set.
    destruct (str_eqb (ProcessDocument.body_fileId b) key).
    + intro H. injection H as <-. eexists. reflexivity.
    + apply Hw.
Qed.

Lemma processAll_onlyDocuments
  (requests : list (option ProcessDocument.Body)) :
  forall w, onlyDocuments w -> onlyDocuments (processAll E requests w).
Proof.
  induction requests as [|request requests IH]; intros w Hw; simpl.
  - exact Hw.
  - apply IH. now apply POST_onlyDocuments.
Qed.

Lemma sessionDocuments_none (store : JsMap.t StoreValue)
  (session : option jsstring) :
  (forall key v,
      JsMap.get store key = Some v -> exists doc, v = DocumentEntry doc) ->
  Chat.sessionDocuments store session = None.
Proof.
  intro H. unfold Chat.sessionDocuments.
  destruct session as [id|]; [|reflexivity].
  destruct (truthy id && JsMap.has store id); [|reflexivity].
  destruct (JsMap.get store id) as [v|] eqn:Hg; [|reflexivity].
  destruct (H id v Hg) as [doc ->]. reflexivity.
Qed.

(** With only documents in the store the chat route forwards the messages
    it received. *)
Lemma processMessages_unchanged (msgs : list Chat.Message) (rag : bool)
  (session : option jsstring) (w : World) :
  onlyDocuments w ->
  exists w', Chat.processMessages E msgs rag session w = (Returned msgs, w').
Proof.
  intro Hw. unfold Chat.processMessages.
  destruct rag; [|eexists; reflexivity].
  unfold tryCatch, bind, getDocumentStore.
  unfold onlyDocuments, storeOf in Hw.
  destruct (documentStore w) as [store|].
  - rewrite (sessionDocuments_none store session Hw). eexists. reflexivity.
  - rewrite (sessionDocuments_none JsMap.empty session Hw).
    eexists. reflexivity.
Qed.

End ChatFacts.

(** C1, what the code does instead.  After any sequence of requests to the
    processing route, started in a fresh process, the chat route answers
    every request either with an error of its own or by forwarding exactly
    the messages it received: no context message is inserted, whatever the
    session cookie and whatever [useRAG]. *)
Theorem chat_forwards_messages_unchanged (E : Env)
  (requests : list (option ProcessDocument.Body))
  (chatRequest : Chat.Request) :
  exists result w',
    Chat.POST E chatRequest (processAll E requests freshWorld)
    = (Returned result, w')
    /\ match result with
       | Chat.Forwarded processedMessages =>
           Chat.messages chatRequest = Some processedMessages
       | Chat.Rejected response => status response <> 200%Z
       end.
Proof.
  pose proof (processAll_onlyDocuments E requests freshWorld
                onlyDocuments_fresh) as Hw.
  unfold Chat.POST.
  destruct (negb (hasApiKey E)).
  - eexists _, _. split; [reflexivity|]. discriminate.
  - destruct (Chat.messages chatRequest) as [msgs|].
    + destruct (processMessages_unchanged E msgs (Chat.useRAG chatRequest)
                  (Chat.sessionId chatRequest) _ Hw) as [w' Hrun].
      exists (Chat.Forwarded msgs), w'. split; [|reflexivity].
      unfold bind. now rewrite Hrun.
    + eexists _, _. split; [reflexivity|]. discriminate.
Qed.

(** The document of session [s1] is processed, then session [s1] asks with
    [useRAG] set: the message goes out alone. *)
Example chat_after_processing :
  let E := demoEnv (Some (lit "key")) demoText in
  let w := processAll E [Some demoBody] freshWorld in
  let question := Chat.mkMessage (lit "user") (lit "Hello world") in
  storedLengths w (lit "f1") = Some (50%nat, 1%nat)
  /\ JsMap.has (storeOf w) (lit "s1") = false
  /\ fst (Chat.POST E (Chat.mkRequest (Some [question]) true (Some (lit "s1"))) w)
     = Returned (Chat.Forwarded [question]).
Proof. vm_compute. repeat split; reflexivity. Qed.

(** What the chat route does once a map of documents sits under the
    session id: the context message goes in before the last message. *)
Example chat_with_session_documents :
  let E := demoEnv (Some (lit "key")) demoText in
  let doc :=
    mkDocumentData (lit "f1") (lit "a.pdf") [lit "alpha"; lit "beta"]
      [repeat 1%float 1536; repeat 2%float 1536] 0 in
  let w :=
    mkWorld (Some [(lit "s1", SessionEntry [(lit "f1", doc)])])
      None None 0 0 [] in
  let question := Chat.mkMessage (lit "user") (lit "Hello world") in
  fst (Chat.POST E (Chat.mkRequest (Some [question]) true (Some (lit "s1"))) w)
  = Returned
      (Chat.Forwarded
         [Chat.contextMessage [lit "alpha"; lit "beta"]; question]).
Proof. vm_compute. reflexivity. Qed.

(** ** The idle sweep *)

Section CleanupFacts.

Variable E : Env.

Lemma filter_filter {X : Type} (f g : X -> bool) (l : list X) :
  filter f (filter g l) = filter (fun x => g x && f x) l.
Proof.
  induction l as [|x l IH]; simpl; [reflexivity|].
  destruct (g x); simpl; [destruct (f x)|]; now rewrite IH.
Qed.

Lemma filter_true {X : Type} (l : list X) : filter (fun _ => true) l = l.
Proof. induction l as [|x l IH]; simpl; [reflexivity | now rewrite IH]. Qed.

(** The unlink loop over a listing: the count, and the directory without
    the names unlinked. *)
Lemma unlinkOwned_spec (sessionId : jsstring) (files : list jsstring) :
  forall (current : list jsstring) (deleted : nat) (w : World),
    uploads w = Some current ->
    Cleanup.unlinkOwned sessionId files deleted w
    = (Returned (deleted + length (filter (ownedBy sessionId) files))%nat,
       setUploads w
         (Some (filter
                  (fun f =>
                     negb (existsb (str_eqb f)
                             (filter (ownedBy sessionId) files)))
                  current))).
Proof.
  induction files as [|file files IH]; intros current deleted w Hu.
  - destruct w as [ds sm up rc uc er]. simpl in Hu. subst up.
    unfold Cleanup.unlinkOwned, ret, setUploads. simpl.
    now rewrite filter_true, Nat.add_0_r.
  - cbn [Cleanup.unlinkOwned filter]. fold (ownedBy sessionId file).
    destruct (ownedBy sessionId file) eqn:Hown.
    + unfold bind, Fs.unlink. rewrite Hu.
      rewrite (IH (filter (fun f => negb (str_eqb f file)) current)
                 (S deleted)) by reflexivity.
      f_equal; [f_equal; simpl; lia|].
      unfold setUploads. simpl. f_equal. f_equal.
      rewrite filter_filter. apply filter_ext. intro f.
      simpl. now rewrite negb_orb.
    + now apply IH.
Qed.

Lemma existsb_owned (sessionId : jsstring) (files : list jsstring)
  (f : jsstring) :
  In f files ->
  existsb (str_eqb f) (filter (ownedBy sessionId) files) = ownedBy sessionId f.
Proof.
  intro Hin. destruct (ownedBy sessionId f) eqn:Hown.
  - apply existsb_exists. exists f. split; [|apply str_eqb_refl].
    apply filter_In. auto.
  - apply not_true_is_false. intro H. apply existsb_exists in H as (g & Hg & He).
    apply str_eqb_eq in He. subst g. apply filter_In in Hg as [_ Hg]. congruence.
Qed.

Lemma unlinkOwned_listing (sessionId : jsstring) (files : list jsstring)
  (w : World) :
  uploads w = Some files ->
  Cleanup.unlinkOwned sessionId files 0 w
  = (Returned (length (filter (ownedBy sessionId) files)),
     setUploads w (Some (withoutOwned sessionId files))).
Proof.
  intro Hu. rewrite (unlinkOwned_spec sessionId files files 0 w Hu).
  f_equal. unfold withoutOwned. f_equal. f_equal.
  apply filter_ext_in. intros f Hf. now rewrite existsb_owned.
Qed.

Lemma sweepSession_spec (idleMs : Z) (cleaned : nat)
  (entry : jsstring * SessionMeta) (w : World) :
  Cleanup.sweepSession E idleMs cleaned entry w
  = if idle E idleMs (snd entry)
    then (Returned (S cleaned), reclaim (fst entry) w)
    else (Returned cleaned, w).
Proof.
  destruct entry as [sessionId meta]. unfold Cleanup.sweepSession, idle.
  simpl fst; simpl snd.
  destruct (idleMs <? now E - lastActivity meta)%Z; [|reflexivity].
  destruct w as [ds sm up rc uc er].
  destruct up as [files|].
  - unfold bind at 1. unfold tryCatch, bind at 1, Fs.readdir. simpl uploads.
    unfold bind at 1.
    rewrite (unlinkOwned_listing sessionId files
               (mkWorld ds sm (Some files) rc uc er) eq_refl).
    reflexivity.
  - reflexivity.
Qed.

Lemma sweepSessions_spec (idleMs : Z) (entries : list (jsstring * SessionMeta)) :
  forall (cleaned : nat) (w : World),
    Cleanup.sweepSessions E idleMs entries cleaned w
    = (Returned (cleaned + length (idleSessions E idleMs entries))%nat,
       fold_left (fun w' id => reclaim id w') (idleSessions E idleMs entries) w).
Proof.
  induction entries as [|entry entries IH]; intros cleaned w.
  - simpl. now rewrite Nat.add_0_r.
  - cbn [Cleanup.sweepSessions]. unfold bind.
    rewrite sweepSession_spec. unfold idleSessions in *. cbn [filter].
    destruct (idle E idleMs (snd entry)); rewrite IH; cbn [map length fold_left].
    + f_equal. f_equal. lia.
    + reflexivity.
Qed.

Lemma cleanupIdleSessions_spec (idleMs : Z) (w : World) :
  Cleanup.cleanupIdleSessions E idleMs w
  = (Returned (length (idleSessions E idleMs (JsMap.entries (activityOf w)))),
     swept E idleMs w).
Proof.
  unfold Cleanup.cleanupIdleSessions, bind, getWorld.
  rewrite sweepSessions_spec. reflexivity.
Qed.

(** *** The state after reclaiming a list of sessions *)

Lemma get_delete {V : Type} (m : JsMap.t V) (k key : jsstring) :
  JsMap.get (JsMap.delete m k) key
  = if str_eqb k key then None else JsMap.get m key.
Proof.
  induction m as [|[k' v'] m IH]; simpl.
  - now destruct (str_eqb k key).
  - destruct (str_eqb k' k) eqn:Ek; simpl.
    + rewrite IH. apply str_eqb_eq in Ek. subst k'.
      now destruct (str_eqb k key).
    + rewrite IH. destruct (str_eqb k' key) eqn:Ekey; [|reflexivity].
      apply str_eqb_eq in Ekey. subst k'. apply str_eqb_neq in Ek.
      replace (str_eqb k key) with false; [reflexivity|].
      symmetry. apply str_eqb_neq. congruence.
Qed.


End CleanupFacts.

Section OwnershipFacts.






End OwnershipFacts.



Example idle_sweep_example :
  Cleanup.cleanupIdleSessions sweepEnv Cleanup.defaultIdleMs sweepWorld
  = (Returned 1%nat,
     mkWorld (Some [(lit "new", SessionEntry [])])
       (Some [(lit "new", mkSessionMeta 8200000)])
       (Some [lit "new__f2.pdf"]) 0 0 []).
Proof. vm_compute. reflexivity. Qed.


(** C10. Without a session cookie the cleanup route runs the idle sweep,
    then answers with status 400 and the body
    [{success: false, error: "No sessionId found in cookies.", idleCleaned}]
    in which [idleCleaned] is the count the sweep returned; the state left
    behind is the state the sweep left. *)
Theorem cleanup_without_cookie (E : Env) (ensureDirectory : bool) (w : World) :
  exists idleCleaned w',
    Cleanup.cleanupIdleSessions E Cleanup.defaultIdleMs w
    = (Returned idleCleaned, w')
    /\ Cleanup.POST E ensureDirectory None w
       = (Returned
            (mkResponse 400
               (JObj
                  [("success"%string, JBool false);
                   ("error"%string,
                     JStr (lit "No sessionId found in cookies."));
                   ("idleCleaned"%string, JInt (Z.of_nat idleCleaned))])),
          w').
Proof.
  eexists _, _. split; [apply cleanupIdleSessions_spec|].
  unfold Cleanup.POST, bind. rewrite cleanupIdleSessions_spec. reflexivity.
Qed.

Example cleanup_without_cookie_example :
  fst (Cleanup.POST sweepEnv false None sweepWorld)
  = Returned
      (mkResponse 400
         (JObj
            [("success"%string, JBool false);
             ("error"%string, JStr (lit "No sessionId found in cookies."));
             ("idleCleaned"%string, JInt 1)]))
  /\ filesOf (snd (Cleanup.POST sweepEnv false None sweepWorld))
     = [lit "new__f2.pdf"].
Proof. vm_compute. split; reflexivity. Qed.

(** ** The upload routes *)

Section UploadFacts.

Variable E : Env.

(** The request to the processing route ends, one way or the other, and
    leaves the uploads directory alone. *)
Lemma processDocument_spec (b : ProcessDocument.Body) (w : World) :
  exists outcome w',
    UploadCommon.processDocument E b w = (outcome, w')
    /\ uploads w' = uploads w.
Proof.
  unfold UploadCommon.processDocument.
  destruct (internalServiceUp E); [|eexists _, _; split; reflexivity].
  destruct (POST_outcome E (Some b) w) as (response & w' & Hrun & _ & _ & Hu).
  unfold bind. rewrite Hrun.
  destruct ((200 <=? status response)%Z && (status response <? 300)%Z);
    eexists _, _; split; try reflexivity; exact Hu.
Qed.

Lemma respond_spec (fileId : jsstring) (file : UploadCommon.File)
  (b : ProcessDocument.Body) (w : World) :
  returns (UploadCommon.respond E fileId file b) w
    (fun response w' => status response = 200%Z /\ uploads w' = uploads w).
Proof.
  unfold UploadCommon.respond.
  destruct (processDocument_spec b w) as ([chunks | message] & w' & Hrun & Hu).
  - eexists _, w'. split.
    + apply tryCatch_returned.
      exact (bind_returned _ _ w w' chunks _ Hrun eq_refl).
    + split; [reflexivity | exact Hu].
  - eexists _, w'. split.
    + rewrite (tryCatch_thrown _ _ w w' message
                 (bind_thrown _ _ w w' message Hrun)).
      reflexivity.
    + split; [reflexivity | exact Hu].
Qed.



Lemma UploadPlain_POST_spec (file : option UploadCommon.File) (w : World) :
  returns (UploadPlain.POST E file) w
    (fun response w' =>
       match UploadCommon.validate file, file with
       | None, Some f =>
           status response = 200%Z
           /\ filesOf w'
              = written
                  (UploadPlain.storedName (uuid E (uuidCalls w))
                     (Fs.extname (UploadCommon.name f)))
                  (filesOf w)
       | _, _ => status response = 400%Z /\ uploads w' = uploads w
       end).
Proof.
  unfold UploadPlain.POST.
  destruct (UploadCommon.validate file) as [refusal|] eqn:Hv.
  - apply returns_ret. split; [|reflexivity].
    unfold UploadCommon.validate in Hv.
    destruct file as [f|]; [|injection Hv as <-; reflexivity].
    destruct (UploadCommon.MAX_FILE_SIZE <? UploadCommon.size f)%Z;
      [injection Hv as <-; reflexivity|].
    destruct (negb (existsb (str_eqb (UploadCommon.type f))
                      UploadCommon.ALLOWED_TYPES));
      [injection Hv as <-; reflexivity | discriminate].
  - destruct file as [f|]; [|discriminate Hv].
    destruct w as [ds sm up rc uc er]. unfold filesOf, written.
    simpl uuidCalls. simpl uploads.
    destruct up as [files|].
    + apply returns_bind. eexists tt, _. split; [reflexivity|].
      apply returns_bind. eexists _, _. split; [reflexivity|].
      apply returns_bind. eexists None, _. split; [reflexivity|].
      cbv beta iota.
      eapply returns_weaken; [|apply respond_spec].
      intros response w5 (Hst & Hu5).
      split; [exact Hst|]. rewrite Hu5. reflexivity.
    + apply returns_bind. eexists tt, _. split; [reflexivity|].
      apply returns_bind. eexists _, _. split; [reflexivity|].
      apply returns_bind. eexists None, _. split; [reflexivity|].
      cbv beta iota.
      eapply returns_weaken; [|apply respond_spec].
      intros response w5 (Hst & Hu5).
      split; [exact Hst|]. rewrite Hu5. reflexivity.
Qed.



End UploadFacts.



Example upload_example :
  snd (Upload.POST (demoEnv None demoText)
         (Upload.mkRequest None (Some demoFile)) freshWorld)
  = mkWorld
      (Some [(lit "id-1",
              DocumentEntry
                (mkDocumentData (lit "id-1") (lit "a.pdf")
                   (repeat demoText 50) [repeat 0x1p-1%float 1536] 0))])
      None (Some [lit "id-0__id-1.pdf"]) 1536 2 [].
Proof. vm_compute. reflexivity. Qed.


(* ===================================================================== *)
(** * Part IV: further properties of the routes *)
(* ===================================================================== *)

(** ** The chunker in closed form *)

Section WindowFacts.

Import ProcessDocument.

Lemma firstn_of_repeat {X : Type} (x : X) (n : nat) :
  forall m, firstn n (repeat x m) = repeat x (Nat.min n m).
Proof.
  induction n as [|n IH]; intros [|m]; simpl; try reflexivity.
  now rewrite IH.
Qed.

Lemma firstn_app_repeat {X : Type} (l : list X) (x : X) (n m : nat) :
  (length l <= n)%nat -> (n - length l <= m)%nat ->
  firstn n (l ++ repeat x m) = l ++ repeat x (n - length l).
Proof.
  intros Hl Hm. rewrite firstn_app, firstn_all2 by lia. f_equal.
  rewrite firstn_of_repeat. f_equal. lia.
Qed.

Lemma innerWindows_spec (n : nat) :
  (0 < n)%nat ->
  (forall j, (j < innerWindows n)%nat -> (800 * j + 1000 < n)%nat)
  /\ (n <= 800 * innerWindows n + 1000)%nat
  /\ (800 * innerWindows n < n)%nat.
Proof.
  intro Hn. unfold innerWindows.
  destruct (n <=? 1000)%nat eqn:E.
  - apply Nat.leb_le in E. repeat split; try lia.
  - apply Nat.leb_gt in E.
    pose proof (Nat.div_mod_eq (n - 1001) 800) as Hd.
    pose proof (Nat.mod_upper_bound (n - 1001) 800) as Hm.
    repeat split; lia.
Qed.

Variable clean : jsstring.
Hypothesis clean_solid : endsSolid clean.

Lemma clean_length_pos : (0 < length clean)%nat.
Proof.
  pose proof (endsSolid_nonempty clean_solid) as Hne.
  destruct clean; [congruence | simpl; lia].
Qed.

(** A window that reaches past the end of the text is cut at the end. *)
Lemma slice_past_end (a b : Z) :
  (len clean <= b)%Z -> slice clean a b = slice clean a (len clean).
Proof.
  intro Hb. unfold slice, clampIndex, len in *.
  pose proof clean_length_pos as Hp.
  replace (b <? 0)%Z with false by (symmetry; apply Z.ltb_ge; lia).
  replace (Z.of_nat (length clean) <? 0)%Z with false
    by (symmetry; apply Z.ltb_ge; lia).
  now rewrite Z.min_id, (Z.min_r b) by lia.
Qed.

Lemma chunkStep_window (j : nat) (chunks : list jsstring) :
  (800 * Z.of_nat j + 1000 < len clean)%Z ->
  chunkStep clean 1000 200 (800 * Z.of_nat j) chunks
  = ((800 * Z.of_nat (S j))%Z, chunks ++ filter nonBlank [window clean j]).
Proof.
  intro Hs. unfold chunkStep.
  replace (Z.min (800 * Z.of_nat j + 1000) (len clean))
    with (800 * Z.of_nat j + 1000)%Z by lia.
  fold (window clean j). f_equal; [lia|].
  cbn [filter]. unfold nonBlank.
  destruct (0 <? len (window clean j))%Z; [reflexivity|].
  now rewrite app_nil_r.
Qed.

Lemma chunkStep_last_window (j : nat) (chunks : list jsstring) :
  (800 * Z.of_nat j < len clean)%Z ->
  (len clean <= 800 * Z.of_nat j + 1000)%Z ->
  chunkStep clean 1000 200 (800 * Z.of_nat j) chunks
  = ((len clean - 200)%Z, chunks ++ [window clean j])
  /\ nonBlank (window clean j) = true.
Proof.
  intros Hs He.
  destruct (@chunkStep_at_end clean clean_solid (800 * Z.of_nat j)%Z chunks
              Hs He) as (c & Hstep & Hc & [Hne _] & _).
  assert (Hw : c = window clean j).
  { rewrite Hc. unfold window. now rewrite (slice_past_end _ _ He). }
  subst c. rewrite Hw in *. split; [exact Hstep|].
  unfold nonBlank. now apply len_pos_iff.
Qed.

Lemma chunkStep_tail (chunks : list jsstring) :
  chunkStep clean 1000 200 (len clean - 200) chunks
  = ((len clean - 200)%Z, chunks ++ [tailChunk clean]).
Proof.
  pose proof clean_length_pos as Hp.
  destruct (@chunkStep_at_end clean clean_solid (len clean - 200)%Z chunks)
    as (c & Hstep & Hc & _); [unfold len; lia | lia |].
  rewrite Hstep, Hc. reflexivity.
Qed.

(** Once a window has reached the end, the loop pushes the tail chunk until
    the count stops it. *)
Lemma chunkLoop_tail (fuel : nat) :
  forall chunks cs,
    (length chunks <= 50)%nat ->
    chunkLoop fuel clean 1000 200 50 (len clean - 200) chunks = Some cs ->
    cs = firstn 50 (chunks ++ repeat (tailChunk clean) 50).
Proof.
  pose proof clean_length_pos as Hp.
  assert (Hlt : (len clean - 200 <? len clean)%Z = true)
    by (apply Z.ltb_lt; lia).
  induction fuel as [|fuel IH]; intros chunks cs Hl Hrun;
    rewrite chunkLoop_unfold, Hlt in Hrun; cbn [andb] in Hrun;
    destruct (length chunks <? 50)%nat eqn:Hc; try discriminate.
  - apply Nat.ltb_ge in Hc. injection Hrun as <-.
    rewrite firstn_app_repeat by lia.
    replace (50 - length chunks)%nat with 0%nat by lia.
    now rewrite app_nil_r.
  - apply Nat.ltb_lt in Hc. rewrite chunkStep_tail in Hrun.
    cbn [fst snd] in Hrun. apply IH in Hrun.
    + rewrite Hrun, <- app_assoc. cbn [app].
      change (tailChunk clean :: repeat (tailChunk clean) 50)
        with (repeat (tailChunk clean) 51).
      rewrite !firstn_app_repeat by lia. reflexivity.
    + rewrite length_app. simpl. lia.
  - apply Nat.ltb_ge in Hc. injection Hrun as <-.
    rewrite firstn_app_repeat by lia.
    replace (50 - length chunks)%nat with 0%nat by lia.
    now rewrite app_nil_r.
Qed.

(** The loop from the [j]-th window on. *)
Lemma chunkLoop_windows (fuel : nat) :
  forall j chunks cs,
    (j <= innerWindows (length clean))%nat ->
    (length chunks <= 50)%nat ->
    chunkLoop fuel clean 1000 200 50 (800 * Z.of_nat j) chunks = Some cs ->
    cs = firstn 50
           (chunks
            ++ filter nonBlank
                 (map (window clean)
                    (seq j (S (innerWindows (length clean)) - j)))
            ++ repeat (tailChunk clean) 50).
Proof.
  pose proof clean_length_pos as Hp.
  destruct (innerWindows_spec (length clean) Hp) as (Hin & Hend & Hlast).
  set (n := innerWindows (length clean)) in *.
  assert (Hstop : forall chunks (rest : list jsstring),
             (50 <= length chunks)%nat -> (length chunks <= 50)%nat ->
             chunks = firstn 50 (chunks ++ rest)).
  { intros chunks rest H1 H2. rewrite firstn_app, firstn_all2 by lia.
    replace (50 - length chunks)%nat with 0%nat by lia.
    simpl. now rewrite app_nil_r. }
  induction fuel as [|fuel IH]; intros j chunks cs Hj Hl Hrun;
    rewrite chunkLoop_unfold in Hrun;
    (assert (Hs : (800 * Z.of_nat j < len clean)%Z);
       [unfold len; destruct (Nat.eq_dec j n) as [-> | Hne];
          [lia | specialize (Hin j ltac:(lia)); lia]|]);
    apply Z.ltb_lt in Hs as Hs'; rewrite Hs' in Hrun; cbn [andb] in Hrun;
    destruct (length chunks <? 50)%nat eqn:Hc; try discriminate.
  - apply Nat.ltb_ge in Hc. injection Hrun as <-. now apply Hstop.
  - apply Nat.ltb_lt in Hc.
    destruct (Nat.eq_dec j n) as [-> | Hne].
    + destruct (chunkStep_last_window n chunks Hs) as [Hstep Hnb];
        [unfold len; lia|].
      rewrite Hstep in Hrun. cbn [fst snd] in Hrun.
      apply chunkLoop_tail in Hrun; [|rewrite length_app; simpl; lia].
      rewrite Hrun. replace (S n - n)%nat with 1%nat by lia.
      cbn [seq map filter]. rewrite Hnb, <- app_assoc. reflexivity.
    + assert (Hlt : (j < n)%nat) by lia.
      rewrite chunkStep_window in Hrun
        by (specialize (Hin j Hlt); unfold len; lia).
      cbn [fst snd] in Hrun.
      apply IH in Hrun; [|lia|].
      * rewrite Hrun. replace (S n - j)%nat with (S (S n - S j)) by lia.
        cbn [seq map filter].
        destruct (nonBlank (window clean j)); cbn [app];
          rewrite <- ?app_assoc; reflexivity.
      * cbn [filter]. destruct (nonBlank (window clean j));
          rewrite length_app; simpl; lia.
  - apply Nat.ltb_ge in Hc. injection Hrun as <-. now apply Hstop.
Qed.

End WindowFacts.

Section SubstringFacts.

Lemma trim_substring (s : jsstring) : isSubstringOf (trim s) s.
Proof.
  unfold trim. destruct (trimStart_suffix s) as [p Hp].
  destruct (trimEnd_prefix (trimStart s)) as [q Hq].
  exists p, q. now rewrite <- Hq.
Qed.

Lemma trim_length (s : jsstring) : (length (trim s) <= length s)%nat.
Proof.
  destruct (trim_substring s) as (p & q & H).
  apply (f_equal (@length ascii)) in H. rewrite !length_app in H. lia.
Qed.

Lemma slice_substring (s : jsstring) (a b : Z) : isSubstringOf (slice s a b) s.
Proof.
  unfold slice.
  set (from := Z.to_nat (clampIndex (Z.of_nat (length s)) a)).
  set (k := Z.to_nat (clampIndex (Z.of_nat (length s)) b
                      - clampIndex (Z.of_nat (length s)) a)).
  exists (firstn from s), (skipn k (skipn from s)).
  now rewrite firstn_skipn, firstn_skipn.
Qed.

Lemma substring_trans (a b c : jsstring) :
  isSubstringOf a b -> isSubstringOf b c -> isSubstringOf a c.
Proof.
  intros (p & q & ->) (p' & q' & ->).
  exists (p' ++ p), (q ++ q'). now rewrite <- !app_assoc.
Qed.

(** A window of [chunkSize] code units that starts at most [overlap]
    before the text holds at most [chunkSize] code units. *)
Lemma slice_window_length (s : jsstring) (start : Z) :
  (-200 <= start)%Z ->
  (length (slice s start (Z.min (start + 1000) (len s))) <= 1000)%nat.
Proof.
  intro Hs. unfold slice, clampIndex, len.
  set (n := Z.of_nat (length s)).
  assert (Hn : (0 <= n)%Z) by (unfold n; lia).
  rewrite length_firstn.
  replace (Z.min (start + 1000) n <? 0)%Z with false
    by (symmetry; apply Z.ltb_ge; lia).
  destruct (start <? 0)%Z eqn:E.
  - apply Z.ltb_lt in E. lia.
  - apply Z.ltb_ge in E. lia.
Qed.

End SubstringFacts.

Section ChunkBounds.

Lemma In_firstn {X : Type} (x : X) (n : nat) (l : list X) :
  In x (firstn n l) -> In x l.
Proof.
  intro H. rewrite <- (firstn_skipn n l). apply in_or_app. now left.
Qed.

Lemma slice_length_le (s : jsstring) (a b : Z) :
  (0 <= a <= b)%Z -> (length (slice s a b) <= Z.to_nat (b - a))%nat.
Proof.
  intros [Ha Hb]. unfold slice, clampIndex.
  replace (a <? 0)%Z with false by (symmetry; apply Z.ltb_ge; lia).
  replace (b <? 0)%Z with false by (symmetry; apply Z.ltb_ge; lia).
  rewrite length_firstn. lia.
Qed.

Lemma window_bounded (clean : jsstring) (k : nat) :
  (length (window clean k) <= 1000)%nat /\ isSubstringOf (window clean k) clean.
Proof.
  unfold window. split.
  - pose proof (trim_length
                  (slice clean (800 * Z.of_nat k) (800 * Z.of_nat k + 1000))).
    pose proof (slice_length_le clean (800 * Z.of_nat k)
                  (800 * Z.of_nat k + 1000)). lia.
  - eapply substring_trans; [apply trim_substring | apply slice_substring].
Qed.

Lemma tailChunk_bounded (clean : jsstring) :
  (length (tailChunk clean) <= 1000)%nat
  /\ isSubstringOf (tailChunk clean) clean.
Proof.
  unfold tailChunk. split.
  - pose proof (trim_length (slice clean (len clean - 200) (len clean))).
    pose proof (slice_window_length clean (len clean - 200)) as Hw.
    replace (Z.min (len clean - 200 + 1000) (len clean)) with (len clean)
      in Hw by lia.
    unfold len in *. lia.
  - eapply substring_trans; [apply trim_substring | apply slice_substring].
Qed.

(** On a text that is not blank [chunkText] returns the chunks of the
    closed form. *)
Lemma chunkText_windows (text : jsstring) :
  trim text <> [] ->
  ProcessDocument.chunkText text = windowChunks (trim text).
Proof.
  intro Hne.
  pose proof (@trim_nonempty_solid text Hne) as Hsolid.
  destruct (@chunkText_run text Hne) as (cs & Hrun & -> & _).
  specialize (Hrun (ProcessDocument.defaultTurns text) (Nat.le_refl _)).
  unfold ProcessDocument.chunkTextWithin in Hrun.
  replace (len (trim text) =? 0)%Z with false in Hrun.
  - change 0%Z with (800 * Z.of_nat 0)%Z in Hrun.
    apply (chunkLoop_windows (trim text) Hsolid) in Hrun;
      [|lia | simpl; lia].
    rewrite Hrun, Nat.sub_0_r. reflexivity.
  - symmetry. apply Z.eqb_neq. unfold len.
    destruct (trim text); [congruence | simpl; lia].
Qed.

Lemma windowChunks_bounded (clean : jsstring) :
  Forall (fun c => (length c <= 1000)%nat /\ isSubstringOf c clean)
    (windowChunks clean).
Proof.
  apply Forall_forall. intros c Hc. unfold windowChunks in Hc.
  apply In_firstn in Hc. apply in_app_or in Hc as [Hc | Hc].
  - apply filter_In in Hc as [Hc _]. apply in_map_iff in Hc as (k & <- & _).
    apply window_bounded.
  - apply repeat_spec in Hc. subst c. apply tailChunk_bounded.
Qed.

End ChunkBounds.

(** X1. [chunkText] in closed form.  A text that is blank after trimming
    gives no chunk.  Any other text gives the trimmed windows of 1000 code
    units taken every 800 code units of the trimmed text, up to the first
    window that reaches its end and without the windows that are blank,
    followed by copies of the trimmed slice from [length - 200] to the end
    (the last 200 code units of a text that has that many); the list is cut
    at 50 chunks, so text beyond the 50th window is in no chunk. *)
Theorem chunkText_closed_form (text : jsstring) :
  ProcessDocument.chunkText text
  = if nonBlank (trim text) then windowChunks (trim text) else [].
Proof.
  destruct (trim text) as [|c0 t0] eqn:E.
  - destruct (@chunkText_blank text E) as [-> _]. reflexivity.
  - rewrite <- E.
    assert (Hne : trim text <> []) by (rewrite E; discriminate).
    replace (nonBlank (trim text)) with true
      by (symmetry; unfold nonBlank; now apply len_pos_iff).
    now apply chunkText_windows.
Qed.

(** X2. Every chunk [chunkText] returns is a run of consecutive code units
    of the trimmed text, and none is longer than [chunkSize], 1000 code
    units. *)
Theorem chunkText_chunks_bounded (text : jsstring) :
  Forall
    (fun c => (length c <= 1000)%nat /\ isSubstringOf c (trim text))
    (ProcessDocument.chunkText text).
Proof.
  destruct (trim text) as [|c0 t0] eqn:E.
  - destruct (@chunkText_blank text E) as [-> _]. constructor.
  - rewrite <- E.
    assert (Hne : trim text <> []) by (rewrite E; discriminate).
    rewrite (chunkText_windows text Hne). apply windowChunks_bounded.
Qed.

(** ** Validation, further *)

Section KeepNewFacts.

Import ProcessDocument.

Lemma keepNew_In (rest : list jsstring) :
  forall seen x,
    In x (keepNew seen rest) <-> In x rest /\ ~ In x seen.
Proof.
  induction rest as [|y rest IH]; intros seen x; cbn [keepNew].
  - simpl. tauto.
  - destruct (existsb (str_eqb y) seen) eqn:Ey.
    + apply existsb_str_eqb in Ey. rewrite IH, in_app_iff. simpl.
      split.
      * intros (Hx & Hn). tauto.
      * intros ([-> | Hx] & Hn); [contradiction|].
        split; [exact Hx|]. intros [H | [-> | []]]; contradiction.
    + assert (Hy : ~ In y seen).
      { intro H. apply existsb_str_eqb in H. congruence. }
      simpl. rewrite IH, in_app_iff. simpl. split.
      * intros [-> | (Hx & Hn)]; tauto.
      * intros ([-> | Hx] & Hn); [now left|].
        destruct (str_eqb y x) eqn:E.
        -- apply str_eqb_eq in E. now left.
        -- apply str_eqb_neq in E. right. split; [exact Hx|].
           intros [H | [H | []]]; contradiction.
Qed.

Lemma keepNew_NoDup (rest : list jsstring) :
  forall seen, NoDup (keepNew seen rest).
Proof.
  induction rest as [|y rest IH]; intro seen; cbn [keepNew].
  - constructor.
  - destruct (existsb (str_eqb y) seen); [apply IH|].
    constructor; [|apply IH].
    rewrite keepNew_In, in_app_iff. simpl. tauto.
Qed.

Lemma keepNew_fixed (rest : list jsstring) :
  forall seen,
    NoDup rest -> (forall x, In x rest -> ~ In x seen) ->
    keepNew seen rest = rest.
Proof.
  induction rest as [|y rest IH]; intros seen Hnd Hout; cbn [keepNew].
  - reflexivity.
  - inversion Hnd as [|? ? Hy Hnd']; subst.
    replace (existsb (str_eqb y) seen) with false.
    + f_equal. apply IH; [exact Hnd'|].
      intros x Hx Hin. apply in_app_or in Hin as [Hin | [-> | []]].
      * apply (Hout x); [now right | exact Hin].
      * contradiction.
    + symmetry. apply not_true_is_false. intro H.
      apply existsb_str_eqb in H. apply (Hout y); [now left | exact H].
Qed.

(** What validation lets through, and how often. *)
Lemma validateAndCleanChunks_In (chunks : list jsstring) (x : jsstring) :
  In x (validateAndCleanChunks chunks) <->
  exists c, In c chunks /\ x = trim c /\ (3 <= len x)%Z.
Proof.
  rewrite validateAndCleanChunks_keepNew, keepNew_In, in_map_iff. split.
  - intros ((c & <- & Hc) & _). apply filter_In in Hc as [Hc H3].
    exists c. split; [exact Hc|]. split; [reflexivity | lia].
  - intros (c & Hc & -> & H3). split; [|intros []].
    exists c. split; [reflexivity|]. apply filter_In. split; [exact Hc | lia].
Qed.

Lemma validateAndCleanChunks_NoDup (chunks : list jsstring) :
  NoDup (validateAndCleanChunks chunks).
Proof. rewrite validateAndCleanChunks_keepNew. apply keepNew_NoDup. Qed.

End KeepNewFacts.

(** X3. [validateAndCleanChunks] returns the trimmed forms of the chunks
    that have at least three code units after trimming, and nothing else;
    no text is returned twice, and every text returned is free of white
    space at both ends. *)
Theorem validateAndCleanChunks_characterised (chunks : list jsstring) :
  NoDup (ProcessDocument.validateAndCleanChunks chunks)
  /\ (forall x,
        In x (ProcessDocument.validateAndCleanChunks chunks) <->
        exists c, In c chunks /\ x = trim c /\ (3 <= len x)%Z)
  /\ Forall (fun x => trim x = x /\ (3 <= len x)%Z)
       (ProcessDocument.validateAndCleanChunks chunks).
Proof.
  split; [apply validateAndCleanChunks_NoDup|].
  split; [intro x; apply validateAndCleanChunks_In|].
  apply Forall_forall. intros x Hx.
  apply validateAndCleanChunks_In in Hx as (c & _ & -> & H3).
  split; [apply trim_idempotent | exact H3].
Qed.

(** X4. Validating twice is validating once: [validateAndCleanChunks]
    leaves its own result as it is, in content and in order. *)
Theorem validateAndCleanChunks_idempotent (chunks : list jsstring) :
  ProcessDocument.validateAndCleanChunks
    (ProcessDocument.validateAndCleanChunks chunks)
  = ProcessDocument.validateAndCleanChunks chunks.
Proof.
  set (out := ProcessDocument.validateAndCleanChunks chunks).
  assert (Hclean : Forall (fun x => trim x = x /\ (3 <= len x)%Z) out).
  { apply Forall_forall. intros x Hx.
    apply validateAndCleanChunks_In in Hx as (c & _ & -> & H3).
    split; [apply trim_idempotent | exact H3]. }
  rewrite (validateAndCleanChunks_keepNew out).
  assert (Hf : filter (fun chunk => (3 <=? len (trim chunk))%Z) out = out).
  { apply forallb_filter_id, forallb_forall. intros x Hx.
    rewrite Forall_forall in Hclean. destruct (Hclean x Hx) as [-> H3].
    now apply Z.leb_le. }
  assert (Hm : map trim out = out).
  { clear Hf. induction Hclean as [|x l [Hx _] _ IH]; simpl;
      [reflexivity | now rewrite Hx, IH]. }
  rewrite Hf, Hm. apply keepNew_fixed.
  - apply validateAndCleanChunks_NoDup.
  - intros x _ [].
Qed.

(** ** Stand-in vectors, exactly *)

Section DummyFacts.

Import ProcessDocument.

Variable E : Env.

Lemma afterRandom_zero (w : World) : afterRandom 0 w = w.
Proof. destruct w. unfold afterRandom. simpl. now rewrite Nat.add_0_r. Qed.

Lemma afterRandom_add (n m : nat) (w : World) :
  afterRandom m (afterRandom n w) = afterRandom (n + m) w.
Proof. unfold afterRandom. cbn [documentStore sessionMetaStore uploads
  randomCalls uuidCalls embeddingRequests]. f_equal. lia. Qed.

Lemma randomVector_run (n : nat) :
  forall w,
    randomVector E n w
    = (Returned (randomRun E (randomCalls w) n), afterRandom n w).
Proof.
  induction n as [|n IH]; intro w; cbn [randomVector].
  - unfold ret, randomRun. cbn [seq map]. now rewrite afterRandom_zero.
  - unfold bind at 1. unfold mathRandom at 1. unfold bind at 1.
    rewrite IH. unfold ret, randomRun, afterRandom.
    cbn [documentStore sessionMetaStore uploads randomCalls uuidCalls
         embeddingRequests seq map].
    f_equal. f_equal. lia.
Qed.

Lemma generateSingleDummyEmbedding_run (w : World) :
  generateSingleDummyEmbedding E w
  = (Returned (randomRun E (randomCalls w) 1536), afterRandom 1536 w).
Proof. exact (randomVector_run 1536 w). Qed.

Lemma dummyEmbeddingsLoop_run (n : nat) :
  forall w,
    dummyEmbeddingsLoop E n w
    = (Returned
         (map (fun i => randomRun E (randomCalls w + 1536 * i) 1536)
            (seq 0 n)),
       afterRandom (1536 * n) w).
Proof.
  induction n as [|n IH]; intro w; cbn [dummyEmbeddingsLoop].
  - unfold ret. cbn [seq map]. rewrite Nat.mul_0_r.
    now rewrite afterRandom_zero.
  - unfold bind at 1. rewrite generateSingleDummyEmbedding_run.
    unfold bind at 1. rewrite IH. unfold ret.
    rewrite afterRandom_add. f_equal.
    + f_equal. cbn [seq map]. f_equal.
      * f_equal. lia.
      * rewrite <- seq_shift, map_map. apply map_ext. intro i.
        unfold afterRandom. cbn [randomCalls]. f_equal. lia.
    + f_equal. lia.
Qed.

End DummyFacts.

(** X5. [generateDummyEmbeddings(count)] returns [max(1, min(count, 100))]
    vectors: one vector for a count of 0 or less, never more than 100, and
    [count] vectors in between.  Each vector holds 1536 consecutive results
    of [Math.random], in call order; nothing else in the state changes. *)
Theorem generateDummyEmbeddings_clamped (E : Env) (count : Z) (w : World) :
  exists vs,
    ProcessDocument.generateDummyEmbeddings E count w
    = (Returned vs, afterRandom (1536 * length vs) w)
    /\ (1 <= length vs <= 100)%nat
    /\ ((count <= 1)%Z -> length vs = 1%nat)
    /\ ((1 <= count <= 100)%Z -> Z.of_nat (length vs) = count)
    /\ ((100 <= count)%Z -> length vs = 100%nat)
    /\ vs = map (fun i => randomRun E (randomCalls w + 1536 * i) 1536)
              (seq 0 (length vs))
    /\ Forall (fun v => length v = 1536%nat) vs.
Proof.
  set (n := Z.to_nat (Z.max 1 (Z.min count 100))).
  exists (map (fun i => randomRun E (randomCalls w + 1536 * i) 1536) (seq 0 n)).
  rewrite length_map, length_seq.
  split; [exact (dummyEmbeddingsLoop_run E n w)|].
  split; [unfold n; lia|]. split; [unfold n; lia|].
  split; [unfold n; lia|]. split; [unfold n; lia|].
  split; [reflexivity|].
  apply Forall_forall. intros v Hv. apply in_map_iff in Hv as (i & <- & _).
  unfold randomRun. now rewrite length_map, length_seq.
Qed.

(** ** Embedding generation with a credential *)

Section RequestFacts.

Import ProcessDocument.

Variable E : Env.

Lemma randomRun_length (from n : nat) : length (randomRun E from n) = n.
Proof. unfold randomRun. now rewrite length_map, length_seq. Qed.

Lemma embedText_exact (allEmbeddings : list vector) (text : jsstring)
  (w : World) :
  exists v w',
    embedText E allEmbeddings text w = (Returned (allEmbeddings ++ [v]), w')
    /\ answersFor E text v
    /\ embeddingRequests w' = embeddingRequests w ++ [text]
    /\ sameStores w w'.
Proof.
  unfold answersFor.
  destruct (embeddingService E text) as [| code | | | e] eqn:Hreply;
    unfold embedText, tryCatch, bind, fetchEmbedding; rewrite Hreply;
    cbv beta iota; unfold throw; cbv beta iota;
    rewrite ?generateSingleDummyEmbedding_run; unfold ret;
    eexists _, _; (split; [reflexivity|]);
    try (split; [apply randomRun_length|]);
    try (split; [reflexivity|]);
    split; try reflexivity; repeat split.
Qed.

Lemma embedBatch_exact (batch : list jsstring) :
  forall allEmbeddings w,
    exists vs w',
      embedBatch E batch allEmbeddings w = (Returned (allEmbeddings ++ vs), w')
      /\ Forall2 (answersFor E) batch vs
      /\ embeddingRequests w' = embeddingRequests w ++ batch
      /\ sameStores w w'.
Proof.
  induction batch as [|text batch IH]; intros allEmbeddings w;
    cbn [embedBatch].
  - exists [], w. rewrite !app_nil_r. repeat split. constructor.
  - destruct (embedText_exact allEmbeddings text w)
      as (v & w1 & Hrun & Hv & Hreq & Hs).
    destruct (IH (allEmbeddings ++ [v]) w1) as (vs & w2 & Hrun2 & Hvs & Hreq2 & Hs2).
    exists (v :: vs), w2. split.
    + unfold bind. rewrite Hrun, Hrun2, <- app_assoc. reflexivity.
    + split; [now constructor|]. split.
      * rewrite Hreq2, Hreq, <- app_assoc. reflexivity.
      * now apply (sameStores_trans w w1 w2).
Qed.

Lemma firstn_skipn_add {X : Type} (a b : nat) :
  forall l : list X, firstn a l ++ firstn b (skipn a l) = firstn (a + b) l.
Proof.
  induction a as [|a IH]; intros [|x l]; simpl; try reflexivity.
  - now rewrite firstn_nil.
  - now rewrite IH.
Qed.

Lemma slice_nat {X : Type} (l : list X) (i j : nat) :
  (i <= j)%nat ->
  slice l (Z.of_nat i) (Z.of_nat j) = firstn (j - i) (skipn i l).
Proof.
  intro Hij. unfold slice, clampIndex.
  replace (Z.of_nat i <? 0)%Z with false by (symmetry; apply Z.ltb_ge; lia).
  replace (Z.of_nat j <? 0)%Z with false by (symmetry; apply Z.ltb_ge; lia).
  destruct (Nat.le_gt_cases i (length l)) as [Hi | Hi].
  - rewrite (Z.min_l (Z.of_nat i)) by lia. rewrite Nat2Z.id.
    destruct (Nat.le_gt_cases j (length l)) as [Hj | Hj].
    + rewrite Z.min_l by lia. f_equal. lia.
    + rewrite Z.min_r by lia.
      rewrite !firstn_all2; [reflexivity | |]; rewrite length_skipn; lia.
  - rewrite (Z.min_r (Z.of_nat i)) by lia. rewrite Nat2Z.id.
    rewrite (skipn_all2 l) by lia. rewrite skipn_all2 by lia.
    now rewrite !firstn_nil.
Qed.

(** The batches from the [a]-th on cover the texts from offset [3 * a] on,
    in order. *)
Lemma embedBatches_exact (limitedTexts : list jsstring) (m : nat) :
  forall a allEmbeddings w,
    exists vs w',
      embedBatches E (map (fun k => k * batchSize)%nat (seq a m))
        limitedTexts allEmbeddings w
      = (Returned (allEmbeddings ++ vs), w')
      /\ Forall2 (answersFor E)
           (firstn (m * 3) (skipn (a * 3) limitedTexts)) vs
      /\ embeddingRequests w'
         = embeddingRequests w ++ firstn (m * 3) (skipn (a * 3) limitedTexts)
      /\ sameStores w w'.
Proof.
  induction m as [|m IH]; intros a allEmbeddings w; cbn [seq map embedBatches].
  - exists [], w. change (0 * 3)%nat with 0%nat. cbn [firstn].
    rewrite !app_nil_r. repeat split. constructor.
  - unfold batchSize in *. rewrite slice_nat by lia.
    replace (a * 3 + 3 - a * 3)%nat with 3%nat by lia.
    destruct (embedBatch_exact (firstn 3 (skipn (a * 3) limitedTexts))
                allEmbeddings w) as (vs1 & w1 & Hrun1 & Hvs1 & Hreq1 & Hs1).
    destruct (IH (S a) (allEmbeddings ++ vs1) w1)
      as (vs2 & w2 & Hrun2 & Hvs2 & Hreq2 & Hs2).
    assert (Hcut : firstn (S m * 3) (skipn (a * 3) limitedTexts)
                   = firstn 3 (skipn (a * 3) limitedTexts)
                     ++ firstn (m * 3) (skipn (S a * 3) limitedTexts)).
    { replace (S m * 3)%nat with (3 + m * 3)%nat by lia.
      rewrite <- firstn_skipn_add. f_equal. f_equal.
      rewrite skipn_skipn. f_equal; lia. }
    exists (vs1 ++ vs2), w2. split.
    + unfold bind. rewrite Hrun1, Hrun2, <- app_assoc. reflexivity.
    + rewrite Hcut. split; [now apply Forall2_app|]. split.
      * rewrite Hreq2, Hreq1, <- app_assoc. reflexivity.
      * now apply (sameStores_trans w w1 w2).
Qed.

Lemma embedAll_exact (limitedTexts : list jsstring) (w : World) :
  exists vs w',
    embedBatches E (batchStarts (length limitedTexts)) limitedTexts [] w
    = (Returned vs, w')
    /\ Forall2 (answersFor E) limitedTexts vs
    /\ embeddingRequests w' = embeddingRequests w ++ limitedTexts
    /\ sameStores w w'.
Proof.
  unfold batchStarts.
  destruct (embedBatches_exact limitedTexts
              ((length limitedTexts + batchSize - 1) / batchSize) 0 [] w)
    as (vs & w' & Hrun & Hvs & Hreq & Hs).
  cbn [Nat.mul skipn app] in *.
  assert (Hall : firstn ((length limitedTexts + batchSize - 1) / batchSize * 3)
                   limitedTexts = limitedTexts).
  { apply firstn_all2. unfold batchSize.
    pose proof (Nat.div_mod_eq (length limitedTexts + 3 - 1) 3) as Hd.
    pose proof (Nat.mod_upper_bound (length limitedTexts + 3 - 1) 3) as Hm.
    lia. }
  rewrite Hall in *. exists vs, w'. auto.
Qed.

End RequestFacts.

(** X6. With a credential configured, [generateEmbeddings] sends one
    request for each of the first 50 texts that pass validation, in their
    order, and nothing when no text passes.  The vector it returns for a
    text is the one the endpoint answered with; a text whose request fails
    (endpoint out of reach, status not ok, body without a vector) gets a
    stand-in of 1536 numbers in its place, and the other texts are not
    affected.  When no text passes it returns a single stand-in vector. *)
Theorem generateEmbeddings_with_credential (E : Env) (texts : list jsstring)
  (w : World) :
  hasApiKey E = true ->
  exists vs w',
    ProcessDocument.generateEmbeddings E texts w = (Returned vs, w')
    /\ embeddingRequests w'
       = embeddingRequests w
         ++ firstn 50 (ProcessDocument.validateAndCleanChunks texts)
    /\ (ProcessDocument.validateAndCleanChunks texts <> [] ->
        Forall2 (answersFor E)
          (firstn 50 (ProcessDocument.validateAndCleanChunks texts)) vs)
    /\ (ProcessDocument.validateAndCleanChunks texts = [] ->
        exists v, vs = [v] /\ length v = 1536%nat).
Proof.
  intro Hkey. unfold ProcessDocument.generateEmbeddings. cbv zeta.
  destruct (ProcessDocument.validateAndCleanChunks texts) as [|t ts] eqn:Hv.
  - destruct (generateDummyEmbeddings_spec E 1 w)
      as (vs & w' & Hrun & Hl & Hall & _ & Hn).
    change (length (@nil jsstring) =? 0)%nat with true. cbv iota.
    exists vs, w'. split.
    + exact (tryCatch_returned _ _ w w' vs Hrun).
    + split; [rewrite app_nil_r; exact Hn|]. split; [congruence|].
      intros _. change (Z.to_nat (Z.max 1 (Z.min 1 100))) with 1%nat in Hl.
      destruct vs as [|v [|v' vs]]; [discriminate Hl | | discriminate Hl].
      exists v. split; [reflexivity|]. now inversion Hall.
  - rewrite <- Hv. rewrite Hkey.
    assert (Hlen : (length (ProcessDocument.validateAndCleanChunks texts) =? 0)%nat
                   = false) by (rewrite Hv; reflexivity).
    rewrite Hlen. cbn [negb]. cbv iota.
    rewrite (slice_from_zero (ProcessDocument.validateAndCleanChunks texts) 50)
      by lia.
    change (Z.to_nat 50) with 50%nat.
    destruct (embedAll_exact E
                (firstn 50 (ProcessDocument.validateAndCleanChunks texts)) w)
      as (vs & w' & Hrun & Hvs & Hreq & _).
    exists vs, w'. split.
    + exact (tryCatch_returned _ _ w w' vs Hrun).
    + split; [exact Hreq|]. split; [intros _; exact Hvs|].
      rewrite Hv. discriminate.
Qed.

Lemma generateEmbeddings_with_credential_witness :
  hasApiKey (demoEnv (Some (lit "key")) demoText) = true
  /\ exists vs w',
       ProcessDocument.generateEmbeddings (demoEnv (Some (lit "key")) demoText)
         [lit " alpha "; lit "be"; lit "alpha"; lit "gamma"] freshWorld
       = (Returned vs, w')
       /\ embeddingRequests w' = [lit "alpha"; lit "gamma"].
Proof.
  assert (H : hasApiKey (demoEnv (Some (lit "key")) demoText) = true)
    by reflexivity.
  split; [exact H|].
  destruct (generateEmbeddings_with_credential
              (demoEnv (Some (lit "key")) demoText)
              [lit " alpha "; lit "be"; lit "alpha"; lit "gamma"] freshWorld H)
    as (vs & w' & Hrun & Hreq & _).
  exists vs, w'. split; [exact Hrun|].
  rewrite Hreq. vm_compute. reflexivity.
Defined.

(** ** The answers of the processing route *)

Section AnswerFacts.

Import ProcessDocument.

Variable E : Env.

Lemma extractedText_some (filepath text : jsstring) (w : World) :
  extractedText E filepath = Some text ->
  extractTextFromPDF E filepath w = (Returned text, w)
  /\ trim text = text /\ (10 <= len text)%Z.
Proof.
  unfold extractedText, extractTextFromPDF, tryCatch.
  destruct (pdfText E filepath) as [t|]; [|discriminate].
  destruct (len (trim t) <? 10)%Z eqn:Hl; [discriminate|].
  intro H. injection H as <-. apply Z.ltb_ge in Hl.
  split; [reflexivity|]. split; [apply trim_idempotent | exact Hl].
Qed.

Lemma extractedText_none (filepath : jsstring) (w : World) :
  extractedText E filepath = None ->
  extractTextFromPDF E filepath w = (Thrown extractionFailed, w).
Proof.
  unfold extractedText, extractTextFromPDF, tryCatch.
  destruct (pdfText E filepath) as [t|]; [|reflexivity].
  destruct (len (trim t) <? 10)%Z eqn:Hl; [reflexivity | discriminate].
Qed.

Lemma metadataComplete_guard (b : Body) :
  negb (truthy (body_fileId b)) || negb (truthy (body_filename b))
  || negb (truthy (body_filepath b)) || negb (truthy (body_fileType b))
  = negb (metadataComplete b).
Proof.
  unfold metadataComplete.
  destruct (truthy (body_fileId b)), (truthy (body_filename b)),
    (truthy (body_filepath b)), (truthy (body_fileType b)); reflexivity.
Qed.

(** The body of the answer to a request that went through. *)
Lemma POST_accepted (b : Body) (text : jsstring) (w : World) :
  metadataComplete b = true -> isPdf b = true ->
  extractedText E (body_filepath b) = Some text ->
  exists embeddings w1,
    generateEmbeddings E (chunkText text) w = (Returned embeddings, w1)
    /\ POST E (Some b) w
       = (Returned
            (json
               (JObj
                  [("fileId"%string, JStr (body_fileId b));
                   ("filename"%string, JStr (body_filename b));
                   ("size"%string, JUndefined);
                   ("type"%string, JStr (body_fileType b));
                   ("chunks"%string, JInt (Z.of_nat (length (chunkText text))));
                   ("warning"%string, JUndefined);
                   ("processingTime"%string, JInt (now E - now E));
                   ("message"%string,
                     JStr (lit "Document processed successfully"))])),
          setDocumentStore w1
            (Some
               (JsMap.set (storeOf w1) (body_fileId b)
                  (DocumentEntry
                     (mkDocumentData (body_fileId b) (body_filename b)
                        (chunkText text) embeddings (now E)))))).
Proof.
  intros Hmeta Hpdf Htext.
  destruct (extractedText_some (body_filepath b) text w Htext)
    as (Hextract & Htrim & Hlen).
  destruct (generateEmbeddings_spec E (chunkText text) w)
    as (embeddings & w1 & Hgen & _).
  exists embeddings, w1. split; [exact Hgen|].
  unfold POST. apply tryCatch_returned.
  rewrite metadataComplete_guard, Hmeta. cbn [negb]. cbv iota.
  unfold isPdf in Hpdf. rewrite Hpdf. cbn [negb]. cbv iota.
  eapply bind_returned.
  { apply tryCatch_returned.
    exact (bind_returned _ _ w w text _ Hextract eq_refl). }
  cbv beta iota.
  assert (Hne : text <> []).
  { intro H0. subst text. unfold len in Hlen. simpl in Hlen. lia. }
  assert (Htruthy : truthy text = true)
    by (destruct text; [congruence | reflexivity]).
  rewrite Htruthy, Htrim.
  replace (len text <? 10)%Z with false by (symmetry; apply Z.ltb_ge; exact Hlen).
  cbn [negb orb]. cbv iota zeta.
  assert (Hne2 : trim text <> []) by (rewrite Htrim; exact Hne).
  destruct (@chunkText_run text Hne2) as (cs & _ & Hcs & Hn & _).
  replace (length (chunkText text) =? 0)%nat with false
    by (symmetry; apply Nat.eqb_neq; rewrite Hcs, Hn; discriminate).
  eapply bind_returned.
  { apply tryCatch_returned.
    exact (bind_returned _ _ w w1 embeddings _ Hgen eq_refl). }
  cbv beta iota.
  eapply bind_returned.
  { apply tryCatch_returned.
    exact (bind_returned _ _ w1 _ tt _ (storeDocument_spec _ _ w1) eq_refl). }
  reflexivity.
Qed.

Lemma POST_refused_metadata (b : Body) (w : World) :
  metadataComplete b = false ->
  POST E (Some b) w
  = (Returned (jsonStatus 400 (errorBody (lit "Missing file metadata"))), w).
Proof.
  intro Hmeta. unfold POST. apply tryCatch_returned.
  rewrite metadataComplete_guard, Hmeta. reflexivity.
Qed.

Lemma POST_refused_type (b : Body) (w : World) :
  metadataComplete b = true -> isPdf b = false ->
  POST E (Some b) w
  = (Returned
       (jsonStatus 400 (errorBody (lit "Only PDF files are supported for now."))),
     w).
Proof.
  intros Hmeta Hpdf. unfold POST. apply tryCatch_returned.
  rewrite metadataComplete_guard, Hmeta. cbn [negb]. cbv iota.
  unfold isPdf in Hpdf. rewrite Hpdf. reflexivity.
Qed.

Lemma POST_refused_text (b : Body) (w : World) :
  metadataComplete b = true -> isPdf b = true ->
  extractedText E (body_filepath b) = None ->
  POST E (Some b) w
  = (Returned (jsonStatus 400 (errorBody extractionFailed)), w).
Proof.
  intros Hmeta Hpdf Htext. unfold POST. apply tryCatch_returned.
  rewrite metadataComplete_guard, Hmeta. cbn [negb]. cbv iota.
  unfold isPdf in Hpdf. rewrite Hpdf. cbn [negb]. cbv iota.
  pose proof (extractedText_none (body_filepath b) w Htext) as Hextract.
  eapply bind_returned.
  { rewrite (tryCatch_thrown _ _ w w extractionFailed
               (bind_thrown _ _ w w _ Hextract)).
    reflexivity. }
  reflexivity.
Qed.

End AnswerFacts.

Section StoreSizeFacts.

Lemma size_set {V : Type} (m : JsMap.t V) (k : jsstring) (v : V) :
  JsMap.size (JsMap.set m k v)
  = if JsMap.has m k then JsMap.size m else S (JsMap.size m).
Proof.
  unfold JsMap.size, JsMap.has.
  induction m as [|[k' v'] m IH]; simpl; [reflexivity|].
  destruct (str_eqb k' k); simpl; [reflexivity|].
  rewrite IH. now destruct (JsMap.get m k).
Qed.

Lemma keys_set {V : Type} (m : JsMap.t V) (k : jsstring) (v : V) :
  JsMap.keys (JsMap.set m k v)
  = if JsMap.has m k then JsMap.keys m else JsMap.keys m ++ [k].
Proof.
  unfold JsMap.keys, JsMap.has.
  induction m as [|[k' v'] m IH]; simpl; [reflexivity|].
  destruct (str_eqb k' k); simpl; [reflexivity|].
  rewrite IH. now destruct (JsMap.get m k).
Qed.

End StoreSizeFacts.

(** X7. The answers of the processing route.  A body that cannot be read
    is answered with status 500 and the error [Failed to process document];
    a body with an empty or missing [fileId], [filename], [filepath] or
    [fileType] with status 400 and [Missing file metadata]; a type other
    than [application/pdf] with status 400 and
    [Only PDF files are supported for now.]; a PDF that cannot be read, or
    that holds fewer than ten code units of text after trimming, with
    status 400 and [Failed to extract text from PDF using pdf-ts].  Each of
    these leaves the state as it was.  Every other request is answered
    with status 200: the answers [No text extracted from document.],
    [No valid text chunks found in document.],
    [Failed to generate embeddings] and [Failed to store document] are
    never given. *)
Theorem processing_answers (E : Env) (request : option ProcessDocument.Body)
  (w : World) :
  exists response w',
    ProcessDocument.POST E request w = (Returned response, w')
    /\ ((request = None
         /\ status response = 500%Z
         /\ UploadCommon.property (body response) "error"
            = JStr (lit "Failed to process document")
         /\ w' = w)
        \/ (exists b,
              request = Some b /\ metadataComplete b = false
              /\ response
                 = jsonStatus 400
                     (ProcessDocument.errorBody (lit "Missing file metadata"))
              /\ w' = w)
        \/ (exists b,
              request = Some b /\ metadataComplete b = true
              /\ isPdf b = false
              /\ response
                 = jsonStatus 400
                     (ProcessDocument.errorBody
                        (lit "Only PDF files are supported for now."))
              /\ w' = w)
        \/ (exists b,
              request = Some b /\ metadataComplete b = true
              /\ isPdf b = true
              /\ extractedText E (ProcessDocument.body_filepath b) = None
              /\ response
                 = jsonStatus 400
                     (ProcessDocument.errorBody
                        (lit "Failed to extract text from PDF using pdf-ts"))
              /\ w' = w)
        \/ (exists b text,
              request = Some b /\ metadataComplete b = true
              /\ isPdf b = true
              /\ extractedText E (ProcessDocument.body_filepath b) = Some text
              /\ status response = 200%Z
              /\ UploadCommon.property (body response) "error" = JUndefined)).
Proof.
  destruct request as [b|].
  2:{ eexists _, w. split; [reflexivity|]. left. repeat split. }
  destruct (metadataComplete b) eqn:Hmeta.
  2:{ eexists _, w. split; [now apply POST_refused_metadata|].
      right; left. exists b. repeat split. exact Hmeta. }
  destruct (isPdf b) eqn:Hpdf.
  2:{ eexists _, w. split; [now apply POST_refused_type|].
      right; right; left. exists b. repeat split; assumption. }
  destruct (extractedText E (ProcessDocument.body_filepath b)) as [text|]
    eqn:Htext.
  - destruct (POST_accepted E b text w Hmeta Hpdf Htext)
      as (embeddings & w1 & _ & Hrun).
    eexists _, _. split; [exact Hrun|].
    right; right; right; right. exists b, text. repeat split; assumption.
  - eexists _, w. split; [now apply POST_refused_text|].
    right; right; right; left. exists b. repeat split; assumption.
Qed.

(** X8. A request the processing route accepts (all four fields there,
    type [application/pdf], a readable PDF with at least ten code units of
    text) is answered with status 200 and [chunks: 50], whatever the length
    of the text.  Afterwards the document store holds, under the file id,
    a document with the file id and the file name of the request, the 50
    chunks of the trimmed text and the time of the request; the entries
    under every other key are as before, and the store has one entry more
    exactly when the file id was not in it: processing a file id again
    replaces its document.  The activity map and the uploads directory are
    not touched. *)
Theorem processing_stores_under_file_id (E : Env) (b : ProcessDocument.Body)
  (text : jsstring) (w : World) :
  metadataComplete b = true -> isPdf b = true ->
  extractedText E (ProcessDocument.body_filepath b) = Some text ->
  exists response w' doc,
    ProcessDocument.POST E (Some b) w = (Returned response, w')
    /\ status response = 200%Z
    /\ UploadCommon.property (body response) "chunks" = JInt 50
    /\ UploadCommon.property (body response) "fileId"
       = JStr (ProcessDocument.body_fileId b)
    /\ JsMap.get (storeOf w') (ProcessDocument.body_fileId b)
       = Some (DocumentEntry doc)
    /\ fileId doc = ProcessDocument.body_fileId b
    /\ filename doc = ProcessDocument.body_filename b
    /\ chunks doc = ProcessDocument.chunkText text
    /\ length (chunks doc) = 50%nat
    /\ createdAt doc = now E
    /\ (forall key,
          key <> ProcessDocument.body_fileId b ->
          JsMap.get (storeOf w') key = JsMap.get (storeOf w) key)
    /\ JsMap.size (storeOf w')
       = (if JsMap.has (storeOf w) (ProcessDocument.body_fileId b)
          then JsMap.size (storeOf w) else S (JsMap.size (storeOf w)))
    /\ sessionMetaStore w' = sessionMetaStore w
    /\ uploads w' = uploads w.
Proof.
  intros Hmeta Hpdf Htext.
  destruct (POST_accepted E b text w Hmeta Hpdf Htext)
    as (embeddings & w1 & Hgen & Hrun).
  destruct (generateEmbeddings_spec E (ProcessDocument.chunkText text) w)
    as (vs & w2 & Hgen' & _ & (Hd & Hm & Hu) & _).
  rewrite Hgen in Hgen'. injection Hgen' as <- <-.
  destruct (extractedText_some E _ text w Htext) as (_ & Htrim & Hlen).
  assert (Hne : trim text <> []).
  { rewrite Htrim. intro H0. subst text. unfold len in Hlen. simpl in Hlen. lia. }
  destruct (@chunkText_run text Hne) as (cs & _ & Hcs & Hn & _).
  assert (Hstore : storeOf w1 = storeOf w) by (unfold storeOf; now rewrite Hd).
  eexists _, _, _. split; [exact Hrun|].
  unfold storeOf at 1 2 3. cbn [setDocumentStore documentStore body status
    sessionMetaStore uploads json fileId filename chunks createdAt].
  rewrite Hstore.
  split; [reflexivity|].
  split; [cbn; now rewrite Hcs, Hn|].
  split; [reflexivity|].
  split; [rewrite get_set; now rewrite str_eqb_refl|].
  split; [reflexivity|]. split; [reflexivity|]. split; [reflexivity|].
  split; [now rewrite Hcs|]. split; [reflexivity|].
  split.
  { intros key Hkey. rewrite get_set.
    replace (str_eqb (ProcessDocument.body_fileId b) key) with false;
      [reflexivity|].
    symmetry. apply str_eqb_neq. congruence. }
  split; [apply size_set|]. split; assumption.
Qed.

Lemma processing_stores_under_file_id_witness :
  exists response w',
    ProcessDocument.POST (demoEnv None demoText) (Some demoBody) freshWorld
    = (Returned response, w')
    /\ UploadCommon.property (body response) "chunks" = JInt 50
    /\ JsMap.size (storeOf w') = 1%nat.
Proof.
  destruct (processing_stores_under_file_id (demoEnv None demoText) demoBody
              demoText freshWorld eq_refl eq_refl eq_refl)
    as (response & w' & doc & Hrun & _ & Hchunks & _ & _ & _ & _ & _ & _ & _
        & _ & Hsize & _).
  exists response, w'. split; [exact Hrun|]. split; [exact Hchunks|].
  exact Hsize.
Defined.

(** ** What the retriever hands out *)

Section ProvenanceFacts.

Import Chat.

Lemma In_combine_nth {X Y : Type} (l : list X) :
  forall (l' : list Y) (x : X) (y : Y),
    In (x, y) (combine l l') ->
    exists i, nth_error l i = Some x /\ nth_error l' i = Some y.
Proof.
  induction l as [|a l IH]; intros [|b l'] x y Hin; simpl in Hin;
    try contradiction.
  destruct Hin as [Heq | Hin].
  - injection Heq as -> ->. now exists 0%nat.
  - destruct (IH l' x y Hin) as (i & Hx & Hy). now exists (S i).
Qed.

(** Where a score comes from. *)
Lemma scoreDocuments_In (q : vector) (docs : JsMap.t DocumentData)
  (s : Scored) :
  In s (scoreDocuments q docs) ->
  exists doc i raw e,
    In doc (JsMap.values docs)
    /\ nth_error (chunks doc) i = Some raw
    /\ nth_error (embeddings doc) i = Some e
    /\ s = mkScored (trim raw) (cosineSimilarity q e)
    /\ trim raw <> []
    /\ PrimFloat.ltb 0 (cosineSimilarity q e) = true.
Proof.
  rewrite scoreDocuments_paired. intro Hin.
  apply in_flat_map in Hin as (doc & Hdoc & Hin).
  unfold pairedScores in Hin.
  apply in_flat_map in Hin as ([raw e] & Hpair & Hin).
  destruct (In_combine_nth _ _ _ _ Hpair) as (i & Hraw & He).
  unfold pairedScore in Hin. cbn [fst snd] in Hin.
  destruct (0 <? len (trim raw))%Z eqn:Hlen; cbn [andb] in Hin;
    [|contradiction].
  destruct (PrimFloat.ltb 0 (cosineSimilarity q e)) eqn:Hpos;
    [|contradiction].
  destruct Hin as [<- | []].
  exists doc, i, raw, e. repeat split; try assumption.
  now apply len_pos_iff.
Qed.

Lemma retrieveRelevantChunks_In (q : vector) (docs : JsMap.t DocumentData)
  (topK : Z) (c : jsstring) :
  In c (retrieveRelevantChunks q docs topK) ->
  exists s, In s (scoreDocuments q docs) /\ chunk s = c.
Proof.
  rewrite retrieveRelevantChunks_rank. intro Hin.
  apply in_map_iff in Hin as (s & Hc & Hin).
  exists s. split; [|exact Hc].
  apply In_firstn in Hin.
  apply (Permutation_in s (sort_perm Scored bySimilarity _) Hin).
Qed.

Lemma retrieveRelevantChunks_length (q : vector) (docs : JsMap.t DocumentData)
  (topK : Z) :
  length (retrieveRelevantChunks q docs topK)
  = Nat.min (Z.to_nat (clampTopK topK)) (length (scoreDocuments q docs)).
Proof.
  rewrite retrieveRelevantChunks_rank, length_map, length_firstn.
  now rewrite (Permutation_length (sort_perm Scored bySimilarity _)).
Qed.

End ProvenanceFacts.

(** X9. [retrieveRelevantChunks] returns [max(1, min(topK, 10))] chunks
    when that many score, and every scoring chunk otherwise: never more
    than 10, and one chunk even for [topK] of 0 or less.  Every text it
    returns is the trimmed, non-empty text of a chunk of one of the
    documents, taken at an index at which the document also has a vector,
    and the similarity of that vector to the query is positive: a chunk
    without a vector, and a chunk at similarity 0 or less, is never
    returned. *)
Theorem retrieveRelevantChunks_bounded (q : vector)
  (docs : JsMap.t DocumentData) (topK : Z) :
  length (Chat.retrieveRelevantChunks q docs topK)
  = Nat.min (Z.to_nat (Z.max 1 (Z.min topK 10)))
      (length (Chat.scoreDocuments q docs))
  /\ (length (Chat.retrieveRelevantChunks q docs topK) <= 10)%nat
  /\ ((topK <= 1)%Z ->
      (length (Chat.retrieveRelevantChunks q docs topK) <= 1)%nat)
  /\ (Chat.scoreDocuments q docs <> [] ->
      Chat.retrieveRelevantChunks q docs topK <> [])
  /\ (forall c,
        In c (Chat.retrieveRelevantChunks q docs topK) ->
        c <> [] /\ trim c = c
        /\ exists doc i raw e,
             In doc (JsMap.values docs)
             /\ nth_error (chunks doc) i = Some raw
             /\ nth_error (embeddings doc) i = Some e
             /\ c = trim raw
             /\ PrimFloat.ltb 0 (Chat.cosineSimilarity q e) = true).
Proof.
  pose proof (retrieveRelevantChunks_length q docs topK) as Hl.
  unfold Chat.clampTopK in Hl.
  split; [exact Hl|]. split; [lia|]. split; [lia|]. split.
  - intros Hne Hnil. rewrite Hnil in Hl. simpl in Hl.
    destruct (Chat.scoreDocuments q docs); [congruence|]. simpl in Hl. lia.
  - intros c Hc.
    destruct (retrieveRelevantChunks_In q docs topK c Hc) as (s & Hs & <-).
    destruct (scoreDocuments_In q docs s Hs)
      as (doc & i & raw & e & Hdoc & Hraw & He & -> & Hne & Hpos).
    cbn [Chat.chunk]. split; [exact Hne|]. split; [apply trim_idempotent|].
    exists doc, i, raw, e. repeat split; assumption.
Qed.

(** ** The query embedding *)

Section QueryFacts.

Import Chat.

Variable E : Env.

Lemma chat_randomVector_run (n : nat) :
  forall w,
    randomVector E n w
    = (Returned (randomRun E (randomCalls w) n), afterRandom n w).
Proof.
  induction n as [|n IH]; intro w; cbn [randomVector].
  - unfold ret, randomRun. cbn [seq map]. now rewrite afterRandom_zero.
  - unfold bind at 1. unfold mathRandom at 1. unfold bind at 1.
    rewrite IH. unfold ret, randomRun, afterRandom.
    cbn [documentStore sessionMetaStore uploads randomCalls uuidCalls
         embeddingRequests seq map].
    f_equal. f_equal. lia.
Qed.

(** The stand-in of the chat route is made of 1536 results of
    [Math.random]; its fallback of 384 numbers is never used. *)
Lemma chat_dummy_run (w : World) :
  generateSingleDummyEmbedding E w
  = (Returned (randomRun E (randomCalls w) 1536), afterRandom 1536 w).
Proof.
  unfold generateSingleDummyEmbedding.
  exact (tryCatch_returned _ _ w _ _ (chat_randomVector_run 1536 w)).
Qed.

Lemma trim_nonempty_truthy (s : jsstring) : trim s <> [] -> truthy s = true.
Proof.
  destruct s; [|reflexivity]. intro H. exfalso. now apply H.
Qed.

(** [generateQueryEmbedding], case by case. *)
Lemma generateQueryEmbedding_run (query : jsstring) (w : World) :
  generateQueryEmbedding E query w
  = if hasApiKey E && nonBlank (trim query) then
      match embeddingService E (trim query) with
      | Embedding e => (Returned e, afterRequest (trim query) w)
      | _ =>
          (Returned (randomRun E (randomCalls w) 1536),
           afterRandom 1536 (afterRequest (trim query) w))
      end
    else (Returned (randomRun E (randomCalls w) 1536), afterRandom 1536 w).
Proof.
  unfold generateQueryEmbedding, nonBlank.
  destruct (trim query) as [|c t] eqn:Ht.
  - rewrite andb_false_r.
    replace (negb (truthy query) || (len (@nil ascii) =? 0)%Z) with true
      by (now rewrite orb_true_r).
    unfold tryCatch, throw. apply chat_dummy_run.
  - rewrite <- Ht.
    assert (Hne : trim query <> []) by (rewrite Ht; discriminate).
    rewrite (trim_nonempty_truthy query Hne).
    replace (len (trim query) =? 0)%Z with false
      by (symmetry; apply Z.eqb_neq; unfold len; rewrite Ht; simpl; lia).
    replace (0 <? len (trim query))%Z with true
      by (symmetry; apply Z.ltb_lt; unfold len; rewrite Ht; simpl; lia).
    cbn [negb orb]. rewrite andb_true_r.
    destruct (hasApiKey E); cbn [negb].
    + unfold tryCatch, bind, fetchEmbedding, throw.
      destruct (embeddingService E (trim query)); cbv beta iota;
        try (rewrite chat_dummy_run); reflexivity.
    + unfold tryCatch. now rewrite chat_dummy_run.
Qed.

End QueryFacts.

(** X10. [generateQueryEmbedding] never throws and always returns a
    vector.  With a credential and a query that is not blank it sends one
    request, whose input is the trimmed query, and returns the vector the
    endpoint answers with; when the endpoint is out of reach, refuses or
    answers without a vector it returns 1536 results of [Math.random]
    instead.  Without a credential, or for a blank query, it sends nothing
    and returns 1536 results of [Math.random].  The stores and the uploads
    directory are left alone. *)
Theorem generateQueryEmbedding_total (E : Env) (query : jsstring) (w : World) :
  exists v w',
    Chat.generateQueryEmbedding E query w = (Returned v, w')
    /\ sameStores w w'
    /\ (if hasApiKey E && nonBlank (trim query)
        then embeddingRequests w' = embeddingRequests w ++ [trim query]
             /\ answersFor E (trim query) v
        else embeddingRequests w' = embeddingRequests w
             /\ v = randomRun E (randomCalls w) 1536
             /\ length v = 1536%nat).
Proof.
  rewrite generateQueryEmbedding_run.
  destruct (hasApiKey E && nonBlank (trim query)).
  - unfold answersFor.
    destruct (embeddingService E (trim query)); eexists _, _;
      (split; [reflexivity|]); (split; [repeat split|]);
      (split; [reflexivity|]); try reflexivity; apply randomRun_length.
  - eexists _, _. split; [reflexivity|]. split; [repeat split|].
    split; [reflexivity|]. split; [reflexivity | apply randomRun_length].
Qed.

(** ** The chat route, request by request *)

Section ChatRunFacts.

Import Chat.

Variable E : Env.

Lemma getDocumentStore_run (w : World) :
  exists w0,
    getDocumentStore w = (Returned (storeOf w), w0)
    /\ storeOf w0 = storeOf w
    /\ sessionMetaStore w0 = sessionMetaStore w
    /\ uploads w0 = uploads w
    /\ randomCalls w0 = randomCalls w
    /\ uuidCalls w0 = uuidCalls w
    /\ embeddingRequests w0 = embeddingRequests w
    /\ (documentStore w <> None -> w0 = w).
Proof.
  unfold getDocumentStore, storeOf.
  destruct (documentStore w) eqn:Hd.
  - exists w. repeat split. now rewrite Hd.
  - eexists. split; [reflexivity|]. repeat split. congruence.
Qed.

(** The [if (useRAG)] block, case by case. *)
Lemma processMessages_rag (msgs : list Message) (session : option jsstring)
  (w : World) :
  exists w0,
    getDocumentStore w = (Returned (storeOf w), w0)
    /\ processMessages E msgs true session w
       = match sessionDocuments (storeOf w) session with
         | Some docs =>
             if (0 <? JsMap.size docs)%nat then
               match lastUserMessage msgs with
               | Some u =>
                   if truthy (content u) then
                     match generateQueryEmbedding E (content u) w0 with
                     | (Returned q, w') =>
                         (Returned
                            (if (0 <? length
                                        (retrieveRelevantChunks q docs
                                           defaultTopK))%nat
                             then slice msgs 0 (-1)
                                  ++ [contextMessage
                                        (retrieveRelevantChunks q docs
                                           defaultTopK);
                                      u]
                             else msgs),
                          w')
                     | (Thrown _, w') => (Returned msgs, w')
                     end
                   else (Returned msgs, w0)
               | None => (Returned msgs, w0)
               end
             else (Returned msgs, w0)
         | None => (Returned msgs, w0)
         end.
Proof.
  destruct (getDocumentStore_run w) as (w0 & Hget & _).
  exists w0. split; [exact Hget|].
  unfold processMessages, tryCatch, bind. rewrite Hget.
  destruct (sessionDocuments (storeOf w) session) as [docs|]; [|reflexivity].
  destruct (0 <? JsMap.size docs)%nat; [|reflexivity].
  destruct (lastUserMessage msgs) as [u|]; [|reflexivity].
  destruct (truthy (content u)); [|reflexivity].
  destruct (generateQueryEmbedding E (content u) w0) as [[q|e] w'];
    [|reflexivity].
  destruct (0 <? length (retrieveRelevantChunks q docs defaultTopK))%nat;
    reflexivity.
Qed.

Lemma slice_drop_last {X : Type} (l : list X) : slice l 0 (-1) = removelast l.
Proof.
  unfold slice, clampIndex.
  replace (0 <? 0)%Z with false by reflexivity.
  replace (-1 <? 0)%Z with true by reflexivity.
  rewrite Z.min_l by lia. cbn [Z.to_nat skipn]. rewrite Z.sub_0_r.
  rewrite removelast_firstn_len. f_equal.
  destruct l; simpl length; lia.
Qed.

End ChatRunFacts.

Section ChatFrameFacts.

Import Chat.

Variable E : Env.

(** What a query embedding leaves behind. *)
Lemma generateQueryEmbedding_frame (query : jsstring) (w : World) :
  exists v w',
    generateQueryEmbedding E query w = (Returned v, w')
    /\ documentStore w' = documentStore w
    /\ sessionMetaStore w' = sessionMetaStore w
    /\ uploads w' = uploads w
    /\ uuidCalls w' = uuidCalls w
    /\ (embeddingRequests w' = embeddingRequests w
        \/ embeddingRequests w' = embeddingRequests w ++ [trim query]).
Proof.
  rewrite generateQueryEmbedding_run.
  destruct (hasApiKey E && nonBlank (trim query)).
  - destruct (embeddingService E (trim query)); eexists _, _;
      (split; [reflexivity|]); repeat split; now right.
  - eexists _, _. split; [reflexivity|]. repeat split. now left.
Qed.

Lemma last_some_In {X : Type} (l : list X) (x : X) :
  last (map Some l) None = Some x -> In x l.
Proof.
  induction l as [|y l IH]; [discriminate|].
  destruct l as [|z l].
  - simpl. intro H. injection H as ->. now left.
  - intro H. right. apply IH. exact H.
Qed.

Lemma lastUserMessage_user (msgs : list Message) (u : Message) :
  lastUserMessage msgs = Some u -> In u msgs /\ role u = lit "user".
Proof.
  unfold lastUserMessage. intro H. apply last_some_In in H.
  apply filter_In in H as [Hin Hrole]. split; [exact Hin|].
  now apply str_eqb_eq.
Qed.

Lemma processMessages_frame (msgs : list Message) (rag : bool)
  (session : option jsstring) (w : World) :
  exists processed w',
    processMessages E msgs rag session w = (Returned processed, w')
    /\ storeOf w' = storeOf w
    /\ sessionMetaStore w' = sessionMetaStore w
    /\ uploads w' = uploads w
    /\ uuidCalls w' = uuidCalls w
    /\ (embeddingRequests w' = embeddingRequests w
        \/ exists query,
             embeddingRequests w' = embeddingRequests w ++ [query])
    /\ (rag = false -> w' = w /\ processed = msgs).
Proof.
  destruct rag.
  2:{ exists msgs, w. split; [reflexivity|]. repeat split. now left. }
  destruct (getDocumentStore_run w)
    as (w0 & Hget & Hs0 & Hm0 & Hu0 & _ & Hi0 & Hr0 & _).
  destruct (processMessages_rag E msgs session w) as (w1 & Hget1 & ->).
  rewrite Hget in Hget1. injection Hget1 as <-.
  assert (Hquiet : exists processed w',
             (Returned msgs, w0) = (Returned processed, w')
             /\ storeOf w' = storeOf w
             /\ sessionMetaStore w' = sessionMetaStore w
             /\ uploads w' = uploads w
             /\ uuidCalls w' = uuidCalls w
             /\ (embeddingRequests w' = embeddingRequests w
                 \/ exists query,
                      embeddingRequests w' = embeddingRequests w ++ [query])
             /\ (true = false -> w' = w /\ processed = msgs)).
  { exists msgs, w0. split; [reflexivity|]. repeat split; try assumption;
      try discriminate. now left. }
  destruct (sessionDocuments (storeOf w) session) as [docs|]; [|exact Hquiet].
  destruct (0 <? JsMap.size docs)%nat; [|exact Hquiet].
  destruct (lastUserMessage msgs) as [u|]; [|exact Hquiet].
  destruct (truthy (content u)); [|exact Hquiet].
  destruct (generateQueryEmbedding_frame (content u) w0)
    as (q & w' & -> & Hd & Hm & Hu & Hi & Hr).
  eexists _, w'. split; [reflexivity|].
  split; [unfold storeOf in *; now rewrite Hd|].
  split; [congruence|]. split; [congruence|]. split; [congruence|].
  split; [|discriminate].
  destruct Hr as [Hr | Hr]; [left; congruence|].
  right. exists (trim (content u)). congruence.
Qed.

End ChatFrameFacts.


(** X12. What the chat route forwards when the store holds a map of
    documents under the session id (credential set, [useRAG] on, a last
    user message with content).  The query vector is the one
    [generateQueryEmbedding] returns for the content of the last message
    whose role is [user].  When no chunk is retrieved the messages go out
    as they came.  Otherwise the list that goes out is the request's list
    without its last message, then a [system] message whose content is the
    fixed preamble followed by the retrieved chunks, at most three, joined
    by a rule, then the last user message: one message more than came in,
    and the message that was last in the request is left out when it is
    not that user message. *)
Theorem chat_inserts_context (E : Env) (msgs : list Chat.Message)
  (id : jsstring) (docs : JsMap.t DocumentData) (u : Chat.Message)
  (w : World) :
  hasApiKey E = true ->
  id <> [] ->
  JsMap.get (storeOf w) id = Some (SessionEntry docs) ->
  docs <> [] ->
  Chat.lastUserMessage msgs = Some u ->
  Chat.content u <> [] ->
  exists q w',
    Chat.generateQueryEmbedding E (Chat.content u) w = (Returned q, w')
    /\ Chat.POST E (Chat.mkRequest (Some msgs) true (Some id)) w
       = (Returned
            (Chat.Forwarded
               (match Chat.retrieveRelevantChunks q docs 3 with
                | [] => msgs
                | _ :: _ =>
                    removelast msgs
                    ++ [Chat.mkMessage (lit "system")
                          (Chat.contextPrefix
                           ++ join Chat.chunkSeparator
                                (Chat.retrieveRelevantChunks q docs 3));
                        u]
                end)),
          w')
    /\ (length (Chat.retrieveRelevantChunks q docs 3) <= 3)%nat
    /\ In u msgs
    /\ Chat.role u = lit "user"
    /\ (Chat.retrieveRelevantChunks q docs 3 <> [] ->
        length
          (removelast msgs
           ++ [Chat.contextMessage (Chat.retrieveRelevantChunks q docs 3); u])
        = S (length msgs)).
Proof.
  intros Hkey Hid Hget Hdocs Hlast Hcontent.
  destruct (lastUserMessage_user msgs u Hlast) as [Hin Hrole].
  assert (Hstore : documentStore w <> None).
  { intro H. unfold storeOf in Hget. rewrite H in Hget. discriminate. }
  destruct (getDocumentStore_run w) as (w0 & Hrun0 & _ & _ & _ & _ & _ & _ & Hsame).
  specialize (Hsame Hstore). subst w0.
  destruct (generateQueryEmbedding_frame E (Chat.content u) w)
    as (q & w' & Hq & _).
  exists q, w'. split; [exact Hq|].
  assert (Hlen : (length (Chat.retrieveRelevantChunks q docs 3) <= 3)%nat).
  { rewrite retrieveRelevantChunks_length.
    change (Z.to_nat (Chat.clampTopK 3)) with 3%nat. lia. }
  split.
  - unfold Chat.POST. rewrite Hkey. cbn [negb Chat.messages Chat.useRAG
      Chat.sessionId].
    destruct (processMessages_rag E msgs (Some id) w) as (w1 & Hrun1 & Hrun).
    rewrite Hrun0 in Hrun1. injection Hrun1 as <-.
    unfold bind. rewrite Hrun. clear Hrun.
    unfold Chat.sessionDocuments, JsMap.has. rewrite Hget.
    replace (truthy id) with true
      by (destruct id; [congruence | reflexivity]).
    cbn [andb].
    replace (0 <? JsMap.size docs)%nat with true
      by (destruct docs; [congruence | reflexivity]).
    rewrite Hlast.
    replace (truthy (Chat.content u)) with true
      by (destruct (Chat.content u); [congruence | reflexivity]).
    rewrite Hq. unfold Chat.defaultTopK, ret.
    rewrite slice_drop_last.
    destruct (Chat.retrieveRelevantChunks q docs 3); reflexivity.
  - split; [exact Hlen|]. split; [exact Hin|]. split; [exact Hrole|].
    intros _. rewrite length_app. cbn [length].
    assert (Hne : msgs <> []) by (intro H; subst msgs; contradiction).
    destruct (exists_last Hne) as (front & m & ->).
    rewrite removelast_last, length_app. simpl. lia.
Qed.

Lemma chat_inserts_context_witness :
  let E := demoEnv (Some (lit "key")) demoText in
  let doc :=
    mkDocumentData (lit "f1") (lit "a.pdf") [lit "alpha"; lit "beta"]
      [repeat 1%float 1536; repeat 2%float 1536] 0 in
  let w :=
    mkWorld (Some [(lit "s1", SessionEntry [(lit "f1", doc)])])
      None None 0 0 [] in
  let question := Chat.mkMessage (lit "user") (lit "Hello world") in
  let answer := Chat.mkMessage (lit "assistant") (lit "Hi") in
  exists q w',
    Chat.generateQueryEmbedding E (lit "Hello world") w = (Returned q, w')
    /\ (length (Chat.retrieveRelevantChunks q [(lit "f1", doc)] 3) <= 3)%nat
    /\ In question [question; answer].
Proof.
  cbv zeta.
  destruct (chat_inserts_context (demoEnv (Some (lit "key")) demoText)
              [Chat.mkMessage (lit "user") (lit "Hello world");
               Chat.mkMessage (lit "assistant") (lit "Hi")]
              (lit "s1")
              [(lit "f1",
                mkDocumentData (lit "f1") (lit "a.pdf")
                  [lit "alpha"; lit "beta"]
                  [repeat 1%float 1536; repeat 2%float 1536] 0)]
              (Chat.mkMessage (lit "user") (lit "Hello world"))
              (mkWorld
                 (Some
                    [(lit "s1",
                      SessionEntry
                        [(lit "f1",
                          mkDocumentData (lit "f1") (lit "a.pdf")
                            [lit "alpha"; lit "beta"]
                            [repeat 1%float 1536; repeat 2%float 1536] 0)])])
                 None None 0 0 []))
    as (q & w' & Hq & _ & Hlen & Hin & _).
  - reflexivity.
  - discriminate.
  - reflexivity.
  - discriminate.
  - reflexivity.
  - discriminate.
  - exists q, w'. split; [exact Hq|]. split; [exact Hlen | exact Hin].
Defined.

(** ** Session cleanup *)

Section SessionCleanupFacts.

Lemma delete_delete {V : Type} (m : JsMap.t V) (k : jsstring) :
  JsMap.delete (JsMap.delete m k) k = JsMap.delete m k.
Proof.
  induction m as [|[k' v'] m IH]; simpl; [reflexivity|].
  destruct (str_eqb k' k) eqn:Ek; [exact IH|].
  simpl. now rewrite Ek, IH.
Qed.

Lemma has_get {V : Type} (m : JsMap.t V) (k : jsstring) :
  JsMap.has m k = false <-> JsMap.get m k = None.
Proof.
  unfold JsMap.has. destruct (JsMap.get m k); split; congruence.
Qed.

(** [clearDocumentStoreForSession] in one step. *)
Lemma clearDocumentStoreForSession_run (sessionId : jsstring) (w : World) :
  Cleanup.clearDocumentStoreForSession sessionId w
  = (Returned (if JsMap.has (storeOf w) sessionId then 1%nat else 0%nat),
     mkWorld
       (option_map (fun ds => JsMap.delete ds sessionId) (documentStore w))
       (option_map (fun sm => JsMap.delete sm sessionId) (sessionMetaStore w))
       (uploads w) (randomCalls w) (uuidCalls w) (embeddingRequests w)).
Proof.
  unfold Cleanup.clearDocumentStoreForSession, bind, getWorld, putWorld, ret,
    storeOf, setSessionMetaStore, setDocumentStore.
  cbn [documentStore sessionMetaStore uploads randomCalls uuidCalls
       embeddingRequests].
  destruct (documentStore w); reflexivity.
Qed.

Lemma get_option_delete {V : Type} (store : option (JsMap.t V))
  (k key : jsstring) :
  JsMap.get
    (match option_map (fun m => JsMap.delete m k) store with
     | Some m => m
     | None => JsMap.empty
     end) key
  = if str_eqb k key then None
    else JsMap.get (match store with Some m => m | None => JsMap.empty end) key.
Proof.
  destruct store as [m|]; simpl; [apply get_delete|].
  now destruct (str_eqb k key).
Qed.

End SessionCleanupFacts.

(** X13. [clearDocumentStoreForSession] reports 1 when the document store
    had an entry under the session id and 0 otherwise.  Afterwards neither
    the document store nor the activity map has an entry under that id,
    and the entries under every other key are what they were; a global that
    was not set is not created, and the uploads directory is not touched.
    Called again, it reports 0 and changes nothing. *)
Theorem clearDocumentStoreForSession_clears (sessionId : jsstring)
  (w : World) :
  exists cleared w',
    Cleanup.clearDocumentStoreForSession sessionId w = (Returned cleared, w')
    /\ cleared = (if JsMap.has (storeOf w) sessionId then 1 else 0)%nat
    /\ JsMap.get (storeOf w') sessionId = None
    /\ JsMap.get (activityOf w') sessionId = None
    /\ (forall key,
          key <> sessionId ->
          JsMap.get (storeOf w') key = JsMap.get (storeOf w) key
          /\ JsMap.get (activityOf w') key = JsMap.get (activityOf w) key)
    /\ (documentStore w = None -> documentStore w' = None)
    /\ (sessionMetaStore w = None -> sessionMetaStore w' = None)
    /\ uploads w' = uploads w
    /\ Cleanup.clearDocumentStoreForSession sessionId w'
       = (Returned 0%nat, w').
Proof.
  eexists _, _. split; [apply clearDocumentStoreForSession_run|].
  split; [reflexivity|].
  unfold storeOf, activityOf.
  cbn [documentStore sessionMetaStore uploads].
  split; [rewrite get_option_delete; now rewrite str_eqb_refl|].
  split; [rewrite get_option_delete; now rewrite str_eqb_refl|].
  split.
  { intros key Hkey. rewrite !get_option_delete.
    replace (str_eqb sessionId key) with false; [split; reflexivity|].
    symmetry. apply str_eqb_neq. congruence. }
  split; [intros ->; reflexivity|]. split; [intros ->; reflexivity|].
  split; [reflexivity|].
  rewrite clearDocumentStoreForSession_run. unfold storeOf.
  cbn [documentStore sessionMetaStore uploads randomCalls uuidCalls
       embeddingRequests].
  assert (Hgone : JsMap.has
            (match option_map (fun ds => JsMap.delete ds sessionId)
                     (documentStore w) with
             | Some store => store
             | None => JsMap.empty
             end) sessionId = false).
  { apply has_get. rewrite get_option_delete. now rewrite str_eqb_refl. }
  rewrite Hgone. f_equal. f_equal.
  - destruct (documentStore w); simpl; [now rewrite delete_delete | reflexivity].
  - destruct (sessionMetaStore w); simpl;
      [now rewrite delete_delete | reflexivity].
Qed.

Section CookieCleanupFacts.

Variable E : Env.

(** [clearUploadsDirForSession] in one step. *)
Lemma clearUploadsDirForSession_run (ensureDirectory : bool)
  (sessionId : jsstring) (w : World) :
  exists failure,
    Cleanup.clearUploadsDirForSession ensureDirectory sessionId w
    = match uploads w with
      | Some files =>
          (Returned (length (filter (ownedBy sessionId) files), None),
           setUploads w (Some (withoutOwned sessionId files)))
      | None =>
          if ensureDirectory then (Returned (0%nat, None), setUploads w (Some []))
          else (Returned (0%nat, Some failure), w)
      end.
Proof.
  unfold Cleanup.clearUploadsDirForSession.
  destruct w as [ds sm up rc uc er]. destruct up as [files|].
  - exists []. cbn [uploads]. apply tryCatch_returned.
    destruct ensureDirectory; unfold bind at 1; simpl;
      unfold bind at 1; unfold Fs.readdir; simpl uploads; cbv iota;
      unfold bind at 1;
      rewrite (unlinkOwned_listing sessionId files
                 (mkWorld ds sm (Some files) rc uc er) eq_refl);
      reflexivity.
  - destruct ensureDirectory.
    + exists []. reflexivity.
    + eexists. cbn [uploads]. unfold tryCatch, bind, Fs.readdir, ret. cbn [uploads]. reflexivity.
Qed.


End CookieCleanupFacts.



(** ** The upload routes, step by step *)

Section UploadRunFacts.

Import UploadCommon.

Variable E : Env.

Lemma validate_none (file : option File) :
  validate file = None <->
  exists f,
    file = Some f /\ (size f <= MAX_FILE_SIZE)%Z
    /\ existsb (str_eqb (type f)) ALLOWED_TYPES = true.
Proof.
  unfold validate. destruct file as [f|].
  - destruct (MAX_FILE_SIZE <? size f)%Z eqn:Hs.
    + apply Z.ltb_lt in Hs. split; [discriminate|].
      intros (g & Hg & Hle & _). injection Hg as <-. lia.
    + apply Z.ltb_ge in Hs.
      destruct (existsb (str_eqb (type f)) ALLOWED_TYPES) eqn:Ht; cbn [negb].
      * split; [|reflexivity]. intros _. exists f. auto.
      * split; [discriminate|].
        intros (g & Hg & _ & Hin). injection Hg as <-. congruence.
  - split; [discriminate|]. intros (g & Hg & _). discriminate.
Qed.


(** The session id is settled first, also for a request that is refused
    afterwards. *)
Lemma session_run (cookie : option jsstring) (w : World) :
  Upload.session E cookie w
  = (Returned (sessionOf E cookie w, issuedCookie E cookie w),
     afterUuid (idsDrawn cookie - 1) w).
Proof.
  unfold Upload.session, sessionOf, issuedCookie, idsDrawn, afterUuid.
  destruct w as [ds sm up rc uc er].
  destruct cookie as [[|c id]|]; cbn [truthyOpt truthy]; cbv iota;
    unfold bind, freshUuid, ret;
    cbn [documentStore sessionMetaStore uploads randomCalls uuidCalls
         embeddingRequests Nat.sub];
    repeat f_equal; lia.
Qed.

Lemma Upload_POST_refused (request : Upload.Request) (refusal : Response)
  (w : World) :
  validate (Upload.file request) = Some refusal ->
  Upload.POST E request w
  = (Returned (refusal, issuedCookie E (Upload.cookie request) w),
     afterUuid (idsDrawn (Upload.cookie request) - 1) w).
Proof.
  intro Hv. unfold Upload.POST. unfold bind at 1. rewrite session_run.
  now rewrite Hv.
Qed.

Lemma Upload_POST_accepted (request : Upload.Request) (f : File) (w : World) :
  Upload.file request = Some f -> validate (Some f) = None ->
  Upload.POST E request w
  = bind
      (respond E (fileIdOf E (Upload.cookie request) w) f
         (processingBody E request f w))
      (fun response =>
         ret (response, issuedCookie E (Upload.cookie request) w))
      (afterWrite
         (Upload.storedName (sessionOf E (Upload.cookie request) w)
            (fileIdOf E (Upload.cookie request) w) (Fs.extname (name f)))
         (afterUuid (idsDrawn (Upload.cookie request)) w)).
Proof.
  intros Hf Hv. unfold Upload.POST. unfold bind at 1. rewrite session_run.
  rewrite Hf, Hv. unfold processingBody.
  set (sid := sessionOf E (Upload.cookie request) w).
  set (fid := fileIdOf E (Upload.cookie request) w).
  set (stored := Upload.storedName sid fid (Fs.extname (name f))).
  assert (Hfid : uuid E (uuidCalls w + (idsDrawn (Upload.cookie request) - 1))
                 = fid).
  { unfold fid, fileIdOf, idsDrawn.
    destruct (Upload.cookie request) as [[|c id]|]; cbn [truthyOpt truthy];
      f_equal; lia. }
  destruct w as [ds sm up rc uc er].
  unfold afterUuid, afterWrite, setUploads, filesOf, written in *.
  cbn [documentStore sessionMetaStore uploads randomCalls uuidCalls
       embeddingRequests] in *.
  unfold bind at 1. unfold Fs.mkdir at 1. cbn [uploads].
  assert (Hcalls : S (uc + (idsDrawn (Upload.cookie request) - 1))
                   = (uc + idsDrawn (Upload.cookie request))%nat).
  { unfold idsDrawn. destruct (truthyOpt (Upload.cookie request)); lia. }
  destruct up as [files|];
    unfold bind at 1; unfold freshUuid at 1; unfold setUploads;
    cbn [documentStore sessionMetaStore uploads randomCalls uuidCalls
         embeddingRequests];
    rewrite Hfid, Hcalls; fold stored;
    unfold bind at 1; unfold tryCatch at 1; unfold bind at 1;
    unfold Fs.writeFile at 1; unfold setUploads;
    cbn [documentStore sessionMetaStore uploads randomCalls uuidCalls
         embeddingRequests existsb app];
    reflexivity.
Qed.

(** The tail of the upload handlers always answers; the state it leaves
    is the one the processing route left, when it was reached. *)
Lemma respond_state (fileId : jsstring) (file : File)
  (b : ProcessDocument.Body) (w : World) :
  exists response,
    respond E fileId file b w
    = (Returned response,
       if internalServiceUp E then snd (ProcessDocument.POST E (Some b) w)
       else w)
    /\ status response = 200%Z
    /\ property (body response) "success" = JBool true
    /\ property (body response) "fileId" = JStr fileId
    /\ property (body response) "filename" = JStr (name file).
Proof.
  unfold respond, processDocument, tryCatch.
  destruct (internalServiceUp E).
  - destruct (POST_outcome E (Some b) w) as (r & w' & Hrun & _).
    unfold bind. rewrite Hrun. cbn [snd].
    destruct ((200 <=? status r)%Z && (status r <? 300)%Z);
      eexists; (split; [reflexivity|]); repeat split.
  - unfold bind, throw. eexists. split; [reflexivity|]. repeat split.
Qed.

End UploadRunFacts.

Section UploadAnswerFacts.

Import UploadCommon.

Variable E : Env.



End UploadAnswerFacts.





(** ** What no sequence of requests changes *)

Section InvariantFacts.

Variable E : Env.

Lemma untracked_same (w w' : World) :
  storeOf w' = storeOf w -> sessionMetaStore w' = sessionMetaStore w ->
  untracked w -> untracked w'.
Proof.
  intros Hs Hm [Hnone Hdocs]. split; [congruence|].
  unfold onlyDocuments in *. now rewrite Hs.
Qed.

Lemma untracked_process (request : option ProcessDocument.Body) (w : World) :
  untracked w -> untracked (snd (ProcessDocument.POST E request w)).
Proof.
  intros [Hnone Hdocs]. split; [|now apply POST_onlyDocuments].
  destruct (POST_outcome E request w) as (r & w' & Hrun & _ & Hm & _).
  rewrite Hrun. cbn [snd]. congruence.
Qed.

Lemma untracked_chat (request : Chat.Request) (w : World) :
  untracked w -> untracked (snd (Chat.POST E request w)).
Proof.
  intro Hw. unfold Chat.POST.
  destruct (negb (hasApiKey E)); [exact Hw|].
  destruct (Chat.messages request) as [msgs|]; [|exact Hw].
  destruct (processMessages_frame E msgs (Chat.useRAG request)
              (Chat.sessionId request) w)
    as (processed & w' & Hrun & Hs & Hm & _).
  unfold bind. rewrite Hrun. cbn [snd ret].
  now apply (untracked_same w w').
Qed.

(** Without an activity map the idle sweep finds nothing to reclaim. *)
Lemma cleanupIdleSessions_idle (idleMs : Z) (w : World) :
  sessionMetaStore w = None ->
  Cleanup.cleanupIdleSessions E idleMs w = (Returned 0%nat, w).
Proof.
  intro Hnone. rewrite cleanupIdleSessions_spec.
  unfold swept, activityOf. now rewrite Hnone.
Qed.

Lemma untracked_cleared (sessionId : jsstring) (w : World)
  (up : option (list jsstring)) (rc uc : nat) (er : list jsstring) :
  untracked w ->
  untracked
    (mkWorld
       (option_map (fun ds => JsMap.delete ds sessionId) (documentStore w))
       (option_map (fun sm => JsMap.delete sm sessionId) (sessionMetaStore w))
       up rc uc er).
Proof.
  intros [Hnone Hdocs]. split.
  - cbn [sessionMetaStore]. now rewrite Hnone.
  - intros key v. unfold storeOf. cbn [documentStore].
    rewrite get_option_delete.
    destruct (str_eqb sessionId key); [discriminate|]. apply Hdocs.
Qed.

Lemma untracked_cleanup (ensureDirectory : bool) (cookie : option jsstring)
  (w : World) :
  untracked w -> untracked (snd (Cleanup.POST E ensureDirectory cookie w)).
Proof.
  intro Hw. pose proof Hw as [Hnone Hdocs].
  unfold Cleanup.POST. unfold bind at 1.
  rewrite (cleanupIdleSessions_idle _ w Hnone).
  destruct cookie as [sessionId|]; [|exact Hw].
  destruct (truthy sessionId); [|exact Hw].
  destruct (clearUploadsDirForSession_run ensureDirectory sessionId w)
    as (failure & Hclear).
  unfold bind at 1. rewrite Hclear.
  destruct (uploads w) as [files|]; [|destruct ensureDirectory];
    unfold bind at 1; rewrite clearDocumentStoreForSession_run;
    cbn [snd ret setUploads documentStore sessionMetaStore uploads
         randomCalls uuidCalls embeddingRequests];
    now apply untracked_cleared.
Qed.

Lemma untracked_respond (fileId : jsstring) (file : UploadCommon.File)
  (b : ProcessDocument.Body) (w : World) :
  untracked w -> untracked (snd (UploadCommon.respond E fileId file b w)).
Proof.
  intro Hw. destruct (respond_state E fileId file b w) as (r & Hrun & _).
  rewrite Hrun. cbn [snd].
  destruct (internalServiceUp E); [now apply untracked_process | exact Hw].
Qed.

Lemma untracked_upload (request : Upload.Request) (w : World) :
  untracked w -> untracked (snd (Upload.POST E request w)).
Proof.
  intro Hw.
  destruct (UploadCommon.validate (Upload.file request)) as [refusal|] eqn:Hv.
  - rewrite (Upload_POST_refused E request refusal w Hv). cbn [snd].
    now apply (untracked_same w).
  - apply validate_none in Hv as Hf. destruct Hf as (f & Hf & _).
    rewrite Hf in Hv.
    rewrite (Upload_POST_accepted E request f w Hf Hv).
    unfold bind.
    match goal with
    | |- untracked (snd (match UploadCommon.respond E ?i ?f ?b ?w4 with _ => _ end)) =>
        pose proof (untracked_respond i f b w4) as Hr;
        destruct (respond_state E i f b w4) as (r & Hrun & _)
    end.
    rewrite Hrun in *. cbn [snd ret] in *. apply Hr.
    now apply (untracked_same w).
Qed.

Lemma UploadPlain_POST_accepted (f : UploadCommon.File) (w : World) :
  UploadCommon.validate (Some f) = None ->
  UploadPlain.POST E (Some f) w
  = UploadCommon.respond E (uuid E (uuidCalls w)) f
      (ProcessDocument.mkBody [] (uuid E (uuidCalls w)) (UploadCommon.name f)
         (lit "uploads/"
          ++ UploadPlain.storedName (uuid E (uuidCalls w))
               (Fs.extname (UploadCommon.name f)))
         (UploadCommon.type f))
      (afterWrite
         (UploadPlain.storedName (uuid E (uuidCalls w))
            (Fs.extname (UploadCommon.name f)))
         (afterUuid 1 w)).
Proof.
  intro Hv. unfold UploadPlain.POST. rewrite Hv.
  destruct w as [ds sm up rc uc er].
  unfold afterUuid, afterWrite, setUploads, filesOf, written.
  cbn [documentStore sessionMetaStore uploads randomCalls uuidCalls
       embeddingRequests].
  replace (uc + 1)%nat with (S uc) by lia.
  unfold bind at 1. unfold Fs.mkdir at 1. cbn [uploads].
  destruct up as [files|];
    unfold bind at 1; unfold freshUuid at 1; unfold setUploads;
    cbn [documentStore sessionMetaStore uploads randomCalls uuidCalls
         embeddingRequests];
    unfold bind at 1; unfold tryCatch at 1; unfold bind at 1;
    unfold Fs.writeFile at 1; unfold setUploads;
    cbn [documentStore sessionMetaStore uploads randomCalls uuidCalls
         embeddingRequests existsb app];
    reflexivity.
Qed.

Lemma untracked_uploadPlain (file : option UploadCommon.File) (w : World) :
  untracked w -> untracked (snd (UploadPlain.POST E file w)).
Proof.
  intro Hw.
  destruct (UploadCommon.validate file) as [refusal|] eqn:Hv.
  - unfold UploadPlain.POST. rewrite Hv. exact Hw.
  - apply validate_none in Hv as Hf. destruct Hf as (f & -> & _).
    rewrite (UploadPlain_POST_accepted f w Hv).
    apply untracked_respond. now apply (untracked_same w).
Qed.

Lemma untracked_serve (call : Call) (w : World) :
  untracked w -> untracked (serve E call w).
Proof.
  destruct call; cbn [serve].
  - apply untracked_process.
  - apply untracked_chat.
  - apply untracked_cleanup.
  - apply untracked_upload.
  - apply untracked_uploadPlain.
Qed.

End InvariantFacts.

Lemma untracked_serveAll (calls : list (Env * Call)) :
  forall w, untracked w -> untracked (serveAll calls w).
Proof.
  induction calls as [|[E call] calls IH]; intros w Hw; cbn [serveAll].
  - exact Hw.
  - apply IH. now apply untracked_serve.
Qed.

Lemma untracked_fresh : untracked freshWorld.
Proof. split; [reflexivity | exact onlyDocuments_fresh]. Qed.

(** X15. None of the five routes records activity: in a process that
    started fresh the activity map is not set after any sequence of
    requests to the processing, chat, cleanup and upload routes, whatever
    each request finds around it.  The idle sweep therefore returns 0 and
    leaves the state as it is, for every threshold, and the cleanup route
    always reports [idleCleaned: 0] and leaves the activity map unset. *)
Theorem routes_record_no_activity (calls : list (Env * Call)) (E : Env)
  (idleMs : Z) (ensureDirectory : bool) (cookie : option jsstring) :
  sessionMetaStore (serveAll calls freshWorld) = None
  /\ Cleanup.cleanupIdleSessions E idleMs (serveAll calls freshWorld)
     = (Returned 0%nat, serveAll calls freshWorld)
  /\ exists response w',
       Cleanup.POST E ensureDirectory cookie (serveAll calls freshWorld)
       = (Returned response, w')
       /\ UploadCommon.property (body response) "idleCleaned" = JInt 0
       /\ sessionMetaStore w' = None.
Proof.
  destruct (untracked_serveAll calls freshWorld untracked_fresh)
    as [Hnone _].
  set (w := serveAll calls freshWorld) in *.
  split; [exact Hnone|].
  split; [now apply cleanupIdleSessions_idle|].
  unfold Cleanup.POST. unfold bind at 1.
  rewrite (cleanupIdleSessions_idle E _ w Hnone).
  destruct cookie as [sessionId|];
    [|eexists _, _; split; [reflexivity|]; split;
      [reflexivity | exact Hnone]].
  destruct (truthy sessionId);
    [|eexists _, _; split; [reflexivity|]; split;
      [reflexivity | exact Hnone]].
  destruct (clearUploadsDirForSession_run ensureDirectory sessionId w)
    as (failure & Hclear).
  unfold bind at 1. rewrite Hclear.
  destruct (uploads w) as [files|]; [|destruct ensureDirectory];
    unfold bind at 1; rewrite clearDocumentStoreForSession_run;
    eexists _, _; (split; [reflexivity|]); (split; [reflexivity|]);
    cbn [sessionMetaStore setUploads]; now rewrite Hnone.
Qed.

(** X16. No sequence of requests to the five routes makes the chat route
    insert a context message.  In a process that started fresh, every
    entry of the document store is a document under the key it was stored
    with, after any requests to the processing, chat, cleanup and upload
    routes; the chat route looks for a map of documents under the session
    id, finds none, and either answers with an error of its own or
    forwards the messages exactly as they came, whatever the cookie and
    whatever [useRAG]. *)
Theorem chat_never_inserts_context (calls : list (Env * Call)) (E : Env)
  (request : Chat.Request) :
  onlyDocuments (serveAll calls freshWorld)
  /\ exists result w',
       Chat.POST E request (serveAll calls freshWorld) = (Returned result, w')
       /\ match result with
          | Chat.Forwarded processed =>
              Chat.messages request = Some processed
          | Chat.Rejected response => status response <> 200%Z
          end.
Proof.
  destruct (untracked_serveAll calls freshWorld untracked_fresh)
    as [_ Hdocs].
  split; [exact Hdocs|].
  unfold Chat.POST.
  destruct (negb (hasApiKey E)).
  - eexists _, _. split; [reflexivity|]. discriminate.
  - destruct (Chat.messages request) as [msgs|].
    + destruct (processMessages_unchanged E msgs (Chat.useRAG request)
                  (Chat.sessionId request) _ Hdocs) as [w' Hrun].
      exists (Chat.Forwarded msgs), w'. split; [|reflexivity].
      unfold bind. now rewrite Hrun.
    + eexists _, _. split; [reflexivity|]. discriminate.
Qed.

(** ** Documents that outlive their session *)

Section LeakFacts.

Variable E : Env.

(** The document store after the cleanup route, when no activity is
    recorded. *)
Lemma Cleanup_POST_store (ensureDirectory : bool) (cookie : option jsstring)
  (w : World) (key : jsstring) :
  sessionMetaStore w = None ->
  JsMap.get (storeOf (snd (Cleanup.POST E ensureDirectory cookie w))) key
  = match cookie with
    | Some sessionId =>
        if truthy sessionId && str_eqb sessionId key then None
        else JsMap.get (storeOf w) key
    | None => JsMap.get (storeOf w) key
    end.
Proof.
  intro Hnone. unfold Cleanup.POST. unfold bind at 1.
  rewrite (cleanupIdleSessions_idle E _ w Hnone).
  destruct cookie as [sessionId|]; [|reflexivity].
  destruct (truthy sessionId); [|reflexivity]. cbn [andb].
  destruct (clearUploadsDirForSession_run ensureDirectory sessionId w)
    as (failure & Hclear).
  unfold bind at 1. rewrite Hclear.
  destruct (uploads w) as [files|]; [|destruct ensureDirectory];
    unfold bind at 1; rewrite clearDocumentStoreForSession_run;
    cbn [snd ret setUploads]; unfold storeOf;
    cbn [documentStore]; apply get_option_delete.
Qed.

End LeakFacts.

(** X19. Session cleanup removes from the document store the entry under
    the session id and no other.  The processing route stores a document
    under its file id, so in a process that started fresh a document
    outlives every cleanup request whose cookie is not its file id: the
    cleanup of the session that uploaded a file deletes the file and
    leaves its chunks and vectors in memory. *)
Theorem cleanup_keeps_documents (calls : list (Env * Call)) (E : Env)
  (ensureDirectory : bool) (cookie : option jsstring) (key : jsstring) :
  cookie <> Some key ->
  JsMap.get
    (storeOf
       (snd (Cleanup.POST E ensureDirectory cookie
               (serveAll calls freshWorld)))) key
  = JsMap.get (storeOf (serveAll calls freshWorld)) key.
Proof.
  intro Hkey.
  destruct (untracked_serveAll calls freshWorld untracked_fresh)
    as [Hnone _].
  rewrite (Cleanup_POST_store E ensureDirectory cookie _ key Hnone).
  destruct cookie as [sessionId|]; [|reflexivity].
  replace (str_eqb sessionId key) with false; [now rewrite andb_false_r|].
  symmetry. apply str_eqb_neq. congruence.
Qed.

Lemma cleanup_keeps_documents_witness :
  let E := demoEnv None demoText in
  let upload := UploadCall (Upload.mkRequest (Some (lit "s1")) (Some demoFile)) in
  let w := snd (Cleanup.POST E false (Some (lit "s1"))
                  (serveAll [(E, upload)] freshWorld)) in
  Some (lit "s1") <> Some (lit "id-0")
  /\ filesOf (serveAll [(E, upload)] freshWorld) = [lit "s1__id-0.pdf"]
  /\ filesOf w = []
  /\ storedLengths w (lit "id-0") = Some (50%nat, 1%nat).
Proof.
  cbv zeta.
  assert (H : Some (lit "s1") <> Some (lit "id-0")) by discriminate.
  split; [exact H|]. split; [vm_compute; reflexivity|].
  split; [vm_compute; reflexivity|].
  unfold storedLengths.
  rewrite (cleanup_keeps_documents
             [(demoEnv None demoText,
               UploadCall (Upload.mkRequest (Some (lit "s1")) (Some demoFile)))]
             (demoEnv None demoText) false (Some (lit "s1")) (lit "id-0") H).
  vm_compute. reflexivity.
Defined.

(** ** Vectors and windows *)

Section DistinctChunkFacts.

Import ProcessDocument.

Lemma windowChunks_In (clean c : jsstring) :
  In c (windowChunks clean) ->
  In c (map (window clean) (seq 0 (S (innerWindows (length clean))))
        ++ [tailChunk clean]).
Proof.
  unfold windowChunks. intro Hc. apply In_firstn in Hc.
  apply in_app_or in Hc as [Hc | Hc]; apply in_or_app.
  - left. now apply filter_In in Hc as [Hc _].
  - right. apply repeat_spec in Hc. subst c. now left.
Qed.

Lemma windowChunks_trimmed (clean c : jsstring) :
  In c (windowChunks clean) -> trim c = c.
Proof.
  intro Hc. apply windowChunks_In in Hc.
  apply in_app_or in Hc as [Hc | [<- | []]].
  - apply in_map_iff in Hc as (k & <- & _). apply trim_idempotent.
  - apply trim_idempotent.
Qed.

(** The texts that pass validation are among the windows and the tail
    chunk, each at most once. *)
Lemma validated_chunks_bound (text : jsstring) :
  (length (validateAndCleanChunks (chunkText text))
   <= innerWindows (length (trim text)) + 2)%nat.
Proof.
  destruct (trim text) as [|c0 t0] eqn:Ht.
  - destruct (@chunkText_blank text Ht) as [-> _]. simpl. lia.
  - rewrite <- Ht.
    assert (Hne : trim text <> []) by (rewrite Ht; discriminate).
    rewrite (chunkText_windows text Hne).
    set (clean := trim text).
    set (all := map (window clean) (seq 0 (S (innerWindows (length clean))))
                ++ [tailChunk clean]).
    assert (Hincl : incl (validateAndCleanChunks (windowChunks clean)) all).
    { intros x Hx. apply validateAndCleanChunks_In in Hx as (c & Hc & -> & _).
      rewrite (windowChunks_trimmed clean c Hc).
      now apply windowChunks_In. }
    pose proof (NoDup_incl_length
                  (validateAndCleanChunks_NoDup (windowChunks clean)) Hincl)
      as Hle.
    unfold all in Hle. rewrite length_app, length_map, length_seq in Hle.
    simpl length in Hle. lia.
Qed.

End DistinctChunkFacts.

(** X20. A document gets far fewer vectors than chunks.  The chunks of a
    text are its windows followed by copies of one tail chunk, and
    validation keeps each text once, so [generateEmbeddings] returns, for
    the chunks of a text, at most as many vectors as the text has windows,
    plus one: at most 2 vectors for the 50 chunks of a text of up to 1000
    code units after trimming, and 50 vectors only from 48 windows that
    stop short of the end on. *)
Theorem chunk_vectors_bounded (E : Env) (text : jsstring) (w : World) :
  exists vs w',
    ProcessDocument.generateEmbeddings E (ProcessDocument.chunkText text) w
    = (Returned vs, w')
    /\ (length vs <= innerWindows (length (trim text)) + 2)%nat
    /\ ((len (trim text) <= 1000)%Z -> (length vs <= 2)%nat)
    /\ (length vs = 50%nat ->
        (length (ProcessDocument.chunkText text) = 50%nat
         /\ 48 <= innerWindows (length (trim text)))%nat).
Proof.
  destruct (generateEmbeddings_spec E (ProcessDocument.chunkText text) w)
    as (vs & w' & Hrun & Hl & _).
  pose proof (validated_chunks_bound text) as Hb.
  exists vs, w'. split; [exact Hrun|].
  split; [lia|]. split.
  - intro Hshort. unfold innerWindows in Hb.
    replace (length (trim text) <=? 1000)%nat with true in Hb
      by (symmetry; apply Nat.leb_le; unfold len in Hshort; lia).
    lia.
  - intro H50. split; [|lia].
    destruct (trim text) as [|c0 t0] eqn:Ht.
    + destruct (@chunkText_blank text Ht) as [Hnil _].
      rewrite Hnil in Hl. simpl in Hl. lia.
    + assert (Hne : trim text <> []) by (rewrite Ht; discriminate).
      now destruct (@chunkText_run text Hne) as (cs & _ & -> & Hn & _).
Qed.

(** ** Vectors of different lengths *)

Section DimensionFacts.

Import Chat.

Lemma flat_map_In_nil {X Y : Type} (f : X -> list Y) (l : list X) :
  (forall x, In x l -> f x = []) -> flat_map f l = [].
Proof.
  intro H. induction l as [|x l IH]; simpl; [reflexivity|].
  rewrite (H x) by (now left). apply IH. intros y Hy. apply H. now right.
Qed.

Lemma scoreDocuments_none (q : vector) (docs : JsMap.t DocumentData) :
  (forall doc e,
      In doc (JsMap.values docs) -> In e (embeddings doc) ->
      cosineSimilarity q e = 0%float) ->
  scoreDocuments q docs = [].
Proof.
  intro H. rewrite scoreDocuments_paired.
  apply flat_map_In_nil. intros doc Hdoc. unfold pairedScores.
  apply flat_map_In_nil. intros [raw e] Hpair. unfold pairedScore.
  cbn [fst snd]. rewrite (H doc e Hdoc (in_combine_r _ _ _ _ Hpair)).
  replace (PrimFloat.ltb 0 0) with false by reflexivity.
  now rewrite andb_false_r.
Qed.

End DimensionFacts.

(** X21. Only vectors that can be compared with the query are retrieved.
    A stored vector whose length differs from the length of the query
    vector, or whose magnitude is 0, is at similarity 0 from the query, and
    its chunk is never returned: when every stored vector is of that kind,
    or when the query vector itself has magnitude 0, nothing is retrieved.
    A query vector that comes from the embedding endpoint with a length
    other than 1536 thus retrieves nothing from documents whose vectors
    are stand-ins. *)
Theorem retrieval_needs_comparable_vectors (q : vector)
  (docs : JsMap.t DocumentData) (topK : Z) :
  PrimFloat.eqb (magnitude q) 0 = true
  \/ (forall doc e,
        In doc (JsMap.values docs) -> In e (embeddings doc) ->
        length e <> length q \/ PrimFloat.eqb (magnitude e) 0 = true) ->
  Chat.retrieveRelevantChunks q docs topK = [].
Proof.
  intro H. rewrite retrieveRelevantChunks_rank.
  rewrite scoreDocuments_none; [simpl; now rewrite firstn_nil|].
  intros doc e Hdoc He. destruct H as [Hq | Hall].
  - rewrite cosineSimilarity_sym. now apply cosineSimilarity_zero_magnitude.
  - destruct (Hall doc e Hdoc He) as [Hlen | Hzero].
    + apply cosineSimilarity_mismatch. congruence.
    + now apply cosineSimilarity_zero_magnitude.
Qed.

Lemma retrieval_needs_comparable_vectors_witness :
  Chat.retrieveRelevantChunks [1%float; 0%float]
    [(lit "f1",
      mkDocumentData (lit "f1") (lit "a.pdf") [lit "alpha"; lit "beta"]
        [[1%float; 0%float; 0%float]; [0%float; 0%float]] 0)]
    3
  = [].
Proof.
  apply retrieval_needs_comparable_vectors. right.
  intros doc e [<- | []] [<- | [<- | []]].
  - left. discriminate.
  - right. reflexivity.
Defined.

(** ** Chunks and the vectors stored beside them *)

Section AlignmentFacts.

Import ProcessDocument.

Lemma keepNew_app (l : list jsstring) :
  forall seen r,
    keepNew seen (l ++ r) = keepNew seen l ++ keepNew (seen ++ l) r.
Proof.
  induction l as [|x l IH]; intros seen r; cbn [app keepNew].
  - now rewrite app_nil_r.
  - rewrite IH, <- app_assoc. cbn [app].
    now destruct (existsb (str_eqb x) seen).
Qed.

Lemma Forall_firstn {X : Type} (P : X -> Prop) (n : nat) (l : list X) :
  Forall P l -> Forall P (firstn n l).
Proof.
  rewrite !Forall_forall. intros H x Hx. apply H. now apply In_firstn in Hx.
Qed.

Lemma chunkText_solid (text : jsstring) : Forall solidChunk (chunkText text).
Proof.
  destruct (trim text) as [|c0 t0] eqn:E.
  - destruct (@chunkText_blank text E) as [-> _]. constructor.
  - assert (Hne : trim text <> []) by (rewrite E; discriminate).
    now destruct (@chunkText_run text Hne) as (cs & _ & -> & _ & Hall).
Qed.

End AlignmentFacts.

(** X22. Which chunk a stored vector belongs to.  [generateEmbeddings]
    makes its vectors for the texts that pass validation, in their order,
    and the retriever pairs the vector at index [i] with the chunk at
    index [i].  The two orders agree, text for text, exactly when the
    chunks that get a vector are pairwise different and each has at least
    three code units; a chunk that repeats an earlier one, or a chunk
    under three code units, shifts every later vector onto another
    chunk. *)
Theorem validated_chunks_alignment (text : jsstring) :
  ProcessDocument.validateAndCleanChunks (ProcessDocument.chunkText text)
  = firstn
      (length
         (ProcessDocument.validateAndCleanChunks
            (ProcessDocument.chunkText text)))
      (ProcessDocument.chunkText text)
  <->
  NoDup
    (firstn
       (length
          (ProcessDocument.validateAndCleanChunks
             (ProcessDocument.chunkText text)))
       (ProcessDocument.chunkText text))
  /\ Forall (fun c => (3 <= len c)%Z)
       (firstn
          (length
             (ProcessDocument.validateAndCleanChunks
                (ProcessDocument.chunkText text)))
          (ProcessDocument.chunkText text)).
Proof.
  pose proof (chunkText_solid text) as Hsolid.
  generalize dependent (ProcessDocument.chunkText text).
  intros chunks Hsolid.
  set (m := length (ProcessDocument.validateAndCleanChunks chunks)).
  split.
  - intro Heq. rewrite <- Heq. split; [apply validateAndCleanChunks_NoDup|].
    apply Forall_forall. intros x Hx.
    now apply validateAndCleanChunks_In in Hx as (c & _ & _ & H3).
  - intros (Hnd & H3).
    set (front := firstn m chunks) in *.
    set (f := fun c => (3 <=? len (trim c))%Z).
    assert (Hfront : Forall solidChunk front)
      by (now apply Forall_firstn).
    assert (Hsplit : chunks = front ++ skipn m chunks)
      by (symmetry; apply firstn_skipn).
    assert (Hfilter : filter f front = front).
    { apply forallb_filter_id, forallb_forall. intros c Hc. unfold f.
      rewrite Forall_forall in Hfront, H3.
      destruct (Hfront c Hc) as [_ ->]. apply Z.leb_le. now apply H3. }
    assert (Hrun : ProcessDocument.validateAndCleanChunks chunks
                   = front
                     ++ keepNew front (map trim (filter f (skipn m chunks)))).
    { rewrite validateAndCleanChunks_keepNew. fold f.
      rewrite Hsplit at 1. rewrite filter_app, map_app, Hfilter.
      rewrite (map_trim_solid front Hfront), keepNew_app. cbn [app].
      f_equal. apply keepNew_fixed; [exact Hnd | intros x _ []]. }
    assert (Hlen : length front = m).
    { unfold front. rewrite length_firstn.
      pose proof (validateAndCleanChunks_length chunks). unfold m. lia. }
    assert (Hrest : keepNew front (map trim (filter f (skipn m chunks))) = []).
    { apply length_zero_iff_nil.
      apply (f_equal (@length jsstring)) in Hrun.
      rewrite length_app in Hrun. fold m in Hrun. lia. }
    rewrite Hrun, Hrest. apply app_nil_r.
Qed.

Lemma validated_chunks_alignment_witness :
  let cs := ProcessDocument.chunkText (repeat "a"%char 3000) in
  nth_error cs 1 = Some (repeat "a"%char 1000)
  /\ nth_error (ProcessDocument.validateAndCleanChunks cs) 1
     = Some (repeat "a"%char 600)
  /\ ProcessDocument.validateAndCleanChunks cs
     <> firstn (length (ProcessDocument.validateAndCleanChunks cs)) cs.
Proof.
  cbv zeta. split; [vm_compute; reflexivity|].
  split; [vm_compute; reflexivity|].
  intro Heq.
  apply (proj1 (validated_chunks_alignment (repeat "a"%char 3000))) in Heq.
  destruct Heq as [Hnd _].
  assert (Hfront :
    firstn
      (length
         (ProcessDocument.validateAndCleanChunks
            (ProcessDocument.chunkText (repeat "a"%char 3000))))
      (ProcessDocument.chunkText (repeat "a"%char 3000))
    = [repeat "a"%char 1000; repeat "a"%char 1000; repeat "a"%char 1000])
    by (vm_compute; reflexivity).
  rewrite Hfront in Hnd.
  inversion Hnd as [|x l Hnot _]. apply Hnot. now left.
Defined.

(** ** Components that are not numbers *)

Section NaNFacts.

Import Chat.

Lemma is_nan_Prim2SF (x : number) :
  PrimFloat.is_nan x = true <-> Prim2SF x = S754_nan.
Proof.
  unfold PrimFloat.is_nan. rewrite eqb_spec.
  destruct (Prim2SF x) as [s | s | | s m e]; unfold SFeqb, SFcompare.
  - split; discriminate.
  - destruct s; split; discriminate.
  - split; reflexivity.
  - rewrite Z.compare_refl, Pos.compare_cont_refl.
    destruct s; split; discriminate.
Qed.

Lemma orZero_nan (z : number) : Prim2SF z = S754_nan -> orZero z = 0%float.
Proof.
  intro H. unfold orZero. apply is_nan_Prim2SF in H. rewrite H.
  now rewrite orb_true_r.
Qed.

Lemma orZero_nan_mul (x y : number) :
  PrimFloat.is_nan x = true -> orZero (x * y)%float = 0%float.
Proof.
  intro H. apply is_nan_Prim2SF in H. apply orZero_nan.
  rewrite mul_spec, H. reflexivity.
Qed.

Lemma orZero_zero_mul (y : number) : orZero (0 * y)%float = 0%float.
Proof.
  unfold orZero.
  assert (H : PrimFloat.eqb (0 * y)%float 0 = true
              \/ PrimFloat.is_nan (0 * y)%float = true).
  { rewrite eqb_spec, is_nan_Prim2SF, mul_spec, Prim2SF_zero.
    destruct (Prim2SF y) as [s | s | | s m e]; cbn; auto. }
  destruct H as [-> | ->]; [reflexivity | now rewrite orb_true_r].
Qed.

Lemma orZero_mul_withoutNaN (x y : number) :
  orZero
    ((if PrimFloat.is_nan x then 0 else x)
     * (if PrimFloat.is_nan y then 0 else y))%float
  = orZero (x * y)%float.
Proof.
  destruct (PrimFloat.is_nan x) eqn:Hx.
  - now rewrite orZero_zero_mul, orZero_nan_mul.
  - destruct (PrimFloat.is_nan y) eqn:Hy; [|reflexivity].
    rewrite (number_mul_comm x 0%float), (number_mul_comm x y).
    now rewrite orZero_zero_mul, orZero_nan_mul.
Qed.

Lemma dotPaired_withoutNaN (a : vector) :
  forall (b : vector) (acc : number),
    dotPaired acc (combine (withoutNaN a) (withoutNaN b))
    = dotPaired acc (combine a b).
Proof.
  induction a as [|x a IH]; intros [|y b] acc; try reflexivity.
  unfold dotPaired in *. cbn [withoutNaN map combine fold_left fst snd].
  rewrite orZero_mul_withoutNaN. apply IH.
Qed.

Lemma magnitude_withoutNaN (v : vector) :
  magnitude (withoutNaN v) = magnitude v.
Proof.
  unfold magnitude. now rewrite !sumSquares_paired, dotPaired_withoutNaN.
Qed.

End NaNFacts.

(** X23. [cosineSimilarity] reads a component that is NaN as 0: replacing
    the NaN components of both vectors by 0 leaves the similarity as it
    is, since every product that is NaN (or 0) adds 0 to the dot product
    and to the sums of squares. *)
Theorem cosineSimilarity_ignores_NaN (a b : vector) :
  Chat.cosineSimilarity (withoutNaN a) (withoutNaN b)
  = Chat.cosineSimilarity a b.
Proof.
  assert (Hla : length (withoutNaN a) = length a)
    by (unfold withoutNaN; apply length_map).
  assert (Hlb : length (withoutNaN b) = length b)
    by (unfold withoutNaN; apply length_map).
  destruct (Nat.eq_dec (length a) (length b)) as [Hlen | Hlen].
  - destruct a as [|x a]; [now rewrite !cosineSimilarity_empty|].
    rewrite (cosineSimilarity_unfold (x :: a) b Hlen) by discriminate.
    rewrite (cosineSimilarity_unfold (withoutNaN (x :: a)) (withoutNaN b))
      by (try discriminate; congruence).
    now rewrite !magnitude_withoutNaN, dotPaired_withoutNaN.
  - rewrite (cosineSimilarity_mismatch a b Hlen).
    apply cosineSimilarity_mismatch. congruence.
Qed.

(** ** The upload route without sessions *)


